(** * The chat widget of [public/script.js]: response formatter and submit handler

    A shallow embedding of the browser script.  JavaScript strings are
    sequences of UTF-16 code units; the regular expressions of
    [formatGeminiResponse] are kept as syntax and run by a small
    backtracking matcher that follows the ECMAScript semantics of the
    constructs the script uses (literal characters, [.], [.*], [.*?],
    [^], [$], one capture group, the flags [g], [m] and [s]). *)

From Stdlib Require Import Strings.String Strings.Ascii Numbers.DecimalString.
From Stdlib Require Import List NArith Arith Bool Lia.
Import ListNotations.

Set Warnings "-register-all".

(** ** Strings *)

(** A UTF-16 code unit. *)
Abbreviation unit16 := N (only parsing).

(** A JavaScript string. *)
Abbreviation jstring := (list N) (only parsing).

(** The code units of a literal of the source (all of them are ASCII). *)
Definition js (s : string) : jstring :=
  List.map N_of_ascii (list_ascii_of_string s).

Definition jstring_eqb (a b : jstring) : bool :=
  if list_eq_dec N.eq_dec a b then true else false.

(** ECMAScript LineTerminator: LF, CR, LS, PS. *)
Definition is_line_terminator (c : unit16) : bool :=
  (c =? 10)%N || (c =? 13)%N || (c =? 8232)%N || (c =? 8233)%N.

(** ECMAScript WhiteSpace: TAB, VT, FF, ZWNBSP and the space separators. *)
Definition is_white_space (c : unit16) : bool :=
  (c =? 9)%N || (c =? 11)%N || (c =? 12)%N || (c =? 32)%N || (c =? 160)%N
  || (c =? 5760)%N || ((8192 <=? c)%N && (c <=? 8202)%N)
  || (c =? 8239)%N || (c =? 8287)%N || (c =? 12288)%N || (c =? 65279)%N.

(** ** Regular expressions *)

Module Regex.

(** The patterns of the script, as syntax. *)
Inductive regex : Type :=
| Eps                       (* the empty pattern *)
| Chr (c : unit16)          (* a literal or escaped character *)
| Star (greedy : bool)      (* [.*] when greedy, [.*?] otherwise *)
| Bol                       (* [^] *)
| Eol                       (* [$] *)
| Seq (r1 r2 : regex)
| Group (r : regex).        (* the capture group, [$1] *)

Record flags := { multiline : bool; dotAll : bool }.

(** A position of the matcher: the code unit before it (for [^]), the
    input from it on, and what group 1 holds. *)
Record state := { prev : option unit16; rest : jstring; cap : option jstring }.

Definition dot_ok (f : flags) (c : unit16) : bool :=
  dotAll f || negb (is_line_terminator c).

Definition at_bol (f : flags) (p : option unit16) : bool :=
  match p with
  | None => true
  | Some c => multiline f && is_line_terminator c
  end.

Definition at_eol (f : flags) (s : jstring) : bool :=
  match s with
  | [] => true
  | c :: _ => multiline f && is_line_terminator c
  end.

Section Matcher.
Variable f : flags.

(** Greedy [.*]: take one more code unit first, give it back on failure. *)
Fixpoint star_greedy (k : state -> option state)
         (p : option unit16) (s : jstring) (g : option jstring) : option state :=
  match s with
  | c :: t =>
      if dot_ok f c then
        match star_greedy k (Some c) t g with
        | Some r => Some r
        | None => k {| prev := p; rest := s; cap := g |}
        end
      else k {| prev := p; rest := s; cap := g |}
  | [] => k {| prev := p; rest := s; cap := g |}
  end.

(** Lazy [.*?]: try the continuation first, take one more on failure. *)
Fixpoint star_lazy (k : state -> option state)
         (p : option unit16) (s : jstring) (g : option jstring) : option state :=
  match k {| prev := p; rest := s; cap := g |} with
  | Some r => Some r
  | None =>
      match s with
      | c :: t => if dot_ok f c then star_lazy k (Some c) t g else None
      | [] => None
      end
  end.

(** The matcher of a pattern, in continuation-passing style as in the
    ECMAScript specification: [k] is the rest of the pattern. *)
Fixpoint run (r : regex) (k : state -> option state) (st : state) : option state :=
  match r with
  | Eps => k st
  | Chr c =>
      match rest st with
      | x :: t => if (x =? c)%N
                  then k {| prev := Some x; rest := t; cap := cap st |}
                  else None
      | [] => None
      end
  | Star true => star_greedy k (prev st) (rest st) (cap st)
  | Star false => star_lazy k (prev st) (rest st) (cap st)
  | Bol => if at_bol f (prev st) then k st else None
  | Eol => if at_eol f (rest st) then k st else None
  | Seq r1 r2 => run r1 (run r2 k) st
  | Group r1 =>
      run r1 (fun st' =>
                k {| prev := prev st'; rest := rest st';
                     cap := Some (firstn (length (rest st) - length (rest st'))
                                         (rest st)) |}) st
  end.

(** One match attempt at the position [(p, s)]: the capture and the
    input left after the match. *)
Definition exec (r : regex) (p : option unit16) (s : jstring)
  : option (jstring * jstring) :=
  match run r Some {| prev := p; rest := s; cap := None |} with
  | Some st => Some (match cap st with Some g => g | None => [] end, rest st)
  | None => None
  end.
End Matcher.

(** A replacement string, split at its [$1]. *)
Inductive piece := Lit (s : jstring) | Group1.

Definition subst (tpl : list piece) (g : jstring) : jstring :=
  flat_map (fun x => match x with Lit s => s | Group1 => g end) tpl.

(** [String.prototype.replace] with a global pattern.  The scan goes
    through the input once; [skip] counts the code units of the current
    match still to be passed over.  After an empty match the scan moves on
    by one code unit, which is copied. *)
Fixpoint replace_scan (f : flags) (r : regex) (tpl : list piece)
         (skip : nat) (p : option unit16) (s : jstring) : jstring :=
  match s with
  | [] =>
      match skip with
      | O => match exec f r p [] with
             | Some (g, _) => subst tpl g
             | None => []
             end
      | S _ => []
      end
  | c :: t =>
      match skip with
      | S n => replace_scan f r tpl n (Some c) t
      | O =>
          match exec f r p s with
          | Some (g, s') =>
              subst tpl g ++
              match length s - length s' with
              | O => c :: replace_scan f r tpl 0 (Some c) t
              | S n => replace_scan f r tpl n (Some c) t
              end
          | None => c :: replace_scan f r tpl 0 (Some c) t
          end
      end
  end.

Definition replace (f : flags) (r : regex) (tpl : list piece) (s : jstring) : jstring :=
  replace_scan f r tpl 0 None s.

(** A literal word as a pattern. *)
Fixpoint word (w : jstring) : regex :=
  match w with
  | [] => Eps
  | c :: t => Seq (Chr c) (word t)
  end.

End Regex.
Import Regex.

(** ** The formatter *)

Definition flags_g := {| multiline := false; dotAll := false |}.
Definition flags_gm := {| multiline := true; dotAll := false |}.
Definition flags_gs := {| multiline := false; dotAll := true |}.

(** [/\*\*(.*?)\*\*/g] *)
Definition re_bold : regex :=
  Seq (Chr 42%N) (Seq (Chr 42%N) (Seq (Group (Star false)) (Seq (Chr 42%N) (Chr 42%N)))).

(** [/^\* (.*$)/gm] *)
Definition re_item : regex :=
  Seq Bol (Seq (Chr 42%N) (Seq (Chr 32%N) (Group (Seq (Star true) Eol)))).

(** [/(<li>.*<\/li>)/gs] *)
Definition re_items : regex :=
  Group (Seq (word (js "<li>")) (Seq (Star true) (word (js "</li>")))).

Definition formatGeminiResponse (text : jstring) : jstring :=
  let html := replace flags_g (word (js ">")) [Lit (js "&gt;")]
                (replace flags_g (word (js "<")) [Lit (js "&lt;")] text) in
  let html := replace flags_g re_bold
                [Lit (js "<strong>"); Group1; Lit (js "</strong>")] html in
  let html := replace flags_gm re_item
                [Lit (js "<li>"); Group1; Lit (js "</li>")] html in
  let html := replace flags_gs re_items
                [Lit (js "<ul>"); Group1; Lit (js "</ul>")] html in
  let html := replace flags_g (word [10%N]) [Lit (js "<br>")] html in
  let html := replace flags_g (word (js "<br><ul>")) [Lit (js "<ul>")] html in
  let html := replace flags_g (word (js "</ul><br>")) [Lit (js "</ul>")] html in
  html.

(** ** Values of the runtime *)

(** [String.prototype.trim]: white space and line terminators go, at both ends. *)
Definition is_trimmed_unit (c : unit16) : bool :=
  is_white_space c || is_line_terminator c.

Fixpoint trim_start (s : jstring) : jstring :=
  match s with
  | c :: t => if is_trimmed_unit c then trim_start t else s
  | [] => []
  end.

Definition trim (s : jstring) : jstring :=
  rev (trim_start (rev (trim_start s))).

(** What [JSON.parse] can return.  A number is kept by the two things the
    script can observe of it: whether it is truthy (neither zero nor NaN)
    and its decimal text ([ToString]). *)
Inductive jsval : Type :=
| JNull
| JBool (b : bool)
| JNum (nonzero : bool) (text : jstring)
| JStr (s : jstring)
| JArr (items : list jsval)
| JObj (fields : list (jstring * jsval)).

(** [ToBoolean]. *)
Definition truthy (v : jsval) : bool :=
  match v with
  | JNull => false
  | JBool b => b
  | JNum nz _ => nz
  | JStr s => match s with [] => false | _ => true end
  | JArr _ | JObj _ => true
  end.

(** The own property [key] of a parsed object: of two equal keys of the
    JSON text the later one is kept. *)
Fixpoint own_property (key : jstring) (fields : list (jstring * jsval)) : option jsval :=
  match fields with
  | [] => None
  | (k, v) :: t =>
      match own_property key t with
      | Some v' => Some v'
      | None => if jstring_eqb k key then Some v else None
      end
  end.

(** [v.key] for the two names the script reads, [error] and [result]:
    only a parsed object can have them; on any other value but [null] the
    access gives [undefined] ([None]). *)
Definition get (v : jsval) (key : jstring) : option jsval :=
  match v with
  | JObj fields => own_property key fields
  | _ => None
  end.

(** [ToString], as the [Error] constructor applies it to its argument.
    An object with an own [toString] property (which in parsed JSON is
    never a function) cannot be converted: [None] stands for the
    [TypeError] thrown then. *)
Fixpoint to_string (v : jsval) : option jstring :=
  match v with
  | JNull => Some (js "null")
  | JBool true => Some (js "true")
  | JBool false => Some (js "false")
  | JNum _ text => Some text
  | JStr s => Some s
  | JArr items =>
      (fix join (l : list jsval) : option jstring :=
         match l with
         | [] => Some []
         | x :: t =>
             match (match x with JNull => Some [] | _ => to_string x end) with
             | Some a =>
                 match t with
                 | [] => Some a
                 | _ :: _ => match join t with
                             | Some b => Some (a ++ js "," ++ b)
                             | None => None
                             end
                 end
             | None => None
             end
         end) items
  | JObj fields =>
      match own_property (js "toString") fields with
      | Some _ => None
      | None => Some (js "[object Object]")
      end
  end.

(** Decimal text of a non-negative integer, as a template literal renders
    [response.status]. *)
Definition decimal (n : N) : jstring :=
  js (NilZero.string_of_uint (N.to_uint n)).

(** *** [JSON.stringify] *)

Definition hex_digit (n : N) : unit16 :=
  if (n <? 10)%N then (48 + n)%N else (87 + n)%N.

Definition unicode_escape (c : unit16) : jstring :=
  [92; 117; hex_digit ((c / 4096) mod 16); hex_digit ((c / 256) mod 16);
   hex_digit ((c / 16) mod 16); hex_digit (c mod 16)]%N.

Definition is_leading_surrogate (c : unit16) : bool :=
  (55296 <=? c)%N && (c <=? 56319)%N.

Definition is_trailing_surrogate (c : unit16) : bool :=
  (56320 <=? c)%N && (c <=? 57343)%N.

(** The characters of [QuoteJSONString] between the quotes. *)
Fixpoint quote_units (s : jstring) : jstring :=
  match s with
  | [] => []
  | c :: t =>
      if (c =? 8)%N then [92; 98]%N ++ quote_units t
      else if (c =? 9)%N then [92; 116]%N ++ quote_units t
      else if (c =? 10)%N then [92; 110]%N ++ quote_units t
      else if (c =? 12)%N then [92; 102]%N ++ quote_units t
      else if (c =? 13)%N then [92; 114]%N ++ quote_units t
      else if (c =? 34)%N then [92; 34]%N ++ quote_units t
      else if (c =? 92)%N then [92; 92]%N ++ quote_units t
      else if (c <? 32)%N then unicode_escape c ++ quote_units t
      else if is_leading_surrogate c then
        match t with
        | d :: t' =>
            if is_trailing_surrogate d then c :: d :: quote_units t'
            else unicode_escape c ++ quote_units t
        | [] => unicode_escape c
        end
      else if is_trailing_surrogate c then unicode_escape c ++ quote_units t
      else c :: quote_units t
  end.

Definition QuoteJSONString (s : jstring) : jstring :=
  [34%N] ++ quote_units s ++ [34%N].

(** [JSON.stringify] without indentation, on values whose objects have
    distinct keys that are not array indices (their properties are then
    listed in the order of creation) and whose numbers are finite. *)
Fixpoint JSON_stringify (v : jsval) : jstring :=
  match v with
  | JNull => js "null"
  | JBool true => js "true"
  | JBool false => js "false"
  | JNum _ text => text
  | JStr s => QuoteJSONString s
  | JArr items =>
      js "[" ++
      (fix elems (l : list jsval) : jstring :=
         match l with
         | [] => []
         | x :: t => JSON_stringify x ++
                     match t with [] => [] | _ :: _ => js "," ++ elems t end
         end) items ++ js "]"
  | JObj fields =>
      js "{" ++
      (fix members (l : list (jstring * jsval)) : jstring :=
         match l with
         | [] => []
         | (k, x) :: t => QuoteJSONString k ++ js ":" ++ JSON_stringify x ++
                          match t with [] => [] | _ :: _ => js "," ++ members t end
         end) fields ++ js "}"
  end.

(** ** The page *)

(** The property through which the content of an element was assigned. *)
Inductive sink : Type := InnerHTML | TextContent.

Record element : Type :=
  { classList : list string; assigned_by : sink; content : jstring }.

Record request : Type :=
  { url : jstring; method : jstring;
    headers : list (jstring * jstring); body : jstring }.

(** What the handler does to its surroundings, in the order of the source. *)
Inductive effect : Type :=
| PreventDefault
| SetInnerHTML (el : nat) (html : jstring)
| SetTextContent (el : nat) (text : jstring)
| AppendChild (el : nat)
| ScrollToBottom
| SetInputValue (v : jstring)
| Fetch (rq : request)
| ConsoleError (message : jstring).

(** The input field, the children of the chat box (an element is named by
    its position: the chat box is only appended to) and the effects so far. *)
Record page : Type :=
  { input_value : jstring; chatBox : list element; trace : list effect }.

Definition emit (e : effect) (pg : page) : page :=
  {| input_value := input_value pg; chatBox := chatBox pg;
     trace := trace pg ++ [e] |}.

Fixpoint assign (el : nat) (by_ : sink) (c : jstring) (l : list element) : list element :=
  match l, el with
  | [], _ => []
  | x :: t, O => {| classList := classList x; assigned_by := by_; content := c |} :: t
  | x :: t, S n => x :: assign n by_ c t
  end.

Definition set_innerHTML (el : nat) (html : jstring) (pg : page) : page :=
  emit (SetInnerHTML el html)
       {| input_value := input_value pg;
          chatBox := assign el InnerHTML html (chatBox pg); trace := trace pg |}.

Definition set_textContent (el : nat) (text : jstring) (pg : page) : page :=
  emit (SetTextContent el text)
       {| input_value := input_value pg;
          chatBox := assign el TextContent text (chatBox pg); trace := trace pg |}.

Definition appendMessage (sender : string) (htmlContent : jstring) (pg : page)
  : nat * page :=
  let el := length (chatBox pg) in
  let msgElement :=
    {| classList := ["message"; sender]%string;
       assigned_by := InnerHTML; content := htmlContent |} in
  (el, emit ScrollToBottom
         (emit (AppendChild el)
            (emit (SetInnerHTML el htmlContent)
               {| input_value := input_value pg;
                  chatBox := chatBox pg ++ [msgElement]; trace := trace pg |}))).

(** ** The submit handler *)

(** What the awaited [response.json()] delivers. *)
Inductive json_result : Type :=
| Parsed (v : jsval)
| ParseFailed (message : jstring).

(** What the awaited [fetch] delivers. *)
Inductive fetch_result : Type :=
| Rejected (message : jstring)
| Response (status : N) (b : json_result).

(** [response.ok]. *)
Definition ok (status : N) : bool := (200 <=? status)%N && (status <=? 299)%N.

(** The messages of the two [TypeError]s the engine itself can raise in the
    handler; their wording is the engine's. *)
Record runtime : Type :=
  { not_a_function : jstring; not_convertible : jstring }.

Definition thinking_text : jstring := js "Gemini sedang berpikir...".
Definition no_response_text : jstring := js "Maaf, tidak ada respon yang diterima.".
Definition failure_prefix : jstring := js "Gagal mendapatkan respon dari server: ".
Definition status_message (status : N) : jstring :=
  js "Server responded with status " ++ decimal status.

Definition chat_request (userMessage : jstring) : request :=
  {| url := js "/api/chat";
     method := js "POST";
     headers := [(js "Content-Type", js "application/json")];
     body := JSON_stringify
               (JObj [(js "message",
                       JArr [JObj [(js "role", JStr (js "user"));
                                   (js "content", JStr userMessage)]])]) |}.

(** The handler up to its [await fetch(...)]: the page then, and the
    placeholder element the rest of the handler holds on to ([None] when it
    returned at once). *)
Definition submit_begin (pg : page) : page * option nat :=
  let pg := emit PreventDefault pg in
  let userMessage := trim (input_value pg) in
  match userMessage with
  | [] => (pg, None)
  | _ :: _ =>
      let '(_, pg) := appendMessage "user" userMessage pg in
      let pg := emit (SetInputValue [])
                  {| input_value := []; chatBox := chatBox pg; trace := trace pg |} in
      let '(thinkingMessageElement, pg) := appendMessage "bot" thinking_text pg in
      let pg := emit (Fetch (chat_request userMessage)) pg in
      (pg, Some thinkingMessageElement)
  end.

(** The body of [try]: the page it leaves, or the message of what it threw. *)
Definition submit_try (rt : runtime) (thinkingMessageElement : nat)
           (r : fetch_result) (pg : page) : page + jstring :=
  match r with
  | Rejected message => inr message
  | Response status b =>
      if negb (ok status) then
        let errorData := match b with Parsed v => Some v | ParseFailed _ => None end in
        let error_field :=
          match errorData with
          | None | Some JNull => None
          | Some v => get v (js "error")
          end in
        let errorMessage :=
          match error_field with
          | Some e => if truthy e then e else JStr (status_message status)
          | None => JStr (status_message status)
          end in
        match to_string errorMessage with
        | Some message => inr message
        | None => inr (not_convertible rt)
        end
      else
        match b with
        | ParseFailed message => inr message
        | Parsed data =>
            let result := if truthy data then get data (js "result") else Some data in
            if match result with Some v => truthy v | None => false end then
              match result with
              | Some (JStr text) =>
                  inl (set_innerHTML thinkingMessageElement
                                     (formatGeminiResponse text) pg)
              | _ => inr (not_a_function rt)
              end
            else inl (set_textContent thinkingMessageElement no_response_text pg)
        end
  end.

(** The handler from the arrival of the reply on: [try], [catch], [finally]. *)
Definition submit_resume (rt : runtime) (thinkingMessageElement : nat)
           (r : fetch_result) (pg : page) : page :=
  let pg :=
    match submit_try rt thinkingMessageElement r pg with
    | inl pg' => pg'
    | inr message =>
        set_textContent thinkingMessageElement (failure_prefix ++ message)
                        (emit (ConsoleError message) pg)
    end in
  emit ScrollToBottom pg.

(** One submission whose reply arrives before anything else happens. *)
Definition submit (rt : runtime) (r : fetch_result) (pg : page) : page :=
  match submit_begin pg with
  | (pg, None) => pg
  | (pg, Some thinkingMessageElement) => submit_resume rt thinkingMessageElement r pg
  end.

(** ** Specification vocabulary *)

Definition last_unit (p : option unit16) (w : jstring) : option unit16 :=
  fold_left (fun _ c => Some c) w p.

(** What a successful match of a pattern does to a position. *)
Inductive Matches (f : flags) : regex -> state -> state -> Prop :=
| M_Eps st : Matches f Eps st st
| M_Chr c t st :
    rest st = c :: t ->
    Matches f (Chr c) st {| prev := Some c; rest := t; cap := cap st |}
| M_Star g w t st :
    rest st = w ++ t -> forallb (dot_ok f) w = true ->
    Matches f (Star g) st {| prev := last_unit (prev st) w; rest := t; cap := cap st |}
| M_Bol st : at_bol f (prev st) = true -> Matches f Bol st st
| M_Eol st : at_eol f (rest st) = true -> Matches f Eol st st
| M_Seq r1 r2 st st1 st2 :
    Matches f r1 st st1 -> Matches f r2 st1 st2 -> Matches f (Seq r1 r2) st st2
| M_Group r st st' :
    Matches f r st st' ->
    Matches f (Group r) st
            {| prev := prev st'; rest := rest st';
               cap := Some (firstn (length (rest st) - length (rest st')) (rest st)) |}.


(** *** Restricted HTML *)

(** The tags the formatter writes. *)
Inductive tag : Type := Strong | StrongEnd | Li | LiEnd | Ul | UlEnd | Br.

Definition tag_text (t : tag) : jstring :=
  match t with
  | Strong => js "<strong>"
  | StrongEnd => js "</strong>"
  | Li => js "<li>"
  | LiEnd => js "</li>"
  | Ul => js "<ul>"
  | UlEnd => js "</ul>"
  | Br => js "<br>"
  end.

Definition all_tags : list tag := [Strong; StrongEnd; Li; LiEnd; Ul; UlEnd; Br].

(** [<] or [>]. *)
Definition is_angle (c : unit16) : bool := (c =? 60)%N || (c =? 62)%N.

(** A string seen as text and tags. *)
Inductive token : Type := Text (c : unit16) | Tag (t : tag).

Definition render_token (k : token) : jstring :=
  match k with
  | Text c => [c]
  | Tag t => tag_text t
  end.

Definition render (toks : list token) : jstring := flat_map render_token toks.

Definition token_ok (k : token) : Prop :=
  match k with
  | Text c => is_angle c = false
  | Tag _ => True
  end.

(** Every [<] and every [>] of the string belongs to one of the seven tags. *)
Definition restricted_html (s : jstring) : Prop :=
  exists toks, Forall token_ok toks /\ s = render toks.

(** A code unit that occurs in a tag behind its first one. *)
Definition tag_inner (c : unit16) : bool :=
  existsb (fun t => existsb (N.eqb c) (tl (tag_text t))) all_tags.

(** A code unit that occurs in a tag before its last one. *)
Definition tag_nonfinal (c : unit16) : bool :=
  existsb (fun t => existsb (N.eqb c) (removelast (tag_text t))) all_tags.

(** The first step of the formatter on one code unit. *)
Definition escape_unit (c : unit16) : jstring :=
  if (c =? 60)%N then js "&lt;" else if (c =? 62)%N then js "&gt;" else [c].

(** The replacement of the bold step. *)
Definition bold_tpl : list piece :=
  [Lit (js "<strong>"); Group1; Lit (js "</strong>")].

(** The steps of the formatter behind the escaping. *)
Definition markup (html : jstring) : jstring :=
  let html := replace flags_g re_bold
                [Lit (js "<strong>"); Group1; Lit (js "</strong>")] html in
  let html := replace flags_gm re_item
                [Lit (js "<li>"); Group1; Lit (js "</li>")] html in
  let html := replace flags_gs re_items
                [Lit (js "<ul>"); Group1; Lit (js "</ul>")] html in
  let html := replace flags_g (word [10%N]) [Lit (js "<br>")] html in
  let html := replace flags_g (word (js "<br><ul>")) [Lit (js "<ul>")] html in
  let html := replace flags_g (word (js "</ul><br>")) [Lit (js "</ul>")] html in
  html.

(** *** Plain text *)

(** The string holds a [**] ... [**] pair. *)
Definition bold_pair (s : jstring) : Prop :=
  exists a t b, s = a ++ js "**" ++ t ++ js "**" ++ b.

(** The end of [a] is the start of a line: nothing, or a line terminator,
    comes before it. *)
Definition line_start (a : jstring) : Prop :=
  a = [] \/ exists a0 c, a = a0 ++ [c] /\ is_line_terminator c = true.

(** The string has a line that begins with an asterisk and a space. *)
Definition item_line (s : jstring) : Prop :=
  exists a b, line_start a /\ s = a ++ js "* " ++ b.

Definition no_angle (s : jstring) : Prop :=
  forallb (fun c => negb (is_angle c)) s = true.

(** Text of one line without asterisks and angle brackets. *)
Definition plain_unit (c : unit16) : bool :=
  negb (is_angle c) && negb (c =? 42)%N && negb (is_line_terminator c).

Definition plain (s : jstring) : Prop := forallb plain_unit s = true.

(** Text with some of its parts between [**] and [**]. *)
Inductive segment : Type := Plain (t : jstring) | Bold (t : jstring).

Definition segment_text (g : segment) : jstring :=
  match g with Plain t | Bold t => t end.

Definition segment_source (g : segment) : jstring :=
  match g with
  | Plain t => t
  | Bold t => js "**" ++ t ++ js "**"
  end.

Definition segment_html (g : segment) : jstring :=
  match g with
  | Plain t => t
  | Bold t => js "<strong>" ++ t ++ js "</strong>"
  end.

(** *** Counting *)

Fixpoint starts_with (w s : jstring) : bool :=
  match w, s with
  | [], _ => true
  | _ :: _, [] => false
  | c :: w', d :: s' => (c =? d)%N && starts_with w' s'
  end.

(** The number of places of [s] where [w] occurs. *)
Fixpoint occurrences (w s : jstring) : nat :=
  match s with
  | [] => if starts_with w [] then 1 else 0
  | _ :: t => (if starts_with w s then 1 else 0) + occurrences w t
  end.

(** A line feed. *)
Definition LF : jstring := [10%N].

(** *** The handler seen from outside *)

(** What one submission adds to the trace of the page. *)
Definition submit_effects (rt : runtime) (r : fetch_result) (pg : page) : list effect :=
  skipn (length (trace pg)) (trace (submit rt r pg)).

(** The requests among some effects. *)
Definition fetches (l : list effect) : list request :=
  flat_map (fun e => match e with Fetch rq => [rq] | _ => [] end) l.

(** The values assigned through [innerHTML] among some effects. *)
Definition html_writes (l : list effect) : list jstring :=
  flat_map (fun e => match e with SetInnerHTML _ h => [h] | _ => [] end) l.

(** The values assigned through [textContent] among some effects. *)
Definition text_writes (l : list effect) : list jstring :=
  flat_map (fun e => match e with SetTextContent _ t => [t] | _ => [] end) l.

Definition message_element (sender : string) (by_ : sink) (c : jstring) : element :=
  {| classList := ["message"; sender]%string; assigned_by := by_; content := c |}.

(** [s] between double quotes. *)
Definition quoted (s : jstring) : jstring := [34%N] ++ s ++ [34%N].

(** The JSON text [{"message":[{"role":"user","content":T}]}], where [T] is
    the JSON string literal of [text]. *)
Definition chat_body (text : jstring) : jstring :=
  js "{" ++ quoted (js "message") ++ js ":[{" ++
  quoted (js "role") ++ js ":" ++ quoted (js "user") ++ js "," ++
  quoted (js "content") ++ js ":" ++ QuoteJSONString text ++ js "}]}".

Definition post_request (text : jstring) : request :=
  {| url := js "/api/chat"; method := js "POST";
     headers := [(js "Content-Type", js "application/json")];
     body := chat_body text |}.

(** A response body that is JSON and has the field [error]. *)
Definition body_error (b : json_result) (e : jsval) : Prop :=
  exists v, b = Parsed v /\ get v (js "error") = Some e.

(** A response body that is no JSON or has no field [error]. *)
Definition body_without_error (b : json_result) : Prop :=
  (exists m, b = ParseFailed m) \/ (exists v, b = Parsed v /\ get v (js "error") = None).

(** The effects of the handler up to and with its request, when the chat
    box had [n] children and the trimmed input was [msg]. *)
Definition sent_effects (n : nat) (msg : jstring) : list effect :=
  [PreventDefault; SetInnerHTML n msg; AppendChild n; ScrollToBottom;
   SetInputValue []; SetInnerHTML (S n) thinking_text;
   AppendChild (S n); ScrollToBottom; Fetch (chat_request msg)].

(** An engine, with the wording of V8. *)
Definition v8 : runtime :=
  {| not_a_function := js "text.replace is not a function";
     not_convertible := js "Cannot convert object to primitive value" |}.

(** A fresh page with [v] typed into the input field. *)
Definition fresh_page (v : jstring) : page :=
  {| input_value := v; chatBox := []; trace := [] |}.

(** *** Text in lines *)

(** What the formatter makes of one code unit of text without asterisks. *)
Definition render_unit (c : unit16) : jstring :=
  if (c =? 10)%N then js "<br>" else escape_unit c.

(** The line feed as a line break. *)
Definition break_unit (c : unit16) : jstring :=
  if (c =? 10)%N then js "<br>" else [c].

(** The strings of [l] with [sep] between them. *)
Fixpoint join (sep : jstring) (l : list jstring) : jstring :=
  match l with
  | [] => []
  | [x] => x
  | x :: t => x ++ sep ++ join sep t
  end.

(** One line of text without an asterisk. *)
Definition text_line (x : jstring) : Prop :=
  forallb (fun c => negb (c =? 42)%N && negb (is_line_terminator c)) x = true.

Definition item_source (x : jstring) : jstring := js "* " ++ x.

Definition item_html (x : jstring) : jstring :=
  js "<li>" ++ flat_map escape_unit x ++ js "</li>".

(** No [x] of [s] has a [y] right behind it. *)
Fixpoint avoids (x y : unit16) (s : jstring) : bool :=
  match s with
  | [] => true
  | c :: t =>
      negb ((c =? x)%N && match t with d :: _ => (d =? y)%N | [] => false end)
      && avoids x y t
  end.

(** A line of text in front of a list, with its line feed, or none. *)
Definition line_before (b : option jstring) : jstring :=
  match b with Some t => t ++ LF | None => [] end.

(** A line of text behind a list, with the line feed before it, or none. *)
Definition line_after (a : option jstring) : jstring :=
  match a with Some t => LF ++ t | None => [] end.

Definition optional_line (o : option jstring) : Prop :=
  match o with Some t => text_line t | None => True end.

Definition escaped_line (o : option jstring) : jstring :=
  match o with Some t => flat_map escape_unit t | None => [] end.

(** A list item around text that is escaped already. *)
Definition list_item (y : jstring) : jstring := js "<li>" ++ y ++ js "</li>".

Definition item_tpl : list piece := [Lit (js "<li>"); Group1; Lit (js "</li>")].

Definition items_tpl : list piece := [Lit (js "<ul>"); Group1; Lit (js "</ul>")].

Definition plain_option (o : option jstring) : Prop :=
  match o with Some t => plain t | None => True end.

Definition option_text (o : option jstring) : jstring :=
  match o with Some t => t | None => [] end.

Definition break_before (b : option jstring) : jstring :=
  match b with Some t => t ++ js "<br>" | None => [] end.

Definition break_after (a : option jstring) : jstring :=
  match a with Some t => js "<br>" ++ t | None => [] end.

(** *** More about the effects *)


(** *** A reply that comes late *)

(** The reply [r] is handled the same way whenever it comes: whatever the
    page holds by then, the rest of the handler gives the placeholder [el]
    the content [c] through [by_] and keeps its classes, leaves every other
    child of the chat box as it is, and adds the effects [eff el] to those
    of the page. *)
Definition lands (rt : runtime) (r : fetch_result) (by_ : sink) (c : jstring)
           (eff : nat -> list effect) : Prop :=
  forall el pg,
    (forall x, nth_error (chatBox pg) el = Some x ->
       nth_error (chatBox (submit_resume rt el r pg)) el
       = Some {| classList := classList x; assigned_by := by_; content := c |}) /\
    (forall i, i <> el ->
       nth_error (chatBox (submit_resume rt el r pg)) i = nth_error (chatBox pg) i) /\
    trace (submit_resume rt el r pg) = trace pg ++ eff el.

(** *** Bold parts in text of many lines *)

(** Every asterisk of [t] has a code unit behind it, and that is neither
    an asterisk nor a space: no asterisk of [t] is part of a [**] or the
    marker of a list item. *)
Fixpoint tame (t : jstring) : bool :=
  match t with
  | [] => true
  | c :: r =>
      (if (c =? 42)%N
       then match r with
            | d :: _ => negb (d =? 42)%N && negb (d =? 32)%N
            | [] => false
            end
       else true)
      && tame r
  end.

(** No line terminator in [t]. *)
Definition one_line (t : jstring) : bool :=
  forallb (fun c => negb (is_line_terminator c)) t.

(** Text of any number of lines with some parts between [**] and [**];
    such a part lies on one line. *)
Definition rich (g : segment) : Prop :=
  match g with
  | Plain t => tame t = true
  | Bold t => tame t = true /\ one_line t = true
  end.

Definition escape_segment (g : segment) : segment :=
  match g with
  | Plain t => Plain (flat_map escape_unit t)
  | Bold t => Bold (flat_map escape_unit t)
  end.

(** A [<strong>] element. *)
Definition strong_element (t : jstring) : jstring :=
  js "<strong>" ++ t ++ js "</strong>".

(** What the formatter makes of a segment. *)
Definition segment_output (g : segment) : jstring :=
  match g with
  | Plain t => flat_map render_unit t
  | Bold t => strong_element (flat_map escape_unit t)
  end.

(** The steps of the formatter behind the bold step. *)
Definition after_bold (html : jstring) : jstring :=
  let html := replace flags_gm re_item
                [Lit (js "<li>"); Group1; Lit (js "</li>")] html in
  let html := replace flags_gs re_items
                [Lit (js "<ul>"); Group1; Lit (js "</ul>")] html in
  let html := replace flags_g (word [10%N]) [Lit (js "<br>")] html in
  let html := replace flags_g (word (js "<br><ul>")) [Lit (js "<ul>")] html in
  let html := replace flags_g (word (js "</ul><br>")) [Lit (js "</ul>")] html in
  html.

(** [t] between two asterisks twice, with [x] behind it. *)
Definition pair_source (t x : jstring) : jstring := js "**" ++ t ++ js "**" ++ x.

(** No [**] lies in [t] or across its end when an asterisk follows: a
    [**] behind [t] is the first one. *)
Definition closes_first (t : jstring) : Prop :=
  forall a b, t ++ [42%N] <> a ++ js "**" ++ b.

(** What the bold step is to make of a string, read from the left: where
    a [**] has a [**] behind it on the same line, the text up to the first
    such [**] becomes a [<strong>] element and the reading goes on behind
    it; any other code unit stays and the reading goes on with the next. *)
Inductive bold_step : jstring -> jstring -> Prop :=
| bold_step_end : bold_step [] []
| bold_step_pair t s out :
    one_line t = true -> closes_first t -> bold_step s out ->
    bold_step (pair_source t s) (strong_element t ++ out)
| bold_step_unit c s out :
    (forall t x, one_line t = true -> c :: s <> pair_source t x) ->
    bold_step s out -> bold_step (c :: s) (c :: out).
(** ** Facts about the matcher *)

Module RegexFacts.

Lemma state_eta (st : state) :
  {| prev := prev st; rest := rest st; cap := cap st |} = st.
Proof. destruct st; reflexivity. Qed.

Section Soundness.
Variable f : flags.

Lemma star_greedy_sound k res : forall s p g,
  star_greedy f k p s g = Some res ->
  exists w t, s = w ++ t /\ forallb (dot_ok f) w = true /\
              k {| prev := last_unit p w; rest := t; cap := g |} = Some res.
Proof.
  induction s as [|c s IH]; intros p g H; simpl in H.
  - exists [], []. auto.
  - destruct (dot_ok f c) eqn:Hc.
    + destruct (star_greedy f k (Some c) s g) eqn:Hs.
      * inversion H; subst. destruct (IH _ _ Hs) as (w & t & -> & Hw & Hk).
        exists (c :: w), t. simpl. rewrite Hc, Hw. auto.
      * exists [], (c :: s). auto.
    + exists [], (c :: s). auto.
Qed.

Lemma star_lazy_sound k res : forall s p g,
  star_lazy f k p s g = Some res ->
  exists w t, s = w ++ t /\ forallb (dot_ok f) w = true /\
              k {| prev := last_unit p w; rest := t; cap := g |} = Some res.
Proof.
  induction s as [|c s IH]; intros p g H; simpl in H.
  - destruct (k _) eqn:Hk; [|discriminate]. exists [], []. inversion H; subst. auto.
  - destruct (k _) eqn:Hk.
    + inversion H; subst. exists [], (c :: s). auto.
    + destruct (dot_ok f c) eqn:Hc; [|discriminate].
      destruct (IH _ _ H) as (w & t & -> & Hw & Hk').
      exists (c :: w), t. simpl. rewrite Hc, Hw. auto.
Qed.

Lemma run_sound r : forall k st res,
  run f r k st = Some res ->
  exists st', Matches f r st st' /\ k st' = Some res.
Proof.
  induction r as [|c|g| | |r1 IH1 r2 IH2|r IH]; intros k st res H; simpl in H.
  - exists st. split; [constructor|assumption].
  - destruct (rest st) as [|x t] eqn:Hr; [discriminate|].
    destruct (N.eqb_spec x c); [subst|discriminate].
    eexists. split; [apply M_Chr; eassumption|assumption].
  - destruct g.
    + apply star_greedy_sound in H. destruct H as (w & t & Hs & Hw & Hk).
      eexists. split; [eapply M_Star; eassumption|assumption].
    + apply star_lazy_sound in H. destruct H as (w & t & Hs & Hw & Hk).
      eexists. split; [eapply M_Star; eassumption|assumption].
  - destruct (at_bol f (prev st)) eqn:Hb; [|discriminate].
    exists st. split; [constructor; assumption|assumption].
  - destruct (at_eol f (rest st)) eqn:Hb; [|discriminate].
    exists st. split; [constructor; assumption|assumption].
  - apply IH1 in H. destruct H as (st1 & M1 & H). apply IH2 in H.
    destruct H as (st2 & M2 & H). exists st2. split; [econstructor; eassumption|assumption].
  - apply IH in H. destruct H as (st1 & M1 & H).
    eexists. split; [apply M_Group; eassumption|assumption].
Qed.

(** A match consumes a prefix of the input. *)
Lemma Matches_suffix r st st' :
  Matches f r st st' -> exists w, rest st = w ++ rest st'.
Proof.
  induction 1; simpl.
  - exists []; reflexivity.
  - exists [c]; assumption.
  - exists w; assumption.
  - exists []; reflexivity.
  - exists []; reflexivity.
  - destruct IHMatches1 as [w1 H1], IHMatches2 as [w2 H2].
    exists (w1 ++ w2). rewrite H1, H2, app_assoc. reflexivity.
  - assumption.
Qed.

Lemma exec_sound r p s g s' :
  exec f r p s = Some (g, s') ->
  exists st', Matches f r {| prev := p; rest := s; cap := None |} st' /\
              rest st' = s' /\ g = match cap st' with Some x => x | None => [] end.
Proof.
  unfold exec. intros H.
  destruct (run f r Some _) as [st|] eqn:Hr; [|discriminate].
  inversion H; subst. apply run_sound in Hr. destruct Hr as (st' & M & E).
  inversion E; subst. exists st. auto.
Qed.

Lemma exec_suffix r p s g s' :
  exec f r p s = Some (g, s') -> exists w, s = w ++ s'.
Proof.
  intros H. apply exec_sound in H. destruct H as (st' & M & <- & _).
  apply Matches_suffix in M. exact M.
Qed.
End Soundness.

Lemma last_unit_app p a b : last_unit p (a ++ b) = last_unit (last_unit p a) b.
Proof. unfold last_unit. apply fold_left_app. Qed.

Lemma last_unit_snoc p a c : last_unit p (a ++ [c]) = Some c.
Proof. rewrite last_unit_app. reflexivity. Qed.

Lemma last_unit_line_start p a :
  last_unit None a = Some p -> exists a0, a = a0 ++ [p].
Proof.
  destruct a as [|c a] using rev_ind; [discriminate|].
  rewrite last_unit_snoc. intros E. inversion E; subst. eauto.
Qed.

Lemma firstn_consumed (w t : jstring) :
  firstn (length (w ++ t) - length t) (w ++ t) = w.
Proof.
  rewrite length_app. replace (length w + length t - length t) with (length w) by lia.
  rewrite firstn_app, Nat.sub_diag, firstn_all. simpl. apply app_nil_r.
Qed.

(** *** The scan of [replace] *)

Section Scan.
Variables (f : flags) (r : regex) (tpl : list piece).

Lemma replace_scan_skip : forall w p t,
  replace_scan f r tpl (length w) p (w ++ t)
  = replace_scan f r tpl 0 (last_unit p w) t.
Proof.
  induction w as [|c w IH]; intros p t; simpl.
  - reflexivity.
  - apply IH.
Qed.

Lemma replace_scan_copy p c t :
  exec f r p (c :: t) = None ->
  replace_scan f r tpl 0 p (c :: t) = c :: replace_scan f r tpl 0 (Some c) t.
Proof. intros H. simpl. rewrite H. reflexivity. Qed.

Lemma replace_scan_match p c w g s' :
  exec f r p (c :: w ++ s') = Some (g, s') ->
  replace_scan f r tpl 0 p (c :: w ++ s')
  = subst tpl g ++ replace_scan f r tpl 0 (last_unit (Some c) w) s'.
Proof.
  intros H. cbn [replace_scan]. rewrite H.
  replace (length (c :: w ++ s') - length s') with (S (length w))
    by (change (length (c :: w ++ s')) with (S (length (w ++ s')));
        rewrite length_app; lia).
  rewrite replace_scan_skip. reflexivity.
Qed.

(** After a non-empty match the scan goes on behind it. *)
Lemma replace_scan_behind p s g s' :
  exec f r p s = Some (g, s') -> length s' < length s ->
  exists p', replace_scan f r tpl 0 p s
             = subst tpl g ++ replace_scan f r tpl 0 p' s'.
Proof.
  intros H L. destruct (exec_suffix _ _ _ _ _ _ H) as [w ->].
  destruct w as [|c w]; [simpl in L; lia|].
  eexists. apply (replace_scan_match p c w _ _ H).
Qed.

Lemma replace_scan_end p :
  exec f r p [] = None -> replace_scan f r tpl 0 p [] = [].
Proof. intros H. simpl. rewrite H. reflexivity. Qed.

(** Where no match starts the input is copied. *)
Lemma replace_scan_pass : forall w p t,
  (forall a c b, w = a ++ c :: b ->
                 exec f r (last_unit p a) (c :: b ++ t) = None) ->
  replace_scan f r tpl 0 p (w ++ t)
  = w ++ replace_scan f r tpl 0 (last_unit p w) t.
Proof.
  induction w as [|c w IH]; intros p t H; [reflexivity|].
  change ((c :: w) ++ t) with (c :: w ++ t).
  rewrite replace_scan_copy by apply (H [] c w eq_refl).
  simpl. f_equal. apply IH. intros a x b E.
  apply (H (c :: a) x b). rewrite E. reflexivity.
Qed.

Lemma replace_scan_id s p :
  (forall a b, s = a ++ b -> exec f r (last_unit p a) b = None) ->
  replace_scan f r tpl 0 p s = s.
Proof.
  intros H. rewrite <- (app_nil_r s) at 1.
  rewrite replace_scan_pass.
  - rewrite replace_scan_end; [apply app_nil_r|].
    apply (H s []). symmetry. apply app_nil_r.
  - intros a c b E. rewrite app_nil_r. apply H. exact E.
Qed.
End Scan.

(** *** The lazy star *)

Section Lazy.
Variables (f : flags) (k : state -> option state).

Lemma star_lazy_here p s g res :
  k {| prev := p; rest := s; cap := g |} = Some res ->
  star_lazy f k p s g = Some res.
Proof. intros H. destruct s; simpl; rewrite H; reflexivity. Qed.

(** The lazy star goes past every place where the rest of the pattern fails. *)
Lemma star_lazy_pass g y : forall t p,
  forallb (dot_ok f) t = true ->
  (forall a c b, t = a ++ c :: b ->
     k {| prev := last_unit p a; rest := c :: b ++ y; cap := g |} = None) ->
  star_lazy f k p (t ++ y) g = star_lazy f k (last_unit p t) y g.
Proof.
  induction t as [|c t IH]; intros p D H; [reflexivity|].
  simpl in D. apply andb_prop in D. destruct D as [Dc Dt].
  change ((c :: t) ++ y) with (c :: t ++ y). cbn [star_lazy].
  pose proof (H [] c t eq_refl) as H0. simpl in H0. rewrite H0, Dc.
  apply IH; [assumption|].
  intros a x b E. apply (H (c :: a) x b). rewrite E. reflexivity.
Qed.

(** The lazy star stops at the first place where the rest of the pattern
    succeeds. *)
Lemma star_lazy_first g res : forall s p,
  star_lazy f k p s g = Some res ->
  exists w t, s = w ++ t /\
    k {| prev := last_unit p w; rest := t; cap := g |} = Some res /\
    forall a c b, w = a ++ c :: b ->
      k {| prev := last_unit p a; rest := c :: b ++ t; cap := g |} = None.
Proof.
  induction s as [|c s IH]; intros p H; cbn [star_lazy] in H.
  - destruct (k {| prev := p; rest := []; cap := g |}) eqn:Hk; [|discriminate].
    exists [], []. split; [reflexivity|]. split; [simpl; congruence|].
    intros a x b E. destruct a; discriminate.
  - destruct (k {| prev := p; rest := c :: s; cap := g |}) eqn:Hk.
    + exists [], (c :: s). split; [reflexivity|]. split; [simpl; congruence|].
      intros a x b E. destruct a; discriminate.
    + destruct (dot_ok f c); [|discriminate].
      destruct (IH _ H) as (w & t & -> & Hw & Hmin).
      exists (c :: w), t. split; [reflexivity|]. split; [exact Hw|].
      intros a x b E. destruct a as [|y a].
      * inversion E; subst. exact Hk.
      * inversion E; subst. apply (Hmin a x b eq_refl).
Qed.
End Lazy.

(** Inversion of [Matches], one pattern constructor at a time. *)

Section Inversion.
Variable f : flags.

Lemma Matches_Eps_inv st st' : Matches f Eps st st' -> st' = st.
Proof. inversion 1; reflexivity. Qed.

Lemma Matches_Chr_inv c st st' :
  Matches f (Chr c) st st' ->
  exists t, rest st = c :: t /\
            st' = {| prev := Some c; rest := t; cap := cap st |}.
Proof. inversion 1; subst. eauto. Qed.

Lemma Matches_Star_inv g st st' :
  Matches f (Star g) st st' ->
  exists w t, rest st = w ++ t /\ forallb (dot_ok f) w = true /\
              st' = {| prev := last_unit (prev st) w; rest := t; cap := cap st |}.
Proof. inversion 1; subst. eauto 6. Qed.

Lemma Matches_Bol_inv st st' :
  Matches f Bol st st' -> at_bol f (prev st) = true /\ st' = st.
Proof. inversion 1; subst. auto. Qed.

Lemma Matches_Eol_inv st st' :
  Matches f Eol st st' -> at_eol f (rest st) = true /\ st' = st.
Proof. inversion 1; subst. auto. Qed.

Lemma Matches_Seq_inv r1 r2 st st' :
  Matches f (Seq r1 r2) st st' ->
  exists st1, Matches f r1 st st1 /\ Matches f r2 st1 st'.
Proof. inversion 1; subst. eauto. Qed.

Lemma Matches_Group_inv r st st' :
  Matches f (Group r) st st' ->
  exists st1, Matches f r st st1 /\
    st' = {| prev := prev st1; rest := rest st1;
             cap := Some (firstn (length (rest st) - length (rest st1)) (rest st)) |}.
Proof. inversion 1; subst. eauto. Qed.
End Inversion.

(** *** Literal words *)

Section Words.
Variable f : flags.

Lemma Matches_word : forall w st st',
  Matches f (word w) st st' -> rest st = w ++ rest st' /\ cap st' = cap st.
Proof.
  induction w as [|c w IH]; intros st st' M; simpl in M.
  - apply Matches_Eps_inv in M. subst. auto.
  - apply Matches_Seq_inv in M. destruct M as (st1 & M1 & M2).
    apply Matches_Chr_inv in M1. destruct M1 as (t & E & ->).
    apply IH in M2. simpl in M2. destruct M2 as [E1 E2].
    split; [|assumption]. rewrite E, E1. reflexivity.
Qed.

Lemma run_word : forall w k st s',
  rest st = w ++ s' ->
  run f (word w) k st
  = k {| prev := last_unit (prev st) w; rest := s'; cap := cap st |}.
Proof.
  induction w as [|c w IH]; intros k st s' E; simpl in *.
  - rewrite <- E. rewrite state_eta. reflexivity.
  - rewrite E, N.eqb_refl. rewrite (IH _ _ s'); reflexivity.
Qed.

Lemma exec_word_inv w p s g s' :
  exec f (word w) p s = Some (g, s') -> s = w ++ s' /\ g = [].
Proof.
  intros H. apply exec_sound in H. destruct H as (st' & M & <- & ->).
  apply Matches_word in M. simpl in M. destruct M as [E1 E2].
  rewrite E2. auto.
Qed.

Lemma exec_word w p s' : exec f (word w) p (w ++ s') = Some ([], s').
Proof. unfold exec. rewrite (run_word w Some _ s'); reflexivity. Qed.

(** Replacing a single code unit everywhere is a map over the input. *)
Lemma replace_unit c rep : forall s p,
  replace_scan f (word [c]) [Lit rep] 0 p s
  = flat_map (fun x => if (x =? c)%N then rep else [x]) s.
Proof.
  induction s as [|x s IH]; intros p.
  - apply replace_scan_end. destruct (exec f (word [c]) p []) as [[g s']|] eqn:H;
      [|reflexivity]. apply exec_word_inv in H. destruct H; discriminate.
  - cbn [flat_map]. destruct (N.eqb_spec x c) as [->|Hx].
    + rewrite (replace_scan_match f _ _ p c [] [] s (exec_word [c] p s)).
      simpl. rewrite app_nil_r. f_equal. apply IH.
    + rewrite replace_scan_copy.
      * simpl. f_equal. apply IH.
      * destruct (exec f (word [c]) p (x :: s)) as [[g s']|] eqn:H; [|reflexivity].
        apply exec_word_inv in H. destruct H as [H _]. inversion H. congruence.
Qed.
End Words.

End RegexFacts.
Import RegexFacts.
(** ** Facts about the formatter *)

Module FormatFacts.

Ltac minv :=
  repeat match goal with
  | H : Matches _ (Seq _ _) _ _ |- _ =>
      apply Matches_Seq_inv in H; destruct H as (? & ? & ?)
  | H : Matches _ (Chr _) _ _ |- _ =>
      apply Matches_Chr_inv in H; destruct H as (? & ? & ?); subst; cbn [rest prev cap] in *
  | H : Matches _ (Group _) _ _ |- _ =>
      apply Matches_Group_inv in H; destruct H as (? & ? & ?)
  | H : Matches _ (Star _) _ _ |- _ =>
      apply Matches_Star_inv in H; destruct H as (? & ? & ? & ? & ?); subst; cbn [rest prev cap] in *
  | H : Matches _ Bol _ _ |- _ =>
      apply Matches_Bol_inv in H; destruct H as (? & ?); subst; cbn [rest prev cap] in *
  | H : Matches _ Eol _ _ |- _ =>
      apply Matches_Eol_inv in H; destruct H as (? & ?); subst; cbn [rest prev cap] in *
  | H : Matches _ Eps _ _ |- _ =>
      apply Matches_Eps_inv in H; subst; cbn [rest prev cap] in *
  end.

(** The shape of a match of [/\*\*(.*?)\*\*/]. *)
Lemma exec_bold_inv p s g s' :
  exec flags_g re_bold p s = Some (g, s') ->
  s = [42; 42]%N ++ g ++ [42; 42]%N ++ s' /\
  forallb (fun c => negb (is_line_terminator c)) g = true.
Proof.
  intros H. apply exec_sound in H. destruct H as (st' & M & <- & ->).
  unfold re_bold in M. minv.
  subst. rewrite firstn_consumed. split; [reflexivity|assumption].
Qed.

(** The shape of a match of [/^\* (.*$)/m]: a whole line. *)
Lemma exec_item_inv p s g s' :
  exec flags_gm re_item p s = Some (g, s') ->
  at_bol flags_gm p = true /\ s = [42; 32]%N ++ g ++ s' /\
  forallb (fun c => negb (is_line_terminator c)) g = true /\
  at_eol flags_gm s' = true.
Proof.
  intros H. apply exec_sound in H. destruct H as (st' & M & <- & ->).
  unfold re_item in M. minv. subst. rewrite firstn_consumed. auto.
Qed.

(** The shape of a match of [/(<li>.*<\/li>)/s]. *)
Lemma exec_items_inv p s g s' :
  exec flags_gs re_items p s = Some (g, s') ->
  s = g ++ s' /\ exists m, g = js "<li>" ++ m ++ js "</li>".
Proof.
  intros H. apply exec_sound in H. destruct H as (st' & M & <- & ->).
  unfold re_items in M.
  apply Matches_Group_inv in M. destruct M as (st1 & M & ->).
  apply Matches_Seq_inv in M. destruct M as (st2 & Ma & M).
  apply Matches_Seq_inv in M. destruct M as (st3 & Ms & Mb).
  apply Matches_word in Ma. apply Matches_word in Mb.
  apply Matches_Star_inv in Ms. destruct Ms as (w & t & E & _ & ->).
  cbn [rest prev cap] in *. destruct Ma as [Ea _], Mb as [Eb _].
  assert (Es : s = (js "<li>" ++ w ++ js "</li>") ++ rest st1).
  { rewrite Ea, E, Eb. rewrite <- !app_assoc. reflexivity. }
  assert (Ec : firstn (length s - length (rest st1)) s = js "<li>" ++ w ++ js "</li>").
  { rewrite Es. apply firstn_consumed. }
  rewrite Ec. split; [exact Es|]. exists w. reflexivity.
Qed.

(** *** Text and tags *)

Lemma render_app a b : render (a ++ b) = render a ++ render b.
Proof. apply flat_map_app. Qed.

Lemma restricted_app a b :
  restricted_html a -> restricted_html b -> restricted_html (a ++ b).
Proof.
  intros (ta & Fa & ->) (tb & Fb & ->). exists (ta ++ tb). split.
  - apply Forall_app; auto.
  - symmetry. apply render_app.
Qed.

Lemma restricted_nil : restricted_html [].
Proof. exists []. split; [constructor|reflexivity]. Qed.

Lemma restricted_tag t : restricted_html (tag_text t).
Proof.
  exists [Tag t]. split; [repeat constructor|]. simpl. symmetry. apply app_nil_r.
Qed.

Lemma restricted_plain s :
  forallb (fun c => negb (is_angle c)) s = true -> restricted_html s.
Proof.
  induction s as [|c s IH]; simpl; intros H.
  - apply restricted_nil.
  - apply andb_prop in H. destruct H as [Hc Hs].
    apply (restricted_app [c] s); [|auto].
    exists [Text c]. split; [|reflexivity]. repeat constructor.
    simpl. destruct (is_angle c); [discriminate|reflexivity].
Qed.

Lemma tag_in_all t : In t all_tags.
Proof. destruct t; simpl; auto 10. Qed.

Lemma tag_inner_tl t c : In c (tl (tag_text t)) -> tag_inner c = true.
Proof.
  intros H. apply existsb_exists. exists t. split; [apply tag_in_all|].
  apply existsb_exists. exists c. split; [assumption|apply N.eqb_refl].
Qed.

Lemma tag_nonfinal_init t c : In c (removelast (tag_text t)) -> tag_nonfinal c = true.
Proof.
  intros H. apply existsb_exists. exists t. split; [apply tag_in_all|].
  apply existsb_exists. exists c. split; [assumption|apply N.eqb_refl].
Qed.

(** A place in front of a code unit that is not inside a tag is between
    two tokens. *)
Lemma split_before : forall toks a b,
  render toks = a ++ b ->
  match b with [] => True | c :: _ => tag_inner c = false end ->
  exists t1 t2, toks = t1 ++ t2 /\ a = render t1 /\ b = render t2.
Proof.
  induction toks as [|k toks IH]; intros a b E Hb.
  - simpl in E. symmetry in E. apply app_eq_nil in E. destruct E as [-> ->].
    exists [], []. auto.
  - destruct a as [|x a]; [exists [], (k :: toks); auto|].
    destruct k as [c|t]; simpl in E.
    + inversion E; subst. destruct (IH a b H1 Hb) as (t1 & t2 & -> & -> & ->).
      exists (Text x :: t1), t2. auto.
    + change (tag_text t ++ render toks = (x :: a) ++ b) in E.
      apply app_eq_app in E. destruct E as [l [[E1 E2]|[E1 E2]]].
      * destruct l as [|c l].
        -- exists [Tag t], toks. rewrite app_nil_r in E1. simpl app in E2.
           simpl. rewrite app_nil_r. auto.
        -- subst b. simpl in Hb.
           assert (tag_inner c = true).
           { apply (tag_inner_tl t). rewrite E1. simpl.
             apply in_or_app. right. left. reflexivity. }
           congruence.
      * destruct (IH l b E2 Hb) as (t1 & t2 & -> & -> & ->).
        exists (Tag t :: t1), t2. simpl. rewrite E1. auto.
Qed.

(** A place behind a code unit that no tag has before its end is between
    two tokens. *)
Lemma split_after : forall toks a b,
  render toks = a ++ b ->
  (a = [] \/ exists a0 c, a = a0 ++ [c] /\ tag_nonfinal c = false) ->
  exists t1 t2, toks = t1 ++ t2 /\ a = render t1 /\ b = render t2.
Proof.
  induction toks as [|k toks IH]; intros a b E Ha.
  - simpl in E. symmetry in E. apply app_eq_nil in E. destruct E as [-> ->].
    exists [], []. auto.
  - destruct a as [|x a]; [exists [], (k :: toks); auto|].
    destruct Ha as [Ha|(a0 & c0 & Ea & Hc)]; [discriminate|].
    destruct k as [c|t]; simpl in E.
    + inversion E; subst.
      assert (Ha : a = [] \/ exists a1 c1, a = a1 ++ [c1] /\ tag_nonfinal c1 = false).
      { destruct a0 as [|y a0]; simpl in Ea; inversion Ea; subst; [auto|].
        right. exists a0, c0. auto. }
      destruct (IH a b H1 Ha) as (t1 & t2 & -> & -> & ->).
      exists (Text x :: t1), t2. auto.
    + change (tag_text t ++ render toks = (x :: a) ++ b) in E.
      apply app_eq_app in E. destruct E as [l [[E1 E2]|[E1 E2]]].
      * destruct l as [|c l].
        -- exists [Tag t], toks. rewrite app_nil_r in E1. simpl app in E2.
           simpl. rewrite app_nil_r. auto.
        -- assert (tag_nonfinal c0 = true).
           { apply (tag_nonfinal_init t). rewrite E1, Ea.
             rewrite removelast_app by discriminate.
             apply in_or_app. left. apply in_or_app. right. left. reflexivity. }
           congruence.
      * assert (Hl : l = [] \/ exists a1 c1, l = a1 ++ [c1] /\ tag_nonfinal c1 = false).
        { destruct l as [|y l] using rev_ind; [auto|]. right.
          rewrite Ea, app_assoc in E1. apply app_inj_tail in E1.
          destruct E1 as [_ ->]. eauto. }
        destruct (IH l b E2 Hl) as (t1 & t2 & -> & -> & ->).
        exists (Tag t :: t1), t2. simpl. rewrite E1. auto.
Qed.

Lemma restricted_split_before a b :
  restricted_html (a ++ b) ->
  match b with [] => True | c :: _ => tag_inner c = false end ->
  restricted_html a /\ restricted_html b.
Proof.
  intros (toks & F & E) Hb. symmetry in E.
  destruct (split_before toks a b E Hb) as (t1 & t2 & -> & -> & ->).
  apply Forall_app in F. destruct F. split; eexists; eauto.
Qed.

Lemma restricted_split_after a c b :
  restricted_html ((a ++ [c]) ++ b) -> tag_nonfinal c = false ->
  restricted_html (a ++ [c]) /\ restricted_html b.
Proof.
  intros (toks & F & E) Hc. symmetry in E.
  destruct (split_after toks (a ++ [c]) b E) as (t1 & t2 & -> & -> & ->);
    [right; eauto|].
  apply Forall_app in F. destruct F. split; eexists; eauto.
Qed.

(** *** A replacement that keeps text and tags apart *)

Section Preservation.
Variables (f : flags) (r : regex) (tpl : list piece).

(** No match starts inside a tag. *)
Hypothesis match_start : forall p s g s',
  exec f r p s = Some (g, s') ->
  exists c t, s = c :: t /\ tag_inner c = false.

(** A match in restricted HTML is not empty, ends between two tokens and
    is replaced by restricted HTML. *)
Hypothesis match_step : forall p s g s',
  exec f r p s = Some (g, s') -> restricted_html s ->
  length s' < length s /\ restricted_html s' /\ restricted_html (subst tpl g).

Lemma replace_scan_restricted : forall n s p suf toks,
  length s <= n ->
  s = suf ++ render toks -> Forall token_ok toks ->
  Forall (fun c => tag_inner c = true) suf ->
  exists toks', Forall token_ok toks' /\
                replace_scan f r tpl 0 p s = suf ++ render toks'.
Proof.
  induction n as [|n IH]; intros s p suf toks L E F I.
  - destruct s; [|simpl in L; lia].
    symmetry in E. apply app_eq_nil in E. destruct E as [-> E].
    exists []. split; [constructor|]. apply replace_scan_end.
    destruct (exec f r p []) as [[g s']|] eqn:H; [|reflexivity].
    apply match_start in H. destruct H as (c & t & H & _). discriminate.
  - destruct s as [|c t].
    { symmetry in E. apply app_eq_nil in E. destruct E as [-> E].
      exists []. split; [constructor|]. apply replace_scan_end.
      destruct (exec f r p []) as [[g s']|] eqn:H; [|reflexivity].
      apply match_start in H. destruct H as (c & t & H & _). discriminate. }
    destruct (exec f r p (c :: t)) as [[g s']|] eqn:H.
    + (* a match *)
      destruct suf as [|x suf].
      * simpl in E.
        assert (R : restricted_html (c :: t)) by (exists toks; auto).
        destruct (match_step _ _ _ _ H R) as (Ls & Rs & Rg).
        destruct (replace_scan_behind f r tpl p (c :: t) g s' H Ls) as [p' ->].
        destruct Rs as (ts & Fs & Es). destruct Rg as (tg & Fg & Eg).
        destruct (IH s' p' [] ts) as (toks' & F' & E'); auto.
        { simpl in Ls, L. lia. }
        exists (tg ++ toks'). split; [apply Forall_app; auto|].
        rewrite E', Eg, render_app. reflexivity.
      * apply match_start in H. destruct H as (c0 & t0 & H & Hc).
        inversion H; subst. inversion E; subst. inversion I; subst. congruence.
    + (* no match: the code unit is copied *)
      rewrite (replace_scan_copy f r tpl p c t H).
      destruct suf as [|x suf].
      * simpl in E. destruct toks as [|k toks]; [discriminate|].
        inversion F as [|? ? Fk Ft]; subst.
        destruct k as [y|tg].
        -- simpl in E. inversion E; subst.
           destruct (IH (render toks) (Some y) [] toks) as (toks' & F' & E'); auto.
           { simpl in L. lia. }
           exists (Text y :: toks'). split; [constructor; auto|].
           simpl in E'. rewrite E'. reflexivity.
        -- assert (Ht : exists tl0, tag_text tg = c :: tl0 /\
                                   Forall (fun c => tag_inner c = true) tl0).
           { simpl in E. destruct (tag_text tg) as [|c1 tl0] eqn:Et.
             - destruct tg; discriminate.
             - inversion E; subst. exists tl0. split; [reflexivity|].
               apply Forall_forall. intros z Hz. apply (tag_inner_tl tg).
               rewrite Et. exact Hz. }
           destruct Ht as (tl0 & Et & Il).
           assert (E2 : t = tl0 ++ render toks).
           { simpl in E. rewrite Et in E. inversion E. reflexivity. }
           destruct (IH t (Some c) tl0 toks) as (toks' & F' & E'); auto.
           { simpl in L. lia. }
           exists (Tag tg :: toks'). split; [constructor; simpl; auto|].
           rewrite E'. simpl. rewrite Et. reflexivity.
      * inversion E; subst. inversion I; subst.
        destruct (IH (suf ++ render toks) (Some x) suf toks) as (toks' & F' & E'); auto.
        { simpl in L. lia. }
        exists toks'. split; [assumption|]. rewrite E'. reflexivity.
Qed.

Lemma replace_restricted s :
  restricted_html s -> restricted_html (replace f r tpl s).
Proof.
  intros (toks & F & E).
  destruct (replace_scan_restricted (length s) s None [] toks) as (toks' & F' & E');
    auto.
  exists toks'. split; [assumption|exact E'].
Qed.
End Preservation.

(** *** The steps of the formatter, one by one *)

Lemma restricted_behind c s :
  restricted_html (c :: s) -> tag_nonfinal c = false -> restricted_html s.
Proof.
  intros R Hc. apply (restricted_split_after [] c s); assumption.
Qed.

Lemma line_terminator_not_inner c :
  is_line_terminator c = true -> tag_inner c = false.
Proof.
  unfold is_line_terminator. intros H.
  repeat (apply orb_prop in H; destruct H as [H|H]);
    apply N.eqb_eq in H; subst; reflexivity.
Qed.

Lemma length_behind (a b : jstring) : a <> [] -> length b < length (a ++ b).
Proof. destruct a; [congruence|]. intros _. simpl. rewrite length_app. lia. Qed.

Lemma escape_replaces s :
  replace flags_g (word (js ">")) [Lit (js "&gt;")]
          (replace flags_g (word (js "<")) [Lit (js "&lt;")] s)
  = flat_map escape_unit s.
Proof.
  unfold replace.
  rewrite (replace_unit flags_g 62%N (js "&gt;")).
  rewrite (replace_unit flags_g 60%N (js "&lt;")).
  induction s as [|c s IH]; [reflexivity|].
  cbn [flat_map]. rewrite flat_map_app, IH. f_equal.
  unfold escape_unit. destruct (N.eqb_spec c 60) as [->|H]; [reflexivity|].
  simpl. rewrite app_nil_r. reflexivity.
Qed.

Lemma formatGeminiResponse_steps s :
  formatGeminiResponse s = markup (flat_map escape_unit s).
Proof. unfold formatGeminiResponse, markup. rewrite escape_replaces. reflexivity. Qed.

Lemma escape_no_angle s :
  forallb (fun c => negb (is_angle c)) (flat_map escape_unit s) = true.
Proof.
  induction s as [|c s IH]; [reflexivity|].
  cbn [flat_map]. rewrite forallb_app, IH, andb_true_r.
  unfold escape_unit.
  destruct (N.eqb_spec c 60); [reflexivity|].
  destruct (N.eqb_spec c 62); [reflexivity|].
  simpl. unfold is_angle.
  destruct (N.eqb_spec c 60); [contradiction|].
  destruct (N.eqb_spec c 62); [contradiction|]. reflexivity.
Qed.

Lemma bold_restricted s :
  restricted_html s ->
  restricted_html (replace flags_g re_bold
                     [Lit (js "<strong>"); Group1; Lit (js "</strong>")] s).
Proof.
  apply replace_restricted.
  - intros p x g x' H. apply exec_bold_inv in H. destruct H as [-> _].
    do 2 eexists. split; reflexivity.
  - intros p x g x' H R. apply exec_bold_inv in H. destruct H as [-> _].
    split; [rewrite !length_app; simpl; lia|].
    assert (R1 : restricted_html (([42; 42]%N ++ g) ++ [42; 42]%N ++ x')).
    { rewrite <- app_assoc. exact R. }
    apply restricted_split_before in R1; [|reflexivity]. destruct R1 as [Rg Rx].
    split.
    + apply (restricted_behind 42), (restricted_behind 42) in Rx; auto.
    + apply (restricted_behind 42), (restricted_behind 42) in Rg; auto.
      apply (restricted_app (tag_text Strong)); [apply restricted_tag|].
      apply restricted_app; [assumption|].
      apply (restricted_app (tag_text StrongEnd) []);
        [apply restricted_tag|apply restricted_nil].
Qed.

Lemma item_restricted s :
  restricted_html s ->
  restricted_html (replace flags_gm re_item
                     [Lit (js "<li>"); Group1; Lit (js "</li>")] s).
Proof.
  apply replace_restricted.
  - intros p x g x' H. apply exec_item_inv in H. destruct H as (_ & -> & _).
    do 2 eexists. split; reflexivity.
  - intros p x g x' H R. apply exec_item_inv in H.
    destruct H as (_ & -> & _ & He).
    split; [rewrite !length_app; simpl; lia|].
    assert (R1 : restricted_html (([42; 32]%N ++ g) ++ x')).
    { rewrite <- app_assoc. exact R. }
    apply restricted_split_before in R1.
    + destruct R1 as [Rg Rx]. split; [assumption|].
      apply (restricted_behind 42), (restricted_behind 32) in Rg; auto.
      apply (restricted_app (tag_text Li)); [apply restricted_tag|].
      apply restricted_app; [assumption|].
      apply (restricted_app (tag_text LiEnd) []);
        [apply restricted_tag|apply restricted_nil].
    + destruct x' as [|c x']; [exact I|]. simpl in He.
      apply line_terminator_not_inner. exact He.
Qed.

Lemma items_restricted s :
  restricted_html s ->
  restricted_html (replace flags_gs re_items
                     [Lit (js "<ul>"); Group1; Lit (js "</ul>")] s).
Proof.
  apply replace_restricted.
  - intros p x g x' H. apply exec_items_inv in H. destruct H as (-> & m & ->).
    do 2 eexists. split; reflexivity.
  - intros p x g x' H R. apply exec_items_inv in H. destruct H as (-> & m & ->).
    split; [rewrite !length_app; simpl; lia|].
    assert (E : js "<li>" ++ m ++ js "</li>"
                = (js "<li>" ++ m ++ js "</li") ++ [62%N]).
    { rewrite <- !app_assoc. reflexivity. }
    rewrite E in R. apply restricted_split_after in R; [|reflexivity].
    rewrite <- E in R. destruct R as [Rg Rx]. split; [assumption|].
    apply (restricted_app (tag_text Ul)); [apply restricted_tag|].
    apply restricted_app; [assumption|].
    apply (restricted_app (tag_text UlEnd) []);
      [apply restricted_tag|apply restricted_nil].
Qed.

(** Replacing a literal that starts and ends as tags do. *)
Lemma word_restricted c0 w0 w1 c1 rep s :
  c0 :: w0 = w1 ++ [c1] ->
  tag_inner c0 = false -> tag_nonfinal c1 = false ->
  restricted_html rep ->
  restricted_html s ->
  restricted_html (replace flags_g (word (c0 :: w0)) [Lit rep] s).
Proof.
  intros Ew H0 H1 Rr. apply replace_restricted.
  - intros p x g x' H. apply exec_word_inv in H. destruct H as [-> _].
    do 2 eexists. split; [reflexivity|assumption].
  - intros p x g x' H R. apply exec_word_inv in H. destruct H as [-> _].
    split; [rewrite !length_app; simpl; lia|].
    rewrite Ew in R. apply restricted_split_after in R; [|assumption].
    destruct R as [_ Rx]. split; [assumption|].
    simpl. rewrite app_nil_r. assumption.
Qed.

Lemma markup_restricted s : restricted_html s -> restricted_html (markup s).
Proof.
  intros R. unfold markup.
  apply (word_restricted 60%N (tl (js "</ul><br>")) (removelast (js "</ul><br>")) 62%N);
    [reflexivity|reflexivity|reflexivity|apply (restricted_tag UlEnd)|].
  apply (word_restricted 60%N (tl (js "<br><ul>")) (removelast (js "<br><ul>")) 62%N);
    [reflexivity|reflexivity|reflexivity|apply (restricted_tag Ul)|].
  apply (word_restricted 10%N [] [] 10%N);
    [reflexivity|reflexivity|reflexivity|apply (restricted_tag Br)|].
  apply items_restricted, item_restricted, bold_restricted, R.
Qed.

Lemma formatGeminiResponse_restricted s : restricted_html (formatGeminiResponse s).
Proof.
  rewrite formatGeminiResponse_steps.
  apply markup_restricted, restricted_plain, escape_no_angle.
Qed.

(** *** Steps that find nothing to replace *)

Tactic Notation "no_match" constr(inv) "as" simple_intropattern(pat) :=
  match goal with
  | |- exec ?f ?r ?p ?s = None =>
      let H := fresh in
      destruct (exec f r p s) as [[? ?]|] eqn:H;
      [exfalso; apply inv in H; destruct H as pat|reflexivity]
  end.

Lemma escape_id s : no_angle s -> flat_map escape_unit s = s.
Proof.
  unfold no_angle. induction s as [|c s IH]; [reflexivity|].
  simpl. intros H. apply andb_prop in H. destruct H as [Hc Hs].
  rewrite (IH Hs). unfold escape_unit, is_angle in *.
  destruct (c =? 60)%N; [discriminate|]. destruct (c =? 62)%N; [discriminate|].
  reflexivity.
Qed.

Lemma no_angle_app a b : no_angle (a ++ b) -> no_angle a /\ no_angle b.
Proof. unfold no_angle. rewrite forallb_app. apply andb_prop. Qed.

Lemma no_angle_lt a b : no_angle (a ++ 60%N :: b) -> False.
Proof. intros H. apply no_angle_app in H. destruct H as [_ H]. discriminate. Qed.

Lemma bold_id s tpl : ~ bold_pair s -> replace flags_g re_bold tpl s = s.
Proof.
  intros N. apply replace_scan_id. intros a b E. no_match exec_bold_inv as [-> _].
  apply N. do 3 eexists. exact E.
Qed.

Lemma at_bol_line_start a :
  at_bol flags_gm (last_unit None a) = true -> line_start a.
Proof.
  destruct (last_unit None a) as [c|] eqn:E; simpl.
  - intros H. apply last_unit_line_start in E. destruct E as [a0 ->].
    right. eauto.
  - intros _. left. destruct a as [|c a] using rev_ind; [reflexivity|].
    rewrite last_unit_snoc in E. discriminate.
Qed.

Lemma item_id s tpl : ~ item_line s -> replace flags_gm re_item tpl s = s.
Proof.
  intros N. apply replace_scan_id. intros a b E.
  no_match exec_item_inv as (Hb & -> & _).
  apply N. exists a. eexists.
  split; [apply at_bol_line_start, Hb|rewrite E; reflexivity].
Qed.

Lemma items_id s tpl : no_angle s -> replace flags_gs re_items tpl s = s.
Proof.
  intros N. apply replace_scan_id. intros a b E.
  no_match exec_items_inv as (-> & m & ->).
  subst s. exact (no_angle_lt _ _ N).
Qed.

Lemma word_id c w tpl s :
  ~ In c s -> replace flags_g (word (c :: w)) tpl s = s.
Proof.
  intros N. apply replace_scan_id. intros a b E.
  no_match (exec_word_inv flags_g (c :: w)) as [-> _].
  apply N. rewrite E. apply in_or_app. right. left. reflexivity.
Qed.

Lemma no_angle_not_in s : no_angle s -> ~ In 60%N s.
Proof.
  intros N H. apply in_split in H. destruct H as (a & b & ->).
  exact (no_angle_lt _ _ N).
Qed.

Lemma formatGeminiResponse_id s :
  no_angle s -> ~ bold_pair s -> ~ item_line s -> ~ In 10%N s ->
  formatGeminiResponse s = s.
Proof.
  intros Ha Hb Hi Hn. rewrite formatGeminiResponse_steps, (escape_id s Ha).
  unfold markup. rewrite (bold_id s _ Hb), (item_id s _ Hi), (items_id s _ Ha).
  rewrite (word_id 10%N [] _ s Hn).
  rewrite (word_id 60%N (tl (js "<br><ul>")) _ s (no_angle_not_in s Ha)).
  apply (word_id 60%N (tl (js "</ul><br>")) _ s (no_angle_not_in s Ha)).
Qed.

(** *** Bold pairs *)

Lemma plain_app a b : plain (a ++ b) <-> plain a /\ plain b.
Proof.
  unfold plain. rewrite forallb_app. split.
  - apply andb_prop.
  - intros [-> ->]. reflexivity.
Qed.

Lemma plain_unit_spec c :
  plain_unit c = true ->
  c <> 42%N /\ c <> 60%N /\ c <> 62%N /\ c <> 10%N /\ is_line_terminator c = false.
Proof.
  unfold plain_unit, is_angle. intros H.
  apply andb_prop in H. destruct H as [H H3].
  apply andb_prop in H. destruct H as [H1 H2].
  apply negb_true_iff in H1, H2, H3. apply orb_false_iff in H1. destruct H1 as [H0 H1].
  apply N.eqb_neq in H0, H1, H2. repeat split; try assumption.
  intros ->. discriminate.
Qed.

Lemma plain_in s c : plain s -> In c s -> plain_unit c = true.
Proof. unfold plain. rewrite forallb_forall. auto. Qed.

(** A pair around plain text is matched whole. *)
Lemma exec_bold_pair p t x :
  plain t ->
  exec flags_g re_bold p (js "**" ++ t ++ js "**" ++ x) = Some (t, x).
Proof.
  intros P. unfold exec, re_bold. change (js "**") with [42; 42]%N.
  cbn [run rest prev cap app]. rewrite N.eqb_refl.
  rewrite star_lazy_pass.
  - erewrite star_lazy_here
      by (cbn [rest]; rewrite !N.eqb_refl; cbn [rest];
          rewrite firstn_consumed; reflexivity).
    reflexivity.
  - apply forallb_forall. intros c Hc. apply (plain_in t c P) in Hc.
    apply plain_unit_spec in Hc. destruct Hc as (_ & _ & _ & _ & Hc).
    unfold dot_ok. rewrite Hc. reflexivity.
  - intros a c b E. cbn [rest].
    assert (Hc : plain_unit c = true).
    { apply (plain_in t c P). rewrite E. apply in_or_app. right. left. reflexivity. }
    apply plain_unit_spec in Hc. destruct Hc as (Hc & _).
    apply N.eqb_neq in Hc. rewrite Hc. reflexivity.
Qed.

Lemma exec_bold_head p c u : c <> 42%N -> exec flags_g re_bold p (c :: u) = None.
Proof.
  intros Hc. no_match exec_bold_inv as [E _]. inversion E. congruence.
Qed.

Lemma exec_bold_nil p : exec flags_g re_bold p [] = None.
Proof. no_match exec_bold_inv as [E _]. discriminate. Qed.

Lemma bold_pass t p x :
  plain t ->
  replace_scan flags_g re_bold bold_tpl 0 p (t ++ x)
  = t ++ replace_scan flags_g re_bold bold_tpl 0 (last_unit p t) x.
Proof.
  intros P. apply replace_scan_pass. intros a c b E. apply exec_bold_head.
  assert (Hc : plain_unit c = true).
  { apply (plain_in t c P). rewrite E. apply in_or_app. right. left. reflexivity. }
  apply plain_unit_spec in Hc. tauto.
Qed.

(** The bold step turns the source of the segments into their HTML. *)
Lemma bold_segments : forall segs p,
  Forall (fun g => plain (segment_text g)) segs ->
  replace_scan flags_g re_bold bold_tpl 0 p (flat_map segment_source segs)
  = flat_map segment_html segs.
Proof.
  induction segs as [|g segs IH]; intros p F.
  - apply replace_scan_end, exec_bold_nil.
  - inversion F as [|? ? Pg Fs]; subst. cbn [flat_map].
    destruct g as [t|t]; cbn [segment_source segment_html segment_text] in *.
    + rewrite (bold_pass t p _ Pg). f_equal. apply IH, Fs.
    + rewrite <- !app_assoc.
      destruct (replace_scan_behind flags_g re_bold bold_tpl p _ t
                  (flat_map segment_source segs)
                  (exec_bold_pair p t _ Pg)) as [p' ->].
      * rewrite !length_app. simpl. lia.
      * rewrite (IH p' Fs). unfold subst, bold_tpl. cbn [flat_map].
        rewrite app_nil_r, <- !app_assoc. reflexivity.
Qed.

(** *** Steps that leave bold text alone *)

Section Inert.
Variables (f : flags) (r : regex) (tpl : list piece).

Hypothesis none_nil : forall p, exec f r p [] = None.
Hypothesis none_head : forall p c u,
  c <> 42%N -> c <> 60%N -> c <> 10%N -> exec f r p (c :: u) = None.
Hypothesis none_open : forall p u, exec f r p (60 :: 115 :: u)%N = None.
Hypothesis none_close : forall p u, exec f r p (60 :: 47 :: 115 :: u)%N = None.

Lemma inert_plain t p x :
  plain t ->
  replace_scan f r tpl 0 p (t ++ x)
  = t ++ replace_scan f r tpl 0 (last_unit p t) x.
Proof.
  intros P. apply replace_scan_pass. intros a c b E.
  assert (Hc : plain_unit c = true).
  { apply (plain_in t c P). rewrite E. apply in_or_app. right. left. reflexivity. }
  apply plain_unit_spec in Hc. apply none_head; tauto.
Qed.

Lemma inert_open p x :
  replace_scan f r tpl 0 p (js "<strong>" ++ x)
  = js "<strong>" ++ replace_scan f r tpl 0 (Some 62%N) x.
Proof.
  change (js "<strong>") with [60; 115; 116; 114; 111; 110; 103; 62]%N.
  cbn [app]. rewrite replace_scan_copy by apply none_open.
  do 7 (rewrite replace_scan_copy by (apply none_head; discriminate)).
  reflexivity.
Qed.

Lemma inert_close p x :
  replace_scan f r tpl 0 p (js "</strong>" ++ x)
  = js "</strong>" ++ replace_scan f r tpl 0 (Some 62%N) x.
Proof.
  change (js "</strong>") with [60; 47; 115; 116; 114; 111; 110; 103; 62]%N.
  cbn [app]. rewrite replace_scan_copy by apply none_close.
  do 8 (rewrite replace_scan_copy by (apply none_head; discriminate)).
  reflexivity.
Qed.

Lemma inert_segments : forall segs p,
  Forall (fun g => plain (segment_text g)) segs ->
  replace_scan f r tpl 0 p (flat_map segment_html segs)
  = flat_map segment_html segs.
Proof.
  induction segs as [|g segs IH]; intros p F.
  - apply replace_scan_end, none_nil.
  - inversion F as [|? ? Pg Fs]; subst. cbn [flat_map].
    destruct g as [t|t]; cbn [segment_source segment_html segment_text] in *.
    + rewrite (inert_plain t p _ Pg). f_equal. apply IH, Fs.
    + rewrite <- !app_assoc. rewrite inert_open, (inert_plain t _ _ Pg), inert_close.
      rewrite (IH _ Fs). reflexivity.
Qed.
End Inert.

Lemma item_inert tpl segs p :
  Forall (fun g => plain (segment_text g)) segs ->
  replace_scan flags_gm re_item tpl 0 p (flat_map segment_html segs)
  = flat_map segment_html segs.
Proof.
  apply inert_segments; intros; no_match exec_item_inv as (_ & E & _);
    inversion E; congruence.
Qed.

Lemma items_inert tpl segs p :
  Forall (fun g => plain (segment_text g)) segs ->
  replace_scan flags_gs re_items tpl 0 p (flat_map segment_html segs)
  = flat_map segment_html segs.
Proof.
  apply inert_segments; intros; no_match exec_items_inv as (E & m & ->);
    inversion E; congruence.
Qed.

Lemma word_inert c w tpl segs p :
  (forall u, ~ exists v, (60 :: 115 :: u)%N = (c :: w) ++ v) ->
  (forall u, ~ exists v, (60 :: 47 :: 115 :: u)%N = (c :: w) ++ v) ->
  (c = 42 \/ c = 60 \/ c = 10)%N ->
  Forall (fun g => plain (segment_text g)) segs ->
  replace_scan flags_g (word (c :: w)) tpl 0 p (flat_map segment_html segs)
  = flat_map segment_html segs.
Proof.
  intros Ho Hc Hh.
  apply inert_segments; intros; no_match (exec_word_inv flags_g (c :: w)) as (E & _).
  - discriminate.
  - inversion E. subst. destruct Hh as [Hh|[Hh|Hh]]; congruence.
  - apply (Ho u). eauto.
  - apply (Hc u). eauto.
Qed.

Lemma segments_no_angle segs :
  Forall (fun g => plain (segment_text g)) segs ->
  no_angle (flat_map segment_source segs).
Proof.
  assert (P : forall t, plain t -> no_angle t).
  { intros t. unfold plain, no_angle. rewrite !forallb_forall. intros H c Hc.
    apply H, plain_unit_spec in Hc. unfold is_angle.
    destruct Hc as (_ & H1 & H2 & _). apply N.eqb_neq in H1, H2.
    rewrite H1, H2. reflexivity. }
  induction 1 as [|g segs Pg _ IH]; [reflexivity|].
  cbn [flat_map]. unfold no_angle in *. rewrite forallb_app, IH, andb_true_r.
  destruct g as [t|t]; cbn [segment_source segment_text] in *.
  - apply P, Pg.
  - rewrite !forallb_app, (P t Pg). reflexivity.
Qed.

Lemma formatGeminiResponse_segments segs :
  Forall (fun g => plain (segment_text g)) segs ->
  formatGeminiResponse (flat_map segment_source segs) = flat_map segment_html segs.
Proof.
  intros F. rewrite formatGeminiResponse_steps, (escape_id _ (segments_no_angle segs F)).
  unfold markup, replace. fold bold_tpl. rewrite (bold_segments segs None F).
  rewrite (item_inert _ segs None F), (items_inert _ segs None F).
  rewrite (word_inert 10%N [] _ segs None); auto;
    try (intros u [v E]; discriminate).
  rewrite (word_inert 60%N (tl (js "<br><ul>")) _ segs None); auto;
    try (intros u [v E]; discriminate).
  apply (word_inert 60%N (tl (js "</ul><br>")) _ segs None); auto;
    try (intros u [v E]; discriminate).
Qed.

(** *** A pair that is not closed *)

Lemma plain_no_star t a b : plain t -> t <> a ++ 42%N :: b.
Proof.
  intros P E.
  assert (Hc : plain_unit 42%N = true).
  { apply (plain_in t _ P). rewrite E. apply in_or_app. right. left. reflexivity. }
  discriminate.
Qed.

Lemma plain_no_angle t : plain t -> no_angle t.
Proof.
  unfold plain, no_angle. rewrite !forallb_forall. intros H c Hc.
  apply H, plain_unit_spec in Hc. unfold is_angle.
  destruct Hc as (_ & H1 & H2 & _). apply N.eqb_neq in H1, H2.
  rewrite H1, H2. reflexivity.
Qed.

Lemma plain_no_newline t : plain t -> ~ In 10%N t.
Proof. intros P H. apply (plain_in t _ P) in H. discriminate. Qed.

Lemma scan_plain_end f r tpl t p :
  (forall p, exec f r p [] = None) ->
  (forall p c u, c <> 42%N -> exec f r p (c :: u) = None) ->
  plain t -> replace_scan f r tpl 0 p t = t.
Proof.
  intros Hn Hh P. apply replace_scan_id. intros a b E.
  destruct b as [|c b]; [apply Hn|]. apply Hh. intros ->.
  exact (plain_no_star t a b P E).
Qed.

Lemma exec_item_head p c u : c <> 42%N -> exec flags_gm re_item p (c :: u) = None.
Proof.
  intros Hc. no_match exec_item_inv as (_ & E & _). inversion E. congruence.
Qed.

Lemma exec_item_nil p : exec flags_gm re_item p [] = None.
Proof. no_match exec_item_inv as (_ & E & _). discriminate. Qed.

Lemma bold_unclosed p q :
  plain p -> plain q ->
  replace flags_g re_bold bold_tpl (p ++ js "**" ++ q) = p ++ js "**" ++ q.
Proof.
  intros Pp Pq. unfold replace. rewrite (bold_pass p None _ Pp). f_equal.
  change (js "**" ++ q) with (42 :: 42 :: q)%N.
  rewrite replace_scan_copy.
  - rewrite replace_scan_copy.
    + do 2 f_equal. apply scan_plain_end;
        [apply exec_bold_nil|apply exec_bold_head|exact Pq].
    + no_match exec_bold_inv as [E _]. inversion E.
      exact (plain_no_star q [] _ Pq H0).
  - no_match exec_bold_inv as [E _]. inversion E.
    exact (plain_no_star q _ _ Pq H0).
Qed.

Lemma item_unclosed tpl p q :
  plain p -> plain q ->
  replace flags_gm re_item tpl (p ++ js "**" ++ q) = p ++ js "**" ++ q.
Proof.
  intros Pp Pq. unfold replace. rewrite replace_scan_pass.
  - f_equal. change (js "**" ++ q) with (42 :: 42 :: q)%N.
    rewrite replace_scan_copy.
    + rewrite replace_scan_copy.
      * do 2 f_equal. apply scan_plain_end;
          [apply exec_item_nil|apply exec_item_head|exact Pq].
      * no_match exec_item_inv as (Hb & _). discriminate.
    + no_match exec_item_inv as (_ & E & _). discriminate.
  - intros a c b E. apply exec_item_head. intros ->.
    exact (plain_no_star p a b Pp E).
Qed.

Lemma formatGeminiResponse_unclosed p q :
  plain p -> plain q ->
  formatGeminiResponse (p ++ js "**" ++ q) = p ++ js "**" ++ q.
Proof.
  intros Pp Pq.
  assert (Ha : no_angle (p ++ js "**" ++ q)).
  { unfold no_angle. rewrite !forallb_app.
    rewrite (plain_no_angle p Pp), (plain_no_angle q Pq). reflexivity. }
  assert (Hn : ~ In 10%N (p ++ js "**" ++ q)).
  { intros H. apply in_app_or in H. destruct H as [H|H];
      [exact (plain_no_newline p Pp H)|].
    apply in_app_or in H. destruct H as [H|H];
      [simpl in H; intuition discriminate|exact (plain_no_newline q Pq H)]. }
  rewrite formatGeminiResponse_steps, (escape_id _ Ha). unfold markup.
  fold bold_tpl. rewrite (bold_unclosed p q Pp Pq), (item_unclosed _ p q Pp Pq).
  rewrite (items_id _ _ Ha), (word_id 10%N [] _ _ Hn).
  rewrite (word_id 60%N (tl (js "<br><ul>")) _ _ (no_angle_not_in _ Ha)).
  apply (word_id 60%N (tl (js "</ul><br>")) _ _ (no_angle_not_in _ Ha)).
Qed.

(** *** The nearest closing pair *)

(** A match of the bold pattern ends at the first [**] behind its opening
    one: no [**] lies in the capture or across its end. *)
Lemma exec_bold_nearest p s g s' :
  exec flags_g re_bold p s = Some (g, s') ->
  forall a b, g ++ [42%N] <> a ++ js "**" ++ b.
Proof.
  unfold exec, re_bold. cbn [run rest prev cap].
  destruct s as [|c1 [|c2 s2]]; try discriminate.
  - destruct (c1 =? 42)%N; discriminate.
  - destruct (c1 =? 42)%N; [|discriminate]. destruct (c2 =? 42)%N; [|discriminate].
    match goal with
    | |- match star_lazy _ ?k _ _ _ with _ => _ end = _ -> _ =>
        destruct (star_lazy flags_g k (Some c2) s2 None) as [st|] eqn:H;
          [|discriminate]
    end.
    apply star_lazy_first in H. destruct H as (w & t & -> & Hk & Hmin).
    cbn [rest] in Hk, Hmin.
    destruct t as [|x1 [|x2 t]]; try discriminate;
      try (destruct (x1 =? 42)%N; discriminate).
    destruct (N.eqb_spec x1 42) as [->|]; [|discriminate].
    destruct (N.eqb_spec x2 42) as [->|]; [|discriminate].
    inversion Hk; subst st; clear Hk. cbn [cap rest].
    rewrite firstn_consumed. intros E a b Eg. inversion E; subst g s'; clear E.
    assert (Split : exists w2 b2, w = a ++ 42%N :: w2 /\ w2 ++ [42%N] = 42%N :: b2).
    { change (js "**" ++ b) with (42 :: 42 :: b)%N in Eg.
      destruct b as [|y b] using rev_ind.
      - change (a ++ [42; 42]%N) with (a ++ [42%N] ++ [42%N]) in Eg.
        rewrite app_assoc in Eg. apply app_inj_tail in Eg. destruct Eg as [-> _].
        exists [], []. split; reflexivity.
      - change (a ++ 42 :: 42 :: b ++ [y])%N
          with (a ++ (42 :: 42 :: b) ++ [y])%N in Eg.
        rewrite app_assoc in Eg. apply app_inj_tail in Eg. destruct Eg as [-> <-].
        exists (42%N :: b), (b ++ [42%N]). split; reflexivity. }
    destruct Split as (w2 & b2 & -> & E2).
    specialize (Hmin a 42%N w2 eq_refl). cbn [rest] in Hmin.
    destruct w2 as [|z w2]; cbn [app] in Hmin, E2.
    + discriminate.
    + inversion E2; subst z. discriminate.
Qed.

End FormatFacts.
(** ** Facts about the handler *)

Module HandlerFacts.

Lemma trim_start_blank s :
  forallb is_trimmed_unit s = true -> trim_start s = [].
Proof.
  induction s as [|c s IH]; [reflexivity|]. simpl. intros H.
  apply andb_prop in H. destruct H as [-> Hs]. auto.
Qed.

Lemma trim_blank s : forallb is_trimmed_unit s = true -> trim s = [].
Proof. intros H. unfold trim. rewrite (trim_start_blank s H). reflexivity. Qed.

Lemma trim_start_nil s : trim_start s = [] -> forallb is_trimmed_unit s = true.
Proof.
  induction s as [|c s IH]; [reflexivity|]. simpl.
  destruct (is_trimmed_unit c); [exact IH|discriminate].
Qed.

Lemma trim_start_suffix s : exists a, s = a ++ trim_start s /\ forallb is_trimmed_unit a = true.
Proof.
  induction s as [|c s (a & E & H)]; [exists []; auto|]. simpl.
  destruct (is_trimmed_unit c) eqn:Hc.
  - exists (c :: a). simpl. rewrite Hc, H, <- E. auto.
  - exists []. auto.
Qed.

(** [trim] leaves nothing exactly of blank strings. *)
Lemma trim_nil s : trim s = [] <-> forallb is_trimmed_unit s = true.
Proof.
  split; [|apply trim_blank]. unfold trim. intros H.
  apply (f_equal (@rev N)) in H. rewrite rev_involutive in H. simpl in H.
  apply trim_start_nil in H.
  assert (H' : forallb is_trimmed_unit (trim_start s) = true).
  { apply forallb_forall. intros x Hx. rewrite forallb_forall in H.
    apply H, in_rev. rewrite rev_involutive. exact Hx. }
  destruct (trim_start_suffix s) as (a & E & Ha).
  rewrite E, forallb_app, Ha, H'. reflexivity.
Qed.

Lemma assign_last l x by_ c :
  assign (length l) by_ c (l ++ [x])
  = l ++ [{| classList := classList x; assigned_by := by_; content := c |}].
Proof. induction l as [|y l IH]; simpl; [reflexivity|]. rewrite IH. reflexivity. Qed.

(** The handler up to its request, on a message that is not blank. *)
Lemma submit_begin_sent pg c t :
  trim (input_value pg) = c :: t ->
  let msg := trim (input_value pg) in
  let n := length (chatBox pg) in
  submit_begin pg =
  ({| input_value := [];
      chatBox := (chatBox pg ++ [message_element "user" InnerHTML msg])
                 ++ [message_element "bot" InnerHTML thinking_text];
      trace := trace pg ++
               [PreventDefault; SetInnerHTML n msg; AppendChild n; ScrollToBottom;
                SetInputValue []; SetInnerHTML (S n) thinking_text;
                AppendChild (S n); ScrollToBottom; Fetch (chat_request msg)] |},
   Some (S n)).
Proof.
  intros E msg n. unfold submit_begin. cbn [emit input_value]. fold msg.
  unfold msg at 1. rewrite E. unfold appendMessage, emit.
  cbn [input_value chatBox trace]. rewrite length_app. cbn [length].
  fold n. rewrite Nat.add_1_r. rewrite <- !app_assoc. reflexivity.
Qed.

(** The three ways the [try] block can end. *)
Lemma submit_try_cases rt r :
  (exists status data text,
      r = Response status (Parsed data) /\ ok status = true /\
      get data (js "result") = Some (JStr text) /\ text <> [] /\
      forall el pg, submit_try rt el r pg
                    = inl (set_innerHTML el (formatGeminiResponse text) pg))
  \/ (forall el pg, submit_try rt el r pg
                     = inl (set_textContent el no_response_text pg))
  \/ (exists m, forall el pg, submit_try rt el r pg = inr m).
Proof.
  destruct r as [m|status b].
  - right. right. exists m. reflexivity.
  - unfold submit_try. destruct (ok status) eqn:Hok; cbn [negb].
    + destruct b as [data|m]; [|right; right; exists m; reflexivity].
      destruct (truthy data) eqn:Td.
      * destruct (get data (js "result")) as [v|] eqn:G; [|right; left; reflexivity].
        destruct (truthy v) eqn:Tv; [|right; left; reflexivity].
        destruct v as [ |b|nz tx|text|items|fields];
          try (right; right; eexists; reflexivity).
        left. exists status, data, text. repeat split; auto.
        intros ->. discriminate.
      * cbn [truthy]. rewrite Td. right. left. reflexivity.
    + right. right.
      match goal with
      | |- exists m, forall el pg, match ?x with _ => _ end = _ =>
          destruct x as [m|]; eexists; reflexivity
      end.
Qed.

Lemma skipn_app_exact {A} (a b : list A) : skipn (length a) (a ++ b) = b.
Proof. induction a; simpl; auto. Qed.

(** One submission of a message that is not blank: the page behind it. *)
Lemma submit_sent rt r pg c t :
  trim (input_value pg) = c :: t ->
  let msg := trim (input_value pg) in
  let n := length (chatBox pg) in
  exists final_el final_eff,
    submit rt r pg =
    {| input_value := [];
       chatBox := chatBox pg ++ [message_element "user" InnerHTML msg; final_el];
       trace := trace pg ++ sent_effects n msg ++ final_eff ++ [ScrollToBottom] |} /\
    ((exists status data text,
        r = Response status (Parsed data) /\ ok status = true /\
        get data (js "result") = Some (JStr text) /\ text <> [] /\
        (forall el pg', submit_try rt el r pg'
                        = inl (set_innerHTML el (formatGeminiResponse text) pg')) /\
        final_el = message_element "bot" InnerHTML (formatGeminiResponse text) /\
        final_eff = [SetInnerHTML (S n) (formatGeminiResponse text)])
     \/ ((forall el pg', submit_try rt el r pg'
                          = inl (set_textContent el no_response_text pg')) /\
         final_el = message_element "bot" TextContent no_response_text /\
         final_eff = [SetTextContent (S n) no_response_text])
     \/ (exists m,
           (forall el pg', submit_try rt el r pg' = inr m) /\
           final_el = message_element "bot" TextContent (failure_prefix ++ m) /\
           final_eff = [ConsoleError m; SetTextContent (S n) (failure_prefix ++ m)])).
Proof.
  intros E msg n. unfold submit. rewrite (submit_begin_sent pg c t E).
  fold msg. fold n. unfold submit_resume.
  assert (Ln : S n = length (chatBox pg ++ [message_element "user" InnerHTML msg])).
  { rewrite length_app. simpl. unfold n. lia. }
  assert (Page : forall by_ x eff,
    {| input_value := [];
       chatBox := assign (S n) by_ x
                    ((chatBox pg ++ [message_element "user" InnerHTML msg])
                     ++ [message_element "bot" InnerHTML thinking_text]);
       trace := ((trace pg ++ sent_effects n msg) ++ eff) ++ [ScrollToBottom] |}
    = {| input_value := [];
         chatBox := chatBox pg ++ [message_element "user" InnerHTML msg;
                                   message_element "bot" by_ x];
         trace := trace pg ++ sent_effects n msg ++ eff ++ [ScrollToBottom] |}).
  { intros by_ x eff. rewrite Ln, assign_last, <- !app_assoc. reflexivity. }
  destruct (submit_try_cases rt r)
    as [(status & data & text & Er & Hok & G & Ht & H)|[H|(m & H)]]; rewrite H.
  - exists (message_element "bot" InnerHTML (formatGeminiResponse text)),
           [SetInnerHTML (S n) (formatGeminiResponse text)].
    split; [apply Page|]. left. exists status, data, text. repeat split; auto.
  - exists (message_element "bot" TextContent no_response_text),
           [SetTextContent (S n) no_response_text].
    split; [apply Page|]. right. left. repeat split; auto.
  - exists (message_element "bot" TextContent (failure_prefix ++ m)),
           [ConsoleError m; SetTextContent (S n) (failure_prefix ++ m)].
    split; [|right; right; exists m; repeat split; auto].
    unfold set_textContent, emit. cbn [input_value chatBox trace].
    rewrite <- (Page TextContent (failure_prefix ++ m)
                     [ConsoleError m; SetTextContent (S n) (failure_prefix ++ m)]).
    rewrite <- !app_assoc. reflexivity.
Qed.

Lemma assign_length by_ c : forall l el, length (assign el by_ c l) = length l.
Proof.
  induction l as [|x l IH]; intros [|n]; simpl; auto.
Qed.

Lemma assign_nth_other by_ c : forall l el i,
  i <> el -> nth_error (assign el by_ c l) i = nth_error l i.
Proof.
  induction l as [|x l IH]; intros el i H; destruct el, i; simpl;
    try reflexivity; try congruence.
  apply IH. congruence.
Qed.

Lemma assign_nth_same by_ c : forall l el x,
  nth_error l el = Some x ->
  nth_error (assign el by_ c l) el
  = Some {| classList := classList x; assigned_by := by_; content := c |}.
Proof.
  induction l as [|y l IH]; intros [|n] x H; simpl in *; try discriminate.
  - inversion H; subst. reflexivity.
  - apply IH. exact H.
Qed.

Lemma assign_comm b1 c1 b2 c2 : forall l e1 e2,
  e1 <> e2 ->
  assign e1 b1 c1 (assign e2 b2 c2 l) = assign e2 b2 c2 (assign e1 b1 c1 l).
Proof.
  induction l as [|x l IH]; intros e1 e2 H; destruct e1, e2; simpl;
    try reflexivity; try congruence.
  f_equal. apply IH. congruence.
Qed.

(** The rest of the handler, when the [try] block throws [m]. *)
Lemma submit_resume_thrown rt el r pg m :
  submit_try rt el r pg = inr m ->
  submit_resume rt el r pg
  = {| input_value := input_value pg;
       chatBox := assign el TextContent (failure_prefix ++ m) (chatBox pg);
       trace := trace pg ++ [ConsoleError m;
                             SetTextContent el (failure_prefix ++ m);
                             ScrollToBottom] |}.
Proof.
  intros H. unfold submit_resume. rewrite H.
  unfold set_textContent, emit. cbn [input_value chatBox trace].
  rewrite <- !app_assoc. reflexivity.
Qed.

(** The rest of the handler, when the reply has nothing to show. *)
Lemma submit_resume_nothing rt el r pg :
  submit_try rt el r pg = inl (set_textContent el no_response_text pg) ->
  submit_resume rt el r pg
  = {| input_value := input_value pg;
       chatBox := assign el TextContent no_response_text (chatBox pg);
       trace := trace pg ++ [SetTextContent el no_response_text; ScrollToBottom] |}.
Proof.
  intros H. unfold submit_resume. rewrite H.
  unfold set_textContent, emit. cbn [input_value chatBox trace].
  rewrite <- !app_assoc. reflexivity.
Qed.

End HandlerFacts.
(** ** The formatter: the properties of the specification *)

Import FormatFacts.

(** C1, on the input of two list runs with a line of text between them:
    the formatter wraps them, and the text, in one container; the second
    run gets no container of its own. *)
Theorem formatGeminiResponse_two_runs_one_container :
  let out := formatGeminiResponse
               (js "* a" ++ LF ++ js "x" ++ LF ++ js "* b") in
  out = js "<ul><li>a</li><br>x<br><li>b</li></ul>" /\
  occurrences (js "<ul>") out = 1 /\
  occurrences (js "</ul>") out = 1.
Proof. vm_compute. auto. Qed.

(** C2: whatever the input, every [<] and [>] of the output belongs to one
    of the seven tags of the formatter; the formatter is the markup steps
    applied to the escaped input, which has no [<] and no [>], and the
    escaping writes [&lt;] for [<], [&gt;] for [>] and leaves every other
    code unit, quotes and ampersands among them, as it is. *)
Theorem formatGeminiResponse_only_own_tags :
  forall text,
    restricted_html (formatGeminiResponse text) /\
    formatGeminiResponse text = markup (flat_map escape_unit text) /\
    no_angle (flat_map escape_unit text) /\
    escape_unit 60%N = js "&lt;" /\ escape_unit 62%N = js "&gt;" /\
    (forall c, c <> 60%N -> c <> 62%N -> escape_unit c = [c]) /\
    formatGeminiResponse [34; 38; 39]%N = [34; 38; 39]%N.
Proof.
  intros text. split; [apply formatGeminiResponse_restricted|].
  split; [apply formatGeminiResponse_steps|].
  split; [apply escape_no_angle|].
  split; [reflexivity|]. split; [reflexivity|]. split; [|reflexivity].
  intros c H1 H2. unfold escape_unit.
  apply N.eqb_neq in H1, H2. rewrite H1, H2. reflexivity.
Qed.

Lemma formatGeminiResponse_only_own_tags_witness :
  restricted_html (formatGeminiResponse (js "<i>Tom & Jerry</i>")) /\
  formatGeminiResponse (js "<i>Tom & Jerry</i>")
  = js "&lt;i&gt;Tom & Jerry&lt;/i&gt;".
Proof.
  split; [|reflexivity].
  exact (proj1 (formatGeminiResponse_only_own_tags (js "<i>Tom & Jerry</i>"))).
Defined.

(** C3: ["* a\n* b"] becomes one list container with the two items [a] and
    [b]; no [<br>] stands in front of [<ul>] or behind [</ul>]. *)
Theorem formatGeminiResponse_two_items :
  let out := formatGeminiResponse (js "* a" ++ LF ++ js "* b") in
  out = js "<ul><li>a</li><br><li>b</li></ul>" /\
  occurrences (js "<ul>") out = 1 /\ occurrences (js "</ul>") out = 1 /\
  occurrences (js "<li>") out = 2 /\
  occurrences (js "<li>a</li>") out = 1 /\ occurrences (js "<li>b</li>") out = 1 /\
  occurrences (js "<br><ul>") out = 0 /\ occurrences (js "</ul><br>") out = 0.
Proof. vm_compute. repeat split. Qed.

(** C8: on text without [<] and [>], without a [**] pair, without a line
    that begins with an asterisk and a space and without a line feed the
    formatter is the identity, so formatting twice is formatting once; the
    empty string stays empty. *)
Theorem formatGeminiResponse_plain_identity :
  (forall s,
     no_angle s -> ~ bold_pair s -> ~ item_line s -> ~ In 10%N s ->
     formatGeminiResponse s = s /\
     formatGeminiResponse (formatGeminiResponse s) = formatGeminiResponse s) /\
  formatGeminiResponse [] = [].
Proof.
  split; [|reflexivity]. intros s Ha Hb Hi Hn.
  rewrite !(formatGeminiResponse_id s Ha Hb Hi Hn). auto.
Qed.

Lemma no_star_no_markers s :
  forallb (fun c => negb (c =? 42)%N) s = true -> ~ bold_pair s /\ ~ item_line s.
Proof.
  intros H.
  assert (N : ~ In 42%N s).
  { intros Hin. rewrite forallb_forall in H. apply H in Hin. discriminate. }
  split.
  - intros (a & t & b & E). apply N. rewrite E. apply in_or_app. right. left. reflexivity.
  - intros (a & b & _ & E). apply N. rewrite E. apply in_or_app. right. left. reflexivity.
Qed.

Lemma not_in_by_test (x : N) s :
  forallb (fun c => negb (c =? x)%N) s = true -> ~ In x s.
Proof.
  intros H Hin. rewrite forallb_forall in H. apply H in Hin.
  rewrite N.eqb_refl in Hin. discriminate.
Qed.

Lemma formatGeminiResponse_plain_identity_witness :
  let s := js "Tom & Jerry said 'hi'" in
  no_angle s /\ ~ bold_pair s /\ ~ item_line s /\ ~ In 10%N s /\
  formatGeminiResponse s = s /\
  formatGeminiResponse (formatGeminiResponse s) = formatGeminiResponse s.
Proof.
  intros s.
  assert (Ha : no_angle s) by reflexivity.
  assert (Hn : ~ In 10%N s) by (apply not_in_by_test; reflexivity).
  destruct (no_star_no_markers s eq_refl) as [Hb Hi].
  split; [exact Ha|]. split; [exact Hb|]. split; [exact Hi|]. split; [exact Hn|].
  exact (proj1 formatGeminiResponse_plain_identity s Ha Hb Hi Hn).
Defined.
(** ** The submit handler: the properties of the specification *)

Import HandlerFacts.

Lemma submit_effects_sent rt r pg c t :
  trim (input_value pg) = c :: t ->
  exists final_el final_eff,
    chatBox (submit rt r pg)
    = chatBox pg ++ [message_element "user" InnerHTML (trim (input_value pg)); final_el] /\
    input_value (submit rt r pg) = [] /\
    submit_effects rt r pg
    = sent_effects (length (chatBox pg)) (trim (input_value pg))
      ++ final_eff ++ [ScrollToBottom] /\
    ((exists status data text,
        r = Response status (Parsed data) /\ ok status = true /\
        get data (js "result") = Some (JStr text) /\ text <> [] /\
        (forall el pg', submit_try rt el r pg'
                        = inl (set_innerHTML el (formatGeminiResponse text) pg')) /\
        final_el = message_element "bot" InnerHTML (formatGeminiResponse text) /\
        final_eff = [SetInnerHTML (S (length (chatBox pg))) (formatGeminiResponse text)])
     \/ ((forall el pg', submit_try rt el r pg'
                          = inl (set_textContent el no_response_text pg')) /\
         final_el = message_element "bot" TextContent no_response_text /\
         final_eff = [SetTextContent (S (length (chatBox pg))) no_response_text])
     \/ (exists m,
           (forall el pg', submit_try rt el r pg' = inr m) /\
           final_el = message_element "bot" TextContent (failure_prefix ++ m) /\
           final_eff = [ConsoleError m;
                        SetTextContent (S (length (chatBox pg))) (failure_prefix ++ m)])).
Proof.
  intros E. destruct (submit_sent rt r pg c t E) as (fe & ff & Es & Cases).
  exists fe, ff. unfold submit_effects. rewrite Es. cbn [chatBox input_value trace].
  rewrite skipn_app_exact. auto.
Qed.

(** C6: when the input field holds nothing but white space and line
    terminators, the handler only cancels the default action of the event:
    the chat box and the input field stay as they were, nothing is sent,
    and no part of the handler is left waiting. *)
Theorem submit_blank_input rt r pg :
  forallb is_trimmed_unit (input_value pg) = true ->
  chatBox (submit rt r pg) = chatBox pg /\
  input_value (submit rt r pg) = input_value pg /\
  submit_effects rt r pg = [PreventDefault] /\
  fetches (submit_effects rt r pg) = [] /\
  snd (submit_begin pg) = None.
Proof.
  intros H. apply trim_blank in H.
  assert (B : submit_begin pg = (emit PreventDefault pg, None)).
  { unfold submit_begin. cbn [emit input_value]. rewrite H. reflexivity. }
  unfold submit_effects, submit. rewrite B. cbn [emit chatBox input_value trace snd].
  rewrite skipn_app_exact. auto.
Qed.

Lemma submit_blank_input_witness :
  let pg := fresh_page ([32; 9; 10; 160; 32]%N) in
  forallb is_trimmed_unit (input_value pg) = true /\
  chatBox (submit v8 (Rejected (js "Failed to fetch")) pg) = chatBox pg /\
  input_value (submit v8 (Rejected (js "Failed to fetch")) pg) = input_value pg /\
  submit_effects v8 (Rejected (js "Failed to fetch")) pg = [PreventDefault] /\
  fetches (submit_effects v8 (Rejected (js "Failed to fetch")) pg) = [] /\
  snd (submit_begin pg) = None.
Proof.
  intros pg. split; [reflexivity|].
  exact (submit_blank_input v8 (Rejected (js "Failed to fetch")) pg eq_refl).
Defined.

Lemma chat_request_post msg : chat_request msg = post_request msg.
Proof.
  unfold chat_request, post_request. f_equal.
  unfold chat_body, quoted. cbn [JSON_stringify]. unfold QuoteJSONString.
  rewrite <- !app_assoc. reflexivity.
Qed.




(** What the page shows when the [try] block throws. *)
Lemma submit_failure rt r pg m :
  trim (input_value pg) <> [] ->
  (forall el pg', submit_try rt el r pg' = inr m) ->
  chatBox (submit rt r pg)
  = chatBox pg ++ [message_element "user" InnerHTML (trim (input_value pg));
                   message_element "bot" TextContent (failure_prefix ++ m)] /\
  text_writes (submit_effects rt r pg) = [failure_prefix ++ m] /\
  html_writes (submit_effects rt r pg) = [trim (input_value pg); thinking_text].
Proof.
  intros Hin Hm.
  destruct (trim (input_value pg)) as [|c t] eqn:E; [congruence|]. clear Hin.
  destruct (submit_effects_sent rt r pg c t E) as (fe & ff & Ec & _ & Ef & Cases).
  rewrite Ec, Ef, E. unfold text_writes, html_writes. rewrite !flat_map_app.
  destruct Cases as [(? & ? & ? & _ & _ & _ & _ & H & _)
                    |[(H & _)|(m' & H & -> & ->)]].
  - specialize (H 0 pg). rewrite Hm in H. discriminate.
  - specialize (H 0 pg). rewrite Hm in H. discriminate.
  - specialize (H 0 pg). rewrite Hm in H. inversion H; subst. auto.
Qed.

(** What the page shows when the reply has no result. *)
Lemma submit_nothing rt r pg :
  trim (input_value pg) <> [] ->
  (forall el pg', submit_try rt el r pg'
                  = inl (set_textContent el no_response_text pg')) ->
  chatBox (submit rt r pg)
  = chatBox pg ++ [message_element "user" InnerHTML (trim (input_value pg));
                   message_element "bot" TextContent no_response_text] /\
  text_writes (submit_effects rt r pg) = [no_response_text] /\
  html_writes (submit_effects rt r pg) = [trim (input_value pg); thinking_text].
Proof.
  intros Hin Hm.
  destruct (trim (input_value pg)) as [|c t] eqn:E; [congruence|]. clear Hin.
  destruct (submit_effects_sent rt r pg c t E) as (fe & ff & Ec & _ & Ef & Cases).
  rewrite Ec, Ef, E. unfold text_writes, html_writes. rewrite !flat_map_app.
  destruct Cases as [(? & ? & ? & _ & _ & _ & _ & H & _)
                    |[(H & -> & ->)|(m' & H & _)]].
  - specialize (H 0 (fresh_page [])). rewrite Hm in H.
    unfold set_innerHTML, set_textContent, emit, fresh_page in H.
    cbn [trace app] in H. discriminate.
  - auto.
  - specialize (H 0 pg). rewrite Hm in H. discriminate.
Qed.

(** A reply whose [try] block throws [m], whenever it comes. *)
Lemma lands_failure rt r m :
  (forall el pg, submit_try rt el r pg = inr m) ->
  lands rt r TextContent (failure_prefix ++ m)
        (fun el => [ConsoleError m; SetTextContent el (failure_prefix ++ m);
                    ScrollToBottom]).
Proof.
  intros H el pg. rewrite (submit_resume_thrown rt el r pg m (H el pg)).
  cbn [chatBox trace]. split; [|split; [|reflexivity]].
  - intros x Hx. apply assign_nth_same. exact Hx.
  - intros i Hi. apply assign_nth_other. exact Hi.
Qed.

(** A reply with nothing to show, whenever it comes. *)
Lemma lands_nothing rt r :
  (forall el pg, submit_try rt el r pg
                 = inl (set_textContent el no_response_text pg)) ->
  lands rt r TextContent no_response_text
        (fun el => [SetTextContent el no_response_text; ScrollToBottom]).
Proof.
  intros H el pg. rewrite (submit_resume_nothing rt el r pg (H el pg)).
  cbn [chatBox trace]. split; [|split; [|reflexivity]].
  - intros x Hx. apply assign_nth_same. exact Hx.
  - intros i Hi. apply assign_nth_other. exact Hi.
Qed.

(** After a reply with a status outside 200..299: what the [try] block
    throws. *)
Lemma submit_try_http_error rt status b :
  ok status = false ->
  let thrown m := forall el pg, submit_try rt el (Response status b) pg = inr m in
  (forall e m, body_error b e -> truthy e = true -> to_string e = Some m -> thrown m) /\
  (forall e, body_error b e -> truthy e = true -> to_string e = None ->
             thrown (not_convertible rt)) /\
  (forall e, body_error b e -> truthy e = false -> thrown (status_message status)) /\
  (body_without_error b -> thrown (status_message status)) /\
  (exists m, thrown m).
Proof.
  intros Hok thrown. split; [|split; [|split; [|split]]].
  - intros e m (v & -> & G) Te Se el pg. unfold submit_try. rewrite Hok. cbn [negb].
    destruct v; try discriminate. cbn [get] in *. rewrite G, Te, Se. reflexivity.
  - intros e (v & -> & G) Te Se el pg. unfold submit_try. rewrite Hok. cbn [negb].
    destruct v; try discriminate. cbn [get] in *. rewrite G, Te, Se. reflexivity.
  - intros e (v & -> & G) Te el pg. unfold submit_try. rewrite Hok. cbn [negb].
    destruct v; try discriminate. cbn [get] in *. rewrite G, Te. reflexivity.
  - intros [(m & ->)|(v & -> & G)] el pg; unfold submit_try; rewrite Hok;
      cbn [negb]; [reflexivity|].
    destruct v; cbn [get] in *; try rewrite G; reflexivity.
  - destruct (submit_try rt 0 (Response status b) (fresh_page [])) as [pg'|m] eqn:T.
    + exfalso. unfold submit_try in T. rewrite Hok in T. cbn [negb] in T.
      match type of T with
      | match ?x with _ => _ end = _ => destruct x; discriminate
      end.
    + exists m. intros el pg. rewrite <- T. unfold submit_try. rewrite Hok.
      reflexivity.
Qed.

(** C4, amended: after a reply with a status outside 200..299 the
    placeholder holds, as plain text, the fixed prefix and then a message.
    The message is: the string the [error] field of the JSON body converts
    to, when that field is truthy (for a string: the string itself, when it
    is not empty); the message of the engine's [TypeError], when that
    field is truthy and cannot be converted (an object with a [toString]
    property of its own); and else, when the body is no JSON, has no
    [error] field or has a falsy one, the message with the status in
    decimal.  This holds whenever the reply comes: whatever the page holds
    by then, the placeholder gets that text and keeps its classes, no other
    child of the chat box changes, and the handler logs the message,
    assigns the text and scrolls.  For a reply handled right after the
    submission the chat box ends in the message of the user and that text,
    and nothing but the input of the user and the text of the placeholder
    was written as HTML.  The reply 500 with the body
    [{"error":"overloaded"}] ends in
    [Gagal mendapatkan respon dari server: overloaded]. *)
Theorem submit_http_error rt :
  (forall status b, ok status = false ->
     let shown m :=
       lands rt (Response status b) TextContent (failure_prefix ++ m)
             (fun el => [ConsoleError m; SetTextContent el (failure_prefix ++ m);
                         ScrollToBottom]) /\
       forall pg, trim (input_value pg) <> [] ->
         chatBox (submit rt (Response status b) pg)
         = chatBox pg ++ [message_element "user" InnerHTML (trim (input_value pg));
                          message_element "bot" TextContent (failure_prefix ++ m)] /\
         text_writes (submit_effects rt (Response status b) pg) = [failure_prefix ++ m] /\
         html_writes (submit_effects rt (Response status b) pg)
         = [trim (input_value pg); thinking_text] in
     (forall e m, body_error b e -> truthy e = true -> to_string e = Some m -> shown m) /\
     (forall e, body_error b e -> truthy e = true -> to_string e = None ->
                shown (not_convertible rt)) /\
     (forall e, body_error b (JStr e) -> e <> [] -> shown e) /\
     (forall e, body_error b e -> truthy e = false -> shown (status_message status)) /\
     (body_without_error b -> shown (status_message status)) /\
     (exists m, shown m)) /\
  (let r := Response 500 (Parsed (JObj [(js "error", JStr (js "overloaded"))])) in
   lands rt r TextContent (js "Gagal mendapatkan respon dari server: overloaded")
         (fun el => [ConsoleError (js "overloaded");
                     SetTextContent el
                       (js "Gagal mendapatkan respon dari server: overloaded");
                     ScrollToBottom]) /\
   forall pg, trim (input_value pg) <> [] ->
     chatBox (submit rt r pg)
     = chatBox pg ++ [message_element "user" InnerHTML (trim (input_value pg));
                      message_element "bot" TextContent
                        (js "Gagal mendapatkan respon dari server: overloaded")]).
Proof.
  assert (Shown : forall r m,
    (forall el pg, submit_try rt el r pg = inr m) ->
    lands rt r TextContent (failure_prefix ++ m)
          (fun el => [ConsoleError m; SetTextContent el (failure_prefix ++ m);
                      ScrollToBottom]) /\
    forall pg, trim (input_value pg) <> [] ->
      chatBox (submit rt r pg)
      = chatBox pg ++ [message_element "user" InnerHTML (trim (input_value pg));
                       message_element "bot" TextContent (failure_prefix ++ m)] /\
      text_writes (submit_effects rt r pg) = [failure_prefix ++ m] /\
      html_writes (submit_effects rt r pg) = [trim (input_value pg); thinking_text]).
  { intros r m H. split; [apply lands_failure; exact H|].
    intros pg Hin. apply submit_failure; assumption. }
  split.
  - intros status b Hok shown.
    destruct (submit_try_http_error rt status b Hok) as (T1 & T2 & T3 & T4 & m & T5).
    split; [|split; [|split; [|split; [|split]]]].
    + intros e m' Be Te Se. apply Shown. exact (T1 e m' Be Te Se).
    + intros e Be Te Se. apply Shown. exact (T2 e Be Te Se).
    + intros e Be He. apply Shown. apply (T1 (JStr e)); [assumption| |reflexivity].
      destruct e; [congruence|reflexivity].
    + intros e Be Te. apply Shown. exact (T3 e Be Te).
    + intros Bw. apply Shown. exact (T4 Bw).
    + exists m. apply Shown. exact T5.
  - intros r.
    destruct (Shown r (js "overloaded")) as [L S]; [reflexivity|].
    split; [exact L|]. intros pg Hin. exact (proj1 (S pg Hin)).
Qed.

Lemma submit_http_error_witness :
  let pg := fresh_page (js "hello") in
  let b := Parsed (JObj [(js "error", JStr (js "rate limit"))]) in
  let odd := JObj [(js "toString", JNum true (js "1"))] in
  let late :=
    {| input_value := js "next";
       chatBox := [message_element "user" InnerHTML (js "hello");
                   message_element "bot" InnerHTML thinking_text;
                   message_element "user" InnerHTML (js "again");
                   message_element "bot" InnerHTML thinking_text];
       trace := [] |} in
  ok 429 = false /\
  body_error b (JStr (js "rate limit")) /\
  js "rate limit" <> [] /\
  trim (input_value pg) <> [] /\
  nth_error (chatBox late) 1 = Some (message_element "bot" InnerHTML thinking_text) /\
  nth_error (chatBox (submit_resume v8 1 (Response 429 b) late)) 1
  = Some (message_element "bot" TextContent
            (js "Gagal mendapatkan respon dari server: rate limit")) /\
  chatBox (submit v8 (Response 429 b) pg)
  = [message_element "user" InnerHTML (js "hello");
     message_element "bot" TextContent
       (js "Gagal mendapatkan respon dari server: rate limit")] /\
  body_error (Parsed (JObj [(js "error", odd)])) odd /\
  truthy odd = true /\ to_string odd = None /\
  chatBox (submit v8 (Response 429 (Parsed (JObj [(js "error", odd)]))) pg)
  = [message_element "user" InnerHTML (js "hello");
     message_element "bot" TextContent
       (js "Gagal mendapatkan respon dari server: Cannot convert object to primitive value")] /\
  chatBox (submit v8 (Response 500 (Parsed (JObj [(js "error", JStr (js "overloaded"))]))) pg)
  = [message_element "user" InnerHTML (js "hello");
     message_element "bot" TextContent
       (js "Gagal mendapatkan respon dari server: overloaded")].
Proof.
  intros pg b odd late.
  assert (Hin : trim (input_value pg) <> []) by discriminate.
  assert (Hb : body_error b (JStr (js "rate limit"))).
  { eexists. split; reflexivity. }
  assert (Hne : js "rate limit" <> []) by discriminate.
  assert (Hl : nth_error (chatBox late) 1
               = Some (message_element "bot" InnerHTML thinking_text))
    by reflexivity.
  assert (Ho : body_error (Parsed (JObj [(js "error", odd)])) odd).
  { eexists. split; reflexivity. }
  split; [reflexivity|]. split; [exact Hb|]. split; [exact Hne|].
  split; [exact Hin|]. split; [exact Hl|].
  pose proof (proj1 (proj2 (proj2 (proj1 (submit_http_error v8) 429%N b eq_refl)))
                (js "rate limit") Hb Hne) as [L S].
  split; [exact (proj1 (L 1 late) _ Hl)|].
  split; [exact (proj1 (S pg Hin))|].
  split; [exact Ho|]. split; [reflexivity|]. split; [reflexivity|].
  split.
  - exact (proj1 (proj2 (proj1 (proj2 (proj1 (submit_http_error v8) 429%N _ eq_refl))
                           odd Ho eq_refl eq_refl) pg Hin)).
  - exact (proj2 (proj2 (submit_http_error v8)) pg Hin).
Defined.

(** C4 as it is stated fails: the body [{"error":""}] has an [error]
    field, and the handler shows the message with the status, not the text
    of the field. *)
Lemma submit_http_error_empty_field :
  let pg := fresh_page (js "hello") in
  let b := Parsed (JObj [(js "error", JStr [])]) in
  trim (input_value pg) <> [] /\ ok 500 = false /\ body_error b (JStr []) /\
  chatBox (submit v8 (Response 500 b) pg)
  <> [message_element "user" InnerHTML (js "hello");
      message_element "bot" TextContent (failure_prefix ++ [])] /\
  chatBox (submit v8 (Response 500 b) pg)
  = [message_element "user" InnerHTML (js "hello");
     message_element "bot" TextContent
       (js "Gagal mendapatkan respon dari server: Server responded with status 500")].
Proof.
  intros pg b. split; [discriminate|]. split; [reflexivity|].
  split; [eexists; split; reflexivity|].
  split; [vm_compute; discriminate|reflexivity].
Qed.

(** C5: after a reply with a status in 200..299 whose JSON body has no
    [result] field, or an empty one (any falsy one: the empty string,
    [null], [0], [false]), the placeholder holds, as plain text,
    [Maaf, tidak ada respon yang diterima.].  This holds whenever the reply
    comes: whatever the page holds by then, the placeholder gets that text
    and keeps its classes, no other child of the chat box changes, and the
    handler only assigns the text and scrolls, so the formatter is not
    applied.  For a reply handled right after the submission the chat box
    ends in the message of the user and that text, and nothing but the
    message of the user and the placeholder was written as HTML. *)
Theorem submit_no_result rt status data :
  ok status = true ->
  get data (js "result") = None \/
  (exists v, get data (js "result") = Some v /\ truthy v = false) ->
  let r := Response status (Parsed data) in
  lands rt r TextContent (js "Maaf, tidak ada respon yang diterima.")
        (fun el => [SetTextContent el (js "Maaf, tidak ada respon yang diterima.");
                    ScrollToBottom]) /\
  forall pg, trim (input_value pg) <> [] ->
    chatBox (submit rt r pg)
    = chatBox pg ++ [message_element "user" InnerHTML (trim (input_value pg));
                     message_element "bot" TextContent
                       (js "Maaf, tidak ada respon yang diterima.")] /\
    text_writes (submit_effects rt r pg)
    = [js "Maaf, tidak ada respon yang diterima."] /\
    html_writes (submit_effects rt r pg) = [trim (input_value pg); thinking_text].
Proof.
  intros Hok G r.
  assert (T : forall el pg, submit_try rt el r pg
                            = inl (set_textContent el no_response_text pg)).
  { intros el pg. unfold r, submit_try. rewrite Hok. cbn [negb].
    destruct G as [G|(v & G & Tv)]; rewrite G.
    - destruct (truthy data) eqn:Td; [reflexivity|]. cbn [truthy]. rewrite Td.
      reflexivity.
    - destruct data; try discriminate. cbn [truthy]. rewrite Tv. reflexivity. }
  split.
  - exact (lands_nothing rt r T).
  - intros pg Hin. exact (submit_nothing rt r pg Hin T).
Qed.

Lemma submit_no_result_witness :
  let pg := fresh_page (js "hello") in
  let data := JObj [(js "result", JStr [])] in
  let late :=
    {| input_value := js "next";
       chatBox := [message_element "user" InnerHTML (js "hello");
                   message_element "bot" InnerHTML thinking_text;
                   message_element "user" InnerHTML (js "again");
                   message_element "bot" InnerHTML thinking_text];
       trace := [] |} in
  ok 200 = true /\
  (get data (js "result") = None \/
   exists v, get data (js "result") = Some v /\ truthy v = false) /\
  trim (input_value pg) <> [] /\
  nth_error (chatBox late) 1 = Some (message_element "bot" InnerHTML thinking_text) /\
  nth_error (chatBox (submit_resume v8 1 (Response 200 (Parsed data)) late)) 1
  = Some (message_element "bot" TextContent
            (js "Maaf, tidak ada respon yang diterima.")) /\
  chatBox (submit v8 (Response 200 (Parsed data)) pg)
  = [message_element "user" InnerHTML (js "hello");
     message_element "bot" TextContent (js "Maaf, tidak ada respon yang diterima.")].
Proof.
  intros pg data late.
  assert (Hin : trim (input_value pg) <> []) by discriminate.
  assert (G : get data (js "result") = None \/
              exists v, get data (js "result") = Some v /\ truthy v = false).
  { right. exists (JStr []). split; reflexivity. }
  assert (Hl : nth_error (chatBox late) 1
               = Some (message_element "bot" InnerHTML thinking_text))
    by reflexivity.
  split; [reflexivity|]. split; [exact G|]. split; [exact Hin|].
  split; [exact Hl|].
  pose proof (submit_no_result v8 200 data eq_refl G) as [L S].
  split.
  - exact (proj1 (L 1 late) _ Hl).
  - exact (proj1 (S pg Hin)).
Defined.




(** ** More about the formatter *)

Lemma starts_with_app w s' : starts_with w (w ++ s') = true.
Proof. induction w as [|c w IH]; simpl; [reflexivity|]. rewrite N.eqb_refl. exact IH. Qed.

Lemma exec_word_starts f c w p s :
  starts_with (c :: w) s = false -> exec f (word (c :: w)) p s = None.
Proof.
  intros H. no_match (exec_word_inv f (c :: w)) as [-> _].
  rewrite starts_with_app in H. discriminate.
Qed.

Lemma avoids_app_r x y a b : avoids x y (a ++ b) = true -> avoids x y b = true.
Proof.
  induction a as [|c a IH]; [auto|]. simpl. intros H.
  apply andb_prop in H. destruct H as [_ H]. auto.
Qed.

Lemma avoids_pair x y a b : avoids x y (a ++ x :: y :: b) = false.
Proof.
  destruct (avoids x y (a ++ x :: y :: b)) eqn:H; [|reflexivity].
  apply avoids_app_r in H. simpl in H. rewrite !N.eqb_refl in H. discriminate.
Qed.

(** A piece without [x] does not matter. *)
Lemma avoids_skip x y a b : ~ In x a -> avoids x y (a ++ b) = avoids x y b.
Proof.
  induction a as [|c a IH]; [reflexivity|]. intros N. simpl.
  destruct (N.eqb_spec c x) as [->|_]; [exfalso; apply N; left; reflexivity|].
  simpl. apply IH. intros H. apply N. right. exact H.
Qed.

Lemma escape_unit_no_star c : c <> 42%N -> ~ In 42%N (escape_unit c).
Proof.
  intros Hc. unfold escape_unit.
  destruct (c =? 60)%N; [simpl; intuition discriminate|].
  destruct (c =? 62)%N; [simpl; intuition discriminate|].
  simpl. intuition congruence.
Qed.

Lemma escape_no_star s : ~ In 42%N s -> ~ In 42%N (flat_map escape_unit s).
Proof.
  intros N H. apply in_flat_map in H. destruct H as (c & Hc & H).
  apply (escape_unit_no_star c); [|exact H]. intros ->. exact (N Hc).
Qed.

Lemma no_star_no_pair s : ~ In 42%N s -> ~ bold_pair s /\ ~ item_line s.
Proof.
  intros N. split.
  - intros (a & t & b & E). apply N. rewrite E. apply in_or_app. right. left. reflexivity.
  - intros (a & b & _ & E). apply N. rewrite E. apply in_or_app. right. left. reflexivity.
Qed.

Lemma break_escape s :
  flat_map break_unit (flat_map escape_unit s) = flat_map render_unit s.
Proof.
  induction s as [|c s IH]; [reflexivity|].
  cbn [flat_map]. rewrite flat_map_app, IH. f_equal.
  unfold render_unit, escape_unit.
  destruct (N.eqb_spec c 10) as [->|H10]; [reflexivity|].
  destruct (N.eqb_spec c 60); [reflexivity|].
  destruct (N.eqb_spec c 62); [reflexivity|].
  simpl. unfold break_unit. apply N.eqb_neq in H10. rewrite H10. reflexivity.
Qed.

Lemma render_avoids y s :
  y = 117%N \/ y = 47%N -> avoids 60 y (flat_map render_unit s) = true.
Proof.
  intros Hy.
  induction s as [|c s IH]; [reflexivity|]. cbn [flat_map].
  unfold render_unit, escape_unit.
  destruct (N.eqb_spec c 10); [destruct Hy; subst y; exact IH|].
  destruct (N.eqb_spec c 60); [exact IH|].
  destruct (N.eqb_spec c 62); [exact IH|].
  simpl. apply N.eqb_neq in n0. rewrite n0. exact IH.
Qed.

Lemma word_absent c d w tpl s :
  avoids c d s = true ->
  (exists a b, c :: w = a ++ c :: d :: b) ->
  replace flags_g (word (c :: w)) tpl s = s.
Proof.
  intros A (a0 & b0 & Ew). apply replace_scan_id. intros a b E.
  no_match (exec_word_inv flags_g (c :: w)) as [-> _].
  rewrite E, Ew, <- !app_assoc in A. cbn [app] in A.
  rewrite app_assoc in A. rewrite avoids_pair in A. discriminate.
Qed.

(** X1: text without an asterisk is escaped and its line feeds become
    [<br>]; nothing else happens to it. *)
Theorem formatGeminiResponse_prose s :
  ~ In 42%N s -> formatGeminiResponse s = flat_map render_unit s.
Proof.
  intros Hs. rewrite formatGeminiResponse_steps.
  pose proof (escape_no_star s Hs) as Ne.
  destruct (no_star_no_pair _ Ne) as [Hb Hi].
  unfold markup.
  rewrite (bold_id _ _ Hb), (item_id _ _ Hi), (items_id _ _ (escape_no_angle s)).
  unfold replace at 3. rewrite (replace_unit flags_g 10%N (js "<br>")).
  change (flat_map (fun x : N => if (x =? 10)%N then js "<br>" else [x]))
    with (flat_map break_unit).
  rewrite break_escape.
  rewrite (word_absent 60%N 117%N (tl (js "<br><ul>")));
    [|apply render_avoids; auto
     |exists (js "<br>"), (js "l>"); reflexivity].
  apply (word_absent 60%N 47%N (tl (js "</ul><br>")));
    [apply render_avoids; auto|exists [], (js "ul><br>"); reflexivity].
Qed.

Lemma formatGeminiResponse_prose_witness :
  let s := js "if a<b & b>c:" ++ LF ++ LF ++ js "  done" in
  ~ In 42%N s /\
  formatGeminiResponse s = js "if a&lt;b & b&gt;c:<br><br>  done".
Proof.
  intros s.
  assert (Hs : ~ In 42%N s) by (apply not_in_by_test; reflexivity).
  split; [exact Hs|]. exact (formatGeminiResponse_prose s Hs).
Defined.

(** Replacing a literal brings in no code unit that is not in the input or
    in the replacement. *)
Lemma replace_word_units c w rep x : forall n s p,
  length s <= n ->
  In x (replace_scan flags_g (word (c :: w)) [Lit rep] 0 p s) ->
  In x s \/ In x rep.
Proof.
  induction n as [|n IH]; intros s p L H.
  - destruct s; [|simpl in L; lia].
    rewrite replace_scan_end in H; [contradiction|].
    no_match (exec_word_inv flags_g (c :: w)) as [E _]. discriminate.
  - destruct s as [|d t].
    { rewrite replace_scan_end in H; [contradiction|].
      no_match (exec_word_inv flags_g (c :: w)) as [E _]. discriminate. }
    destruct (exec flags_g (word (c :: w)) p (d :: t)) as [[g s']|] eqn:E.
    + pose proof (exec_word_inv _ _ _ _ _ _ E) as [Es ->].
      destruct (replace_scan_behind flags_g _ [Lit rep] p _ _ _ E) as [p' R].
      { rewrite Es, length_app. simpl. lia. }
      rewrite R in H. apply in_app_or in H. destruct H as [H|H].
      * right. simpl in H. rewrite app_nil_r in H. exact H.
      * apply IH in H.
        -- destruct H as [H|H]; [|auto]. left. rewrite Es. apply in_or_app. auto.
        -- assert (length s' < length (d :: t))
             by (rewrite Es, length_app; simpl; lia).
           simpl in *. lia.
    + rewrite replace_scan_copy in H by exact E. destruct H as [<-|H].
      * left. left. reflexivity.
      * apply IH in H; [|simpl in L; lia]. destruct H; [left; right|right]; assumption.
Qed.

(** X2: whatever the input, the output holds no line feed. *)
Theorem formatGeminiResponse_no_line_feed s : ~ In 10%N (formatGeminiResponse s).
Proof.
  unfold formatGeminiResponse. unfold replace at 1 2. intros H.
  apply (replace_word_units _ _ _ _ _ _ _ (Nat.le_refl _)) in H.
  destruct H as [H|H]; [|simpl in H; intuition discriminate].
  apply (replace_word_units _ _ _ _ _ _ _ (Nat.le_refl _)) in H.
  destruct H as [H|H]; [|simpl in H; intuition discriminate].
  unfold replace at 1 in H. rewrite (replace_unit flags_g 10%N (js "<br>")) in H.
  apply in_flat_map in H. destruct H as (c & _ & H).
  destruct (N.eqb_spec c 10) as [Ec|Hc]; simpl in H; [intuition discriminate|].
  destruct H as [H|[]]. congruence.
Qed.

(** *** The greedy star *)

Section Greedy.
Variables (f : flags) (k : state -> option state) (g : option jstring).

Lemma star_greedy_none : forall s p,
  (forall q b1 b2, s = b1 ++ b2 -> k {| prev := q; rest := b2; cap := g |} = None) ->
  star_greedy f k p s g = None.
Proof.
  induction s as [|c s IH]; intros p H; cbn [star_greedy].
  - apply (H p [] []). reflexivity.
  - rewrite IH.
    + destruct (dot_ok f c); apply (H p [] (c :: s)); reflexivity.
    + intros q b1 b2 E. apply (H q (c :: b1) b2). rewrite E. reflexivity.
Qed.

(** The greedy star ends at the last place where the rest of the pattern
    succeeds. *)
Lemma star_greedy_last r : forall a b p,
  forallb (dot_ok f) a = true ->
  k {| prev := last_unit p a; rest := b; cap := g |} = Some r ->
  (forall q b1 b2, tl b = b1 ++ b2 ->
                   k {| prev := q; rest := b2; cap := g |} = None) ->
  star_greedy f k p (a ++ b) g = Some r.
Proof.
  induction a as [|c a IH]; intros b p D K L.
  - simpl in K. cbn [app]. destruct b as [|c b]; [exact K|].
    cbn [star_greedy]. rewrite (star_greedy_none b (Some c) L).
    destruct (dot_ok f c); exact K.
  - simpl in D. apply andb_prop in D. destruct D as [Dc Da].
    change ((c :: a) ++ b) with (c :: a ++ b). cbn [star_greedy].
    rewrite Dc, (IH b (Some c) Da K L). reflexivity.
Qed.

(** The greedy star takes a whole line. *)
Lemma star_greedy_line r : forall y z p,
  forallb (dot_ok f) y = true ->
  match z with [] => True | c :: _ => dot_ok f c = false end ->
  k {| prev := last_unit p y; rest := z; cap := g |} = Some r ->
  star_greedy f k p (y ++ z) g = Some r.
Proof.
  induction y as [|c y IH]; intros z p D Z K.
  - simpl in K. cbn [app]. destruct z as [|c z]; [exact K|].
    cbn [star_greedy]. rewrite Z. exact K.
  - simpl in D. apply andb_prop in D. destruct D as [Dc Dy].
    change ((c :: y) ++ z) with (c :: y ++ z). cbn [star_greedy].
    rewrite Dc, (IH z (Some c) Dy Z K). reflexivity.
Qed.
End Greedy.

Lemma run_word_none f w k st :
  starts_with w (rest st) = false -> run f (word w) k st = None.
Proof.
  revert st. induction w as [|c w IH]; intros st H; [discriminate|].
  cbn [word run]. destruct (rest st) as [|x t] eqn:E; [reflexivity|].
  simpl in H. rewrite N.eqb_sym. destruct (c =? x)%N; [|reflexivity].
  apply IH. exact H.
Qed.

(** A line that starts with an asterisk and a space is matched whole. *)
Lemma exec_item_line p y z :
  at_bol flags_gm p = true -> plain y -> at_eol flags_gm z = true ->
  exec flags_gm re_item p ([42; 32]%N ++ y ++ z) = Some (y, z).
Proof.
  intros Hb Py Hz. unfold exec, re_item. cbn [run rest prev cap app].
  rewrite Hb, !N.eqb_refl. cbn [rest prev cap].
  erewrite star_greedy_line; cycle 1.
  - apply forallb_forall. intros c Hc. apply (plain_in y c Py) in Hc.
    apply plain_unit_spec in Hc. destruct Hc as (_ & _ & _ & _ & Hc).
    unfold dot_ok. rewrite Hc. reflexivity.
  - destruct z as [|c z]; [exact I|]. simpl in Hz. unfold dot_ok. rewrite Hz. reflexivity.
  - cbn [run rest]. rewrite Hz. cbn [rest]. rewrite firstn_consumed. reflexivity.
  - cbn [cap rest]. reflexivity.
Qed.

(** The pattern of the list container takes everything from a first
    [<li>] to the last [</li>]. *)
Lemma exec_items_last p m t :
  ~ In 60%N t ->
  exec flags_gs re_items p (js "<li>" ++ m ++ js "</li>" ++ t)
  = Some (js "<li>" ++ m ++ js "</li>", t).
Proof.
  intros Ht. unfold exec, re_items. cbn [run].
  rewrite (run_word flags_gs (js "<li>") _ _ (m ++ js "</li>" ++ t)) by reflexivity.
  cbn [run rest prev cap].
  erewrite star_greedy_last; cycle 1.
  - apply forallb_forall. intros c _. reflexivity.
  - rewrite (run_word flags_gs (js "</li>") _ _ t) by reflexivity.
    cbn [rest prev cap].
    replace (js "<li>" ++ m ++ js "</li>" ++ t)
      with ((js "<li>" ++ m ++ js "</li>") ++ t) by (rewrite <- !app_assoc; reflexivity).
    rewrite firstn_consumed. reflexivity.
  - intros q b1 b2 E. apply run_word_none. cbn [rest].
    destruct b2 as [|c b2]; [reflexivity|].
    assert (Hc : In c (js "/li>" ++ t)).
    { change (tl (js "</li>" ++ t)) with (js "/li>" ++ t) in E.
      rewrite E. apply in_or_app. right. left. reflexivity. }
    change (starts_with (60%N :: js "/li>") (c :: b2) = false). cbn [starts_with].
    destruct (N.eqb_spec 60 c) as [<-|]; [|reflexivity].
    exfalso. simpl in Hc. intuition discriminate.
  - cbn [cap rest]. reflexivity.
Qed.

(** *** A list of items, step by step *)

Lemma join_cons sep x (t : list (list N)) :
  join sep (x :: t)
  = x ++ match t with [] => [] | _ :: _ => sep ++ join sep t end.
Proof. destruct t; simpl; [symmetry; apply app_nil_r|reflexivity]. Qed.

Lemma avoids_cons_ne x y c t : c <> x -> avoids x y (c :: t) = avoids x y t.
Proof. intros H. apply N.eqb_neq in H. cbn [avoids]. rewrite H. reflexivity. Qed.

Lemma avoids_none x y a : ~ In x a -> avoids x y a = true.
Proof.
  intros H. rewrite <- (app_nil_r a). rewrite avoids_skip by exact H. reflexivity.
Qed.

Lemma plain_no_lt t : plain t -> ~ In 60%N t.
Proof. intros P. apply no_angle_not_in, plain_no_angle, P. Qed.

Lemma plain_no_star_in t : plain t -> ~ In 42%N t.
Proof.
  intros P H. apply in_split in H. destruct H as (a & b & E).
  exact (plain_no_star t a b P E).
Qed.

Lemma avoids_marked : forall ys t,
  Forall plain ys -> avoids 42 42 t = true ->
  avoids 42 42 (join LF (map item_source ys) ++ t) = true.
Proof.
  induction ys as [|y r IH]; intros t F Ht; [exact Ht|].
  inversion F as [|? ? Py Fr]; subst.
  cbn [map]. rewrite join_cons. unfold item_source at 1.
  change (js "* ") with [42; 32]%N. rewrite <- !app_assoc. cbn [app avoids].
  cbn. rewrite avoids_skip by exact (plain_no_star_in y Py).
  destruct r as [|y' r]; [exact Ht|].
  change (avoids 42 42 (10%N :: (join LF (map item_source (y' :: r)) ++ t)) = true).
  rewrite avoids_cons_ne by discriminate. apply IH; assumption.
Qed.

Lemma list_source_no_pair b a ys :
  plain_option b -> plain_option a -> Forall plain ys ->
  ~ bold_pair (line_before b ++ join LF (map item_source ys) ++ line_after a).
Proof.
  intros Pb Pa F (x & t & z & E).
  assert (A : avoids 42 42
                (line_before b ++ join LF (map item_source ys) ++ line_after a) = true).
  { assert (A2 : avoids 42 42 (join LF (map item_source ys) ++ line_after a) = true).
    { apply avoids_marked; [exact F|].
      destruct a as [t0|]; [|reflexivity]. cbn.
      apply avoids_none, plain_no_star_in, Pa. }
    destruct b as [t0|]; [|exact A2]. cbn [line_before]. rewrite <- app_assoc.
    rewrite avoids_skip by exact (plain_no_star_in t0 Pb). cbn. exact A2. }
  rewrite E in A. change (js "**" ++ t ++ js "**" ++ z)
    with (42%N :: 42%N :: t ++ js "**" ++ z) in A.
  rewrite avoids_pair in A. discriminate.
Qed.

Lemma item_list_scan : forall ys p a,
  at_bol flags_gm p = true -> Forall plain ys -> ys <> [] -> plain_option a ->
  replace_scan flags_gm re_item item_tpl 0 p
               (join LF (map item_source ys) ++ line_after a)
  = join LF (map list_item ys) ++ line_after a.
Proof.
  induction ys as [|y r IH]; intros p a Hb F Hne Pa; [congruence|].
  inversion F as [|? ? Py Fr]; subst. cbn [map]. rewrite !join_cons.
  set (z := match map item_source r with
            | [] => []
            | _ :: _ => LF ++ join LF (map item_source r)
            end ++ line_after a).
  assert (Ez : at_eol flags_gm z = true).
  { unfold z. destruct r; [|reflexivity]. destruct a; reflexivity. }
  assert (Es : (item_source y ++
                match map item_source r with
                | [] => []
                | _ :: _ => LF ++ join LF (map item_source r)
                end) ++ line_after a = [42; 32]%N ++ y ++ z).
  { unfold z, item_source. rewrite <- !app_assoc. reflexivity. }
  rewrite Es.
  destruct (replace_scan_behind flags_gm re_item item_tpl p _ _ _
              (exec_item_line p y z Hb Py Ez)) as [p' ->].
  { rewrite !length_app. simpl. lia. }
  unfold subst, item_tpl. cbn [flat_map]. rewrite app_nil_r.
  unfold list_item at 1. rewrite <- !app_assoc. do 3 f_equal.
  unfold z. destruct r as [|y' r].
  - cbn [map app]. destruct a as [t|]; cbn [line_after].
    + unfold LF. cbn [app].
      rewrite replace_scan_copy by (apply exec_item_head; discriminate).
      f_equal. apply scan_plain_end; [apply exec_item_nil|apply exec_item_head|exact Pa].
    + apply replace_scan_end, exec_item_nil.
  - cbn [map]. unfold LF at 1 3. rewrite <- !app_assoc. cbn [app].
    rewrite replace_scan_copy by (apply exec_item_head; discriminate).
    f_equal. apply IH; [reflexivity|exact Fr|discriminate|exact Pa].
Qed.

Lemma item_list_step b a ys :
  plain_option b -> plain_option a -> Forall plain ys -> ys <> [] ->
  replace flags_gm re_item item_tpl
          (line_before b ++ join LF (map item_source ys) ++ line_after a)
  = line_before b ++ join LF (map list_item ys) ++ line_after a.
Proof.
  intros Pb Pa F Hne. unfold replace. destruct b as [t|]; cbn [line_before].
  - rewrite replace_scan_pass.
    + f_equal. change (last_unit None (t ++ LF)) with (last_unit None (t ++ [10%N])).
      rewrite last_unit_snoc. apply item_list_scan; auto.
    + intros x c y E. apply exec_item_head. intros ->.
      assert (H : In 42%N (t ++ LF)) by (rewrite E; apply in_or_app; right; left; reflexivity).
      apply in_app_or in H. destruct H as [H|H].
      * exact (plain_no_star_in t Pb H).
      * simpl in H. intuition discriminate.
  - apply item_list_scan; auto.
Qed.

Lemma join_items_shape ys :
  ys <> [] -> exists m, join LF (map list_item ys) = js "<li>" ++ m ++ js "</li>".
Proof.
  induction ys as [|y r IH]; [congruence|]. intros _.
  cbn [map]. rewrite join_cons. destruct r as [|y' r].
  - exists y. cbn [map]. rewrite app_nil_r. reflexivity.
  - destruct IH as [m E]; [discriminate|]. cbn [map] in *. rewrite E.
    exists (y ++ js "</li>" ++ LF ++ js "<li>" ++ m).
    unfold list_item. rewrite <- !app_assoc. reflexivity.
Qed.

Lemma exec_items_head p c u : c <> 60%N -> exec flags_gs re_items p (c :: u) = None.
Proof.
  intros Hc. no_match exec_items_inv as (E & m & ->). inversion E. congruence.
Qed.

Lemma line_before_no_lt b : plain_option b -> ~ In 60%N (line_before b).
Proof.
  destruct b as [t|]; cbn; [|tauto]. intros P H. apply in_app_or in H.
  destruct H as [H|H]; [exact (plain_no_lt t P H)|simpl in H; intuition discriminate].
Qed.

Lemma line_after_no_lt a : plain_option a -> ~ In 60%N (line_after a).
Proof.
  destruct a as [t|]; cbn; [|tauto]. intros P [H|H]; [discriminate|].
  exact (plain_no_lt t P H).
Qed.

Lemma items_list_step b a ys :
  plain_option b -> plain_option a -> ys <> [] ->
  replace flags_gs re_items items_tpl
          (line_before b ++ join LF (map list_item ys) ++ line_after a)
  = line_before b ++ js "<ul>" ++ join LF (map list_item ys) ++ js "</ul>"
    ++ line_after a.
Proof.
  intros Pb Pa Hne. unfold replace. rewrite replace_scan_pass.
  - f_equal. destruct (join_items_shape ys Hne) as [m E]. rewrite E.
    rewrite <- !app_assoc.
    destruct (replace_scan_behind flags_gs re_items items_tpl
                (last_unit None (line_before b)) _ _ _
                (exec_items_last _ m (line_after a) (line_after_no_lt a Pa)))
      as [p' ->].
    { rewrite !length_app. simpl. lia. }
    unfold subst, items_tpl. cbn [flat_map]. rewrite app_nil_r, <- !app_assoc.
    do 5 f_equal. apply replace_scan_id. intros x y Exy. destruct y as [|c y].
    + no_match exec_items_inv as (E0 & m0 & ->). discriminate.
    + apply exec_items_head. intros ->. apply (line_after_no_lt a Pa).
      rewrite Exy. apply in_or_app. right. left. reflexivity.
  - intros x c y E. apply exec_items_head. intros ->.
    apply (line_before_no_lt b Pb). rewrite E. apply in_or_app. right. left. reflexivity.
Qed.

Lemma break_id t : ~ In 10%N t -> flat_map break_unit t = t.
Proof.
  induction t as [|c t IH]; [reflexivity|]. intros H. cbn [flat_map].
  unfold break_unit at 1. destruct (N.eqb_spec c 10) as [->|_].
  - exfalso. apply H. left. reflexivity.
  - cbn [app]. f_equal. apply IH. intros Hi. apply H. right. exact Hi.
Qed.

Lemma break_join : forall ls,
  Forall (fun l => ~ In 10%N l) ls ->
  flat_map break_unit (join LF ls) = join (js "<br>") ls.
Proof.
  induction ls as [|l r IH]; [reflexivity|]. intros F.
  inversion F as [|? ? Hl Fr]; subst. rewrite !join_cons, flat_map_app, (break_id l Hl).
  f_equal. destruct r as [|l' r]; [reflexivity|].
  rewrite flat_map_app, (IH Fr). reflexivity.
Qed.

Lemma list_item_no_lf y : plain y -> ~ In 10%N (list_item y).
Proof.
  intros P H. unfold list_item in H. apply in_app_or in H. destruct H as [H|H].
  - simpl in H. intuition discriminate.
  - apply in_app_or in H. destruct H as [H|H].
    + exact (plain_no_newline y P H).
    + simpl in H. intuition discriminate.
Qed.

Lemma break_list_step b a ys :
  plain_option b -> plain_option a -> Forall plain ys ->
  replace flags_g (word [10%N]) [Lit (js "<br>")]
          (line_before b ++ js "<ul>" ++ join LF (map list_item ys) ++ js "</ul>"
           ++ line_after a)
  = break_before b ++ js "<ul>" ++ join (js "<br>") (map list_item ys) ++ js "</ul>"
    ++ break_after a.
Proof.
  intros Pb Pa F. unfold replace. rewrite (replace_unit flags_g 10%N (js "<br>")).
  change (flat_map (fun x : N => if (x =? 10)%N then js "<br>" else [x]))
    with (flat_map break_unit).
  rewrite !flat_map_app, break_join.
  - f_equal; [|f_equal; f_equal; f_equal].
    + destruct b as [t|]; [|reflexivity]. cbn [line_before break_before].
      rewrite flat_map_app, (break_id t (plain_no_newline t Pb)). reflexivity.
    + destruct a as [t|]; [|reflexivity]. cbn [line_after break_after].
      rewrite flat_map_app, (break_id t (plain_no_newline t Pa)). reflexivity.
  - apply Forall_map. revert F. apply Forall_impl. exact list_item_no_lf.
Qed.

(** *** The two cleaning steps around a list *)

Lemma scan_word_absent c d w tpl s p :
  avoids c d s = true ->
  (exists a b, c :: w = a ++ c :: d :: b) ->
  replace_scan flags_g (word (c :: w)) tpl 0 p s = s.
Proof.
  intros A (a0 & b0 & Ew). apply replace_scan_id. intros a b E.
  no_match (exec_word_inv flags_g (c :: w)) as [-> _].
  rewrite E, Ew, <- !app_assoc in A. cbn [app] in A.
  rewrite app_assoc in A. rewrite avoids_pair in A. discriminate.
Qed.

Lemma exec_word_head c w p d u :
  d <> c -> exec flags_g (word (c :: w)) p (d :: u) = None.
Proof.
  intros H. apply exec_word_starts. cbn [starts_with].
  apply N.eqb_neq in H. rewrite N.eqb_sym, H. reflexivity.
Qed.

Lemma scan_word_plain w tpl t p x :
  ~ In 60%N t ->
  replace_scan flags_g (word (60%N :: w)) tpl 0 p (t ++ x)
  = t ++ replace_scan flags_g (word (60%N :: w)) tpl 0 (last_unit p t) x.
Proof.
  intros H. apply replace_scan_pass. intros a c b E. apply exec_word_head.
  intros ->. apply H. rewrite E. apply in_or_app. right. left. reflexivity.
Qed.

Lemma scan_word_plain_end w tpl t p :
  ~ In 60%N t -> replace_scan flags_g (word (60%N :: w)) tpl 0 p t = t.
Proof.
  intros H. rewrite <- (app_nil_r t) at 1. rewrite scan_word_plain by exact H.
  rewrite replace_scan_end; [apply app_nil_r|]. apply exec_word_starts. reflexivity.
Qed.

Lemma avoids_list_items : forall ys t,
  Forall plain ys -> avoids 60 117 t = true ->
  avoids 60 117 (join (js "<br>") (map list_item ys) ++ t) = true.
Proof.
  induction ys as [|y r IH]; intros t F Ht; [exact Ht|].
  inversion F as [|? ? Py Fr]; subst. cbn [map]. rewrite join_cons.
  unfold list_item at 1. rewrite <- !app_assoc.
  change (js "<li>") with [60; 108; 105; 62]%N. cbn [app].
  change (avoids 60 117 (60%N :: 108%N :: 105%N :: 62%N :: y ++ js "</li>" ++
            match map list_item r with
            | [] => []
            | _ :: _ => js "<br>" ++ join (js "<br>") (map list_item r)
            end ++ t))
    with (avoids 60 117 ([105; 62]%N ++ y ++ js "</li>" ++
            match map list_item r with
            | [] => []
            | _ :: _ => js "<br>" ++ join (js "<br>") (map list_item r)
            end ++ t)).
  rewrite avoids_skip by (simpl; intuition discriminate).
  rewrite avoids_skip by exact (plain_no_lt y Py).
  change (js "</li>") with ([60; 47]%N ++ [108; 105; 62]%N). rewrite <- app_assoc.
  change (avoids 60 117 ([60; 47]%N ++ [108; 105; 62]%N ++
            match map list_item r with
            | [] => []
            | _ :: _ => js "<br>" ++ join (js "<br>") (map list_item r)
            end ++ t))
    with (avoids 60 117 ([108; 105; 62]%N ++
            match map list_item r with
            | [] => []
            | _ :: _ => js "<br>" ++ join (js "<br>") (map list_item r)
            end ++ t)).
  rewrite avoids_skip by (simpl; intuition discriminate).
  destruct r as [|y' r]; [exact Ht|]. cbn [map] in *. rewrite <- app_assoc.
  change (avoids 60 117 (js "<br>" ++
            join (js "<br>") (list_item y' :: map list_item r) ++ t))
    with (avoids 60 117 (js "r>" ++
            join (js "<br>") (list_item y' :: map list_item r) ++ t)).
  rewrite avoids_skip by (simpl; intuition discriminate).
  apply IH; assumption.
Qed.

Lemma clean_before_step b a ys :
  plain_option b -> plain_option a -> Forall plain ys ->
  replace flags_g (word (js "<br><ul>")) [Lit (js "<ul>")]
          (break_before b ++ js "<ul>" ++ join (js "<br>") (map list_item ys)
           ++ js "</ul>" ++ break_after a)
  = option_text b ++ js "<ul>" ++ join (js "<br>") (map list_item ys)
    ++ js "</ul>" ++ break_after a.
Proof.
  intros Pb Pa F. unfold replace.
  set (R := join (js "<br>") (map list_item ys) ++ js "</ul>" ++ break_after a).
  assert (A : avoids 60 117 R = true).
  { unfold R. apply avoids_list_items; [exact F|].
    change (js "</ul>") with ([60; 47]%N ++ js "ul>").
    rewrite <- app_assoc.
    change (avoids 60 117 ([60; 47]%N ++ js "ul>" ++ break_after a))
      with (avoids 60 117 (js "ul>" ++ break_after a)).
    rewrite avoids_skip by (simpl; intuition discriminate).
    destruct a as [t|]; [|reflexivity]. cbn [break_after].
    change (avoids 60 117 (js "<br>" ++ t)) with (avoids 60 117 (js "r>" ++ t)).
    rewrite avoids_skip by (simpl; intuition discriminate).
    apply avoids_none, plain_no_lt, Pa. }
  assert (W : exists x y, js "<br><ul>" = x ++ 60%N :: 117%N :: y).
  { exists (js "<br>"), (js "l>"). reflexivity. }
  destruct b as [t|]; cbn [break_before option_text].
  - rewrite <- !app_assoc.
    rewrite (scan_word_plain (tl (js "<br><ul>")) _ t None _ (plain_no_lt t Pb)).
    f_equal.
    destruct (replace_scan_behind flags_g (word (js "<br><ul>")) [Lit (js "<ul>")]
                (last_unit None t) (js "<br><ul>" ++ R) [] R
                (exec_word flags_g (js "<br><ul>") _ R)) as [p' E].
    { rewrite length_app. simpl. lia. }
    change (js "<br>" ++ js "<ul>" ++ R) with (js "<br><ul>" ++ R).
    change (word (60%N :: tl (js "<br><ul>"))) with (word (js "<br><ul>")).
    rewrite E. unfold subst. cbn [flat_map]. rewrite app_nil_r. f_equal.
    apply (scan_word_absent 60%N 117%N (tl (js "<br><ul>")) _ R p' A W).
  - change (js "<ul>" ++ R) with (60%N :: (js "ul>" ++ R)). cbn [app].
    rewrite replace_scan_copy by (apply exec_word_starts; reflexivity).
    f_equal.
    apply (scan_word_absent 60%N 117%N (tl (js "<br><ul>")) _ _ _); [|exact W].
    rewrite avoids_skip by (simpl; intuition discriminate). exact A.
Qed.

Ltac copy_unit :=
  rewrite replace_scan_copy by (apply exec_word_starts; reflexivity).

Lemma clean_items_scan tpl : forall ys p x,
  Forall plain ys ->
  exists p',
    replace_scan flags_g (word (js "</ul><br>")) tpl 0 p
                 (join (js "<br>") (map list_item ys) ++ x)
    = join (js "<br>") (map list_item ys)
      ++ replace_scan flags_g (word (js "</ul><br>")) tpl 0 p' x.
Proof.
  induction ys as [|y r IH]; intros p x F; [exists p; reflexivity|].
  inversion F as [|? ? Py Fr]; subst. cbn [map]. rewrite join_cons.
  set (tail := match map list_item r with
               | [] => []
               | _ :: _ => js "<br>" ++ join (js "<br>") (map list_item r)
               end).
  assert (T : exists p',
             replace_scan flags_g (word (js "</ul><br>")) tpl 0 (Some 62%N) (tail ++ x)
             = tail ++ replace_scan flags_g (word (js "</ul><br>")) tpl 0 p' x).
  { unfold tail. destruct r as [|y' r]; [eexists; reflexivity|].
    cbn [map] in *. rewrite <- !app_assoc.
    change (js "<br>" ++ join (js "<br>") (list_item y' :: map list_item r) ++ x)
      with (60%N :: 98%N :: 114%N :: 62%N
            :: join (js "<br>") (list_item y' :: map list_item r) ++ x).
    do 4 copy_unit.
    destruct (IH (Some 62%N) x Fr) as [p' E].
    change (word (60%N :: tl (js "</ul><br>"))) with (word (js "</ul><br>")).
    rewrite E. exists p'. reflexivity. }
  destruct T as [p' T]. exists p'.
  assert (E0 : list_item y ++ tail
               = [60; 108; 105; 62]%N ++ y ++ [60; 47; 108; 105; 62]%N ++ tail).
  { unfold list_item. rewrite <- !app_assoc. reflexivity. }
  rewrite E0, <- !app_assoc. cbn [app]. do 4 copy_unit.
  rewrite (scan_word_plain (tl (js "</ul><br>")) tpl y _ _ (plain_no_lt y Py)).
  cbn [app]. do 5 copy_unit.
  change (word (60%N :: tl (js "</ul><br>"))) with (word (js "</ul><br>")).
  rewrite T. reflexivity.
Qed.

Lemma clean_after_step b a ys :
  plain_option b -> plain_option a -> Forall plain ys ->
  replace flags_g (word (js "</ul><br>")) [Lit (js "</ul>")]
          (option_text b ++ js "<ul>" ++ join (js "<br>") (map list_item ys)
           ++ js "</ul>" ++ break_after a)
  = option_text b ++ js "<ul>" ++ join (js "<br>") (map list_item ys)
    ++ js "</ul>" ++ option_text a.
Proof.
  intros Pb Pa F. unfold replace.
  assert (Nb : ~ In 60%N (option_text b)).
  { destruct b as [t|]; [exact (plain_no_lt t Pb)|simpl; tauto]. }
  rewrite (scan_word_plain (tl (js "</ul><br>")) _ _ None _ Nb). f_equal.
  change (js "<ul>") with [60; 117; 108; 62]%N. cbn [app]. do 4 copy_unit.
  do 4 f_equal.
  destruct (clean_items_scan [Lit (js "</ul>")] ys (Some 62%N)
              (js "</ul>" ++ break_after a) F) as [p' E].
  change (word (60%N :: tl (js "</ul><br>"))) with (word (js "</ul><br>")).
  rewrite E. f_equal. destruct a as [t|]; cbn [break_after option_text].
  - destruct (replace_scan_behind flags_g (word (js "</ul><br>")) [Lit (js "</ul>")]
                p' (js "</ul><br>" ++ t) [] t
                (exec_word flags_g (js "</ul><br>") _ t)) as [q E2].
    { rewrite length_app. simpl. lia. }
    change (js "</ul>" ++ js "<br>" ++ t) with (js "</ul><br>" ++ t).
    rewrite E2. unfold subst. cbn [flat_map]. rewrite app_nil_r. f_equal.
    apply (scan_word_plain_end (tl (js "</ul><br>"))), plain_no_lt, Pa.
  - rewrite app_nil_r. change (js "</ul>") with [60; 47; 117; 108; 62]%N.
    do 5 copy_unit. reflexivity.
Qed.

(** *** The list as a whole *)

Lemma escape_line_plain x : text_line x -> plain (flat_map escape_unit x).
Proof.
  unfold text_line, plain. rewrite !forallb_forall. intros H c Hc.
  apply in_flat_map in Hc. destruct Hc as (d & Hd & Hc).
  apply H in Hd. apply andb_prop in Hd. destruct Hd as [H1 H2].
  unfold escape_unit in Hc.
  destruct (N.eqb_spec d 60);
    [simpl in Hc; repeat (destruct Hc as [<-|Hc]; [reflexivity|]); contradiction|].
  destruct (N.eqb_spec d 62);
    [simpl in Hc; repeat (destruct Hc as [<-|Hc]; [reflexivity|]); contradiction|].
  destruct Hc as [<-|[]]. unfold plain_unit, is_angle.
  apply N.eqb_neq in n, n0. rewrite n, n0, H1, H2. reflexivity.
Qed.

Lemma escape_join : forall l,
  flat_map escape_unit (join LF l) = join LF (map (flat_map escape_unit) l).
Proof.
  induction l as [|x r IH]; [reflexivity|]. cbn [map]. rewrite !join_cons, flat_map_app.
  f_equal. destruct r as [|x' r]; [reflexivity|]. cbn [map] in *.
  rewrite flat_map_app, IH. reflexivity.
Qed.

Lemma escape_list_source b a xs :
  flat_map escape_unit (line_before b ++ join LF (map item_source xs) ++ line_after a)
  = line_before (option_map (flat_map escape_unit) b)
    ++ join LF (map item_source (map (flat_map escape_unit) xs))
    ++ line_after (option_map (flat_map escape_unit) a).
Proof.
  rewrite !flat_map_app, escape_join, !map_map.
  assert (Eb : flat_map escape_unit (line_before b)
               = line_before (option_map (flat_map escape_unit) b)).
  { destruct b as [t|]; [|reflexivity]. cbn. rewrite flat_map_app. reflexivity. }
  assert (Ea : flat_map escape_unit (line_after a)
               = line_after (option_map (flat_map escape_unit) a)).
  { destruct a as [t|]; reflexivity. }
  assert (Ex : map (fun x => flat_map escape_unit (item_source x)) xs
               = map (fun x => item_source (flat_map escape_unit x)) xs).
  { apply map_ext. intros x. unfold item_source. rewrite flat_map_app. reflexivity. }
  rewrite Eb, Ea, Ex. reflexivity.
Qed.

(** X3: a run of lines that begin with an asterisk and a space, with at
    most one line of text before it and one behind it, becomes one list
    container: its items are the escaped lines, with [<br>] between them,
    and the text around it stands next to the container without a [<br>]. *)
Theorem formatGeminiResponse_list b a xs :
  optional_line b -> optional_line a -> Forall text_line xs -> xs <> [] ->
  formatGeminiResponse
    (line_before b ++ join LF (map item_source xs) ++ line_after a)
  = escaped_line b ++ js "<ul>" ++ join (js "<br>") (map item_html xs)
    ++ js "</ul>" ++ escaped_line a.
Proof.
  intros Hb Ha F Hne.
  set (b' := option_map (flat_map escape_unit) b).
  set (a' := option_map (flat_map escape_unit) a).
  set (ys := map (flat_map escape_unit) xs).
  assert (Pb : plain_option b').
  { destruct b; [apply escape_line_plain, Hb|exact I]. }
  assert (Pa : plain_option a').
  { destruct a; [apply escape_line_plain, Ha|exact I]. }
  assert (Fy : Forall plain ys).
  { apply Forall_map. revert F. apply Forall_impl. exact escape_line_plain. }
  assert (Ny : ys <> []) by (unfold ys; destruct xs; [congruence|discriminate]).
  rewrite formatGeminiResponse_steps, escape_list_source. fold b' a' ys.
  unfold markup. fold bold_tpl item_tpl items_tpl.
  rewrite (bold_id _ _ (list_source_no_pair b' a' ys Pb Pa Fy)).
  rewrite (item_list_step b' a' ys Pb Pa Fy Ny).
  rewrite (items_list_step b' a' ys Pb Pa Ny).
  rewrite (break_list_step b' a' ys Pb Pa Fy).
  rewrite (clean_before_step b' a' ys Pb Pa Fy).
  rewrite (clean_after_step b' a' ys Pb Pa Fy).
  unfold ys. rewrite map_map.
  destruct b, a; reflexivity.
Qed.

Lemma formatGeminiResponse_list_witness :
  let b := Some (js "To buy:") in
  let a := Some (js "<soon>") in
  let xs := [js "milk"; js "eggs & ham"] in
  optional_line b /\ optional_line a /\ Forall text_line xs /\ xs <> [] /\
  formatGeminiResponse
    (js "To buy:" ++ LF ++ js "* milk" ++ LF ++ js "* eggs & ham" ++ LF ++ js "<soon>")
  = js "To buy:<ul><li>milk</li><br><li>eggs & ham</li></ul>&lt;soon&gt;".
Proof.
  intros b a xs.
  assert (Hb : optional_line b) by reflexivity.
  assert (Ha : optional_line a) by reflexivity.
  assert (F : Forall text_line xs) by (repeat constructor).
  assert (Hne : xs <> []) by discriminate.
  split; [exact Hb|]. split; [exact Ha|]. split; [exact F|]. split; [exact Hne|].
  exact (formatGeminiResponse_list b a xs Hb Ha F Hne).
Defined.

(** *** Nothing from something *)

Lemma replace_scan_nonempty f r lit tpl p c t :
  lit <> [] -> replace_scan f r (Lit lit :: tpl) 0 p (c :: t) <> [].
Proof.
  intros Hl. cbn [replace_scan].
  destruct (exec f r p (c :: t)) as [[g s']|]; [|discriminate].
  unfold subst. cbn [flat_map]. destruct lit; [congruence|discriminate].
Qed.

Lemma replace_nonempty f r lit tpl s :
  lit <> [] -> s <> [] -> replace f r (Lit lit :: tpl) s <> [].
Proof.
  intros Hl Hs. destruct s as [|c t]; [congruence|].
  apply replace_scan_nonempty, Hl.
Qed.

(** X13: the formatter returns the empty string for the empty string
    only. *)
Theorem formatGeminiResponse_empty_only s :
  formatGeminiResponse s = [] <-> s = [].
Proof.
  split; [|intros ->; reflexivity].
  intros H. destruct s as [|c t]; [reflexivity|]. exfalso. revert H.
  unfold formatGeminiResponse.
  repeat (apply replace_nonempty; [discriminate|]). discriminate.
Qed.

(** *** A pair over two lines *)

Lemma exec_bold_line_end p u c z :
  plain u -> is_line_terminator c = true ->
  exec flags_g re_bold p (js "**" ++ u ++ c :: z) = None.
Proof.
  intros Pu Hc. no_match exec_bold_inv as [E Hg].
  change (js "**" ++ u ++ c :: z) with (42%N :: 42%N :: u ++ c :: z) in E.
  inversion E as [E']. clear E. apply app_eq_app in E'.
  destruct E' as [x [[E1 E2]|[E1 E2]]].
  - destruct x as [|d x].
    + simpl in E2. inversion E2. subst c. discriminate.
    + simpl in E2. inversion E2; subst d.
      apply (plain_no_star u l x Pu). exact E1.
  - destruct x as [|d x].
    + simpl in E2. inversion E2. subst c. discriminate.
    + simpl in E2. inversion E2; subst d. rewrite E1, forallb_app in Hg.
      apply andb_prop in Hg. destruct Hg as [_ Hg]. simpl in Hg.
      rewrite Hc in Hg. discriminate.
Qed.

Lemma bold_unclosed_scan p0 v q :
  plain v -> plain q ->
  replace_scan flags_g re_bold bold_tpl 0 p0 (v ++ js "**" ++ q)
  = v ++ js "**" ++ q.
Proof.
  intros Pv Pq. rewrite (bold_pass v p0 _ Pv). f_equal.
  change (js "**" ++ q) with (42 :: 42 :: q)%N.
  rewrite replace_scan_copy.
  - rewrite replace_scan_copy.
    + do 2 f_equal. apply scan_plain_end;
        [apply exec_bold_nil|apply exec_bold_head|exact Pq].
    + no_match exec_bold_inv as [E _]. inversion E as [E'].
      exact (plain_no_star q [] _ Pq E').
  - no_match exec_bold_inv as [E _]. inversion E as [E'].
    exact (plain_no_star q _ _ Pq E').
Qed.

Lemma item_pass t p0 x :
  plain t ->
  replace_scan flags_gm re_item item_tpl 0 p0 (t ++ x)
  = t ++ replace_scan flags_gm re_item item_tpl 0 (last_unit p0 t) x.
Proof.
  intros P. apply replace_scan_pass. intros a c b E. apply exec_item_head.
  intros ->. exact (plain_no_star t a b P E).
Qed.

(** Two asterisks in a row start no list item. *)
Lemma item_two_stars p0 x :
  replace_scan flags_gm re_item item_tpl 0 p0 (js "**" ++ x)
  = js "**" ++ replace_scan flags_gm re_item item_tpl 0 (Some 42%N) x.
Proof.
  change (js "**" ++ x) with (42 :: 42 :: x)%N.
  rewrite replace_scan_copy.
  - rewrite replace_scan_copy; [reflexivity|].
    no_match exec_item_inv as (Hb & _). discriminate.
  - no_match exec_item_inv as (_ & E & _). discriminate.
Qed.

(** X14: a [**] pair whose text runs over a line feed is not made bold:
    both [**] stay, and the line feed becomes [<br>]. *)
Theorem formatGeminiResponse_bold_not_over_lines p u v q :
  plain p -> plain u -> plain v -> plain q ->
  formatGeminiResponse (p ++ js "**" ++ u ++ LF ++ v ++ js "**" ++ q)
  = p ++ js "**" ++ u ++ js "<br>" ++ v ++ js "**" ++ q.
Proof.
  intros Pp Pu Pv Pq.
  set (s := p ++ js "**" ++ u ++ LF ++ v ++ js "**" ++ q).
  assert (Ha : no_angle s).
  { unfold s, no_angle. rewrite !forallb_app.
    rewrite (plain_no_angle p Pp), (plain_no_angle u Pu),
            (plain_no_angle v Pv), (plain_no_angle q Pq). reflexivity. }
  assert (Eb : replace flags_g re_bold bold_tpl s = s).
  { unfold replace, s. rewrite (bold_pass p None _ Pp). f_equal.
    change (js "**" ++ u ++ LF ++ v ++ js "**" ++ q)
      with (42%N :: 42%N :: u ++ 10%N :: v ++ js "**" ++ q).
    rewrite replace_scan_copy
      by (apply (exec_bold_line_end _ u 10%N _ Pu); reflexivity).
    rewrite replace_scan_copy.
    - do 2 f_equal. rewrite (bold_pass u _ _ Pu). f_equal.
      rewrite replace_scan_copy by (apply exec_bold_head; discriminate).
      f_equal. apply bold_unclosed_scan; assumption.
    - no_match exec_bold_inv as [E _]. inversion E as [E'].
      destruct u as [|d u]; [discriminate|]. inversion E'; subst d.
      exact (plain_no_star _ [] _ Pu eq_refl). }
  assert (Ei : replace flags_gm re_item item_tpl s = s).
  { unfold replace, s. rewrite (item_pass p None _ Pp). f_equal.
    rewrite item_two_stars. f_equal. rewrite (item_pass u _ _ Pu). f_equal.
    unfold LF. cbn [app].
    rewrite replace_scan_copy by (apply exec_item_head; discriminate). f_equal.
    rewrite (item_pass v _ _ Pv). f_equal. rewrite item_two_stars. f_equal.
    apply scan_plain_end; [apply exec_item_nil|apply exec_item_head|exact Pq]. }
  rewrite formatGeminiResponse_steps, (escape_id s Ha). unfold markup.
  fold bold_tpl item_tpl. rewrite Eb, Ei, (items_id _ _ Ha).
  unfold replace at 3. rewrite (replace_unit flags_g 10%N (js "<br>")).
  change (flat_map (fun x : N => if (x =? 10)%N then js "<br>" else [x]))
    with (flat_map break_unit).
  assert (Et : flat_map break_unit s
               = (p ++ js "**" ++ u) ++ js "<br>" ++ v ++ js "**" ++ q).
  { unfold s. rewrite !flat_map_app.
    rewrite (break_id p (plain_no_newline p Pp)), (break_id u (plain_no_newline u Pu)),
            (break_id v (plain_no_newline v Pv)), (break_id q (plain_no_newline q Pq)).
    rewrite <- !app_assoc. reflexivity. }
  rewrite Et.
  assert (Nh : ~ In 60%N (p ++ js "**" ++ u)).
  { intros H. apply in_app_or in H. destruct H as [H|H]; [exact (plain_no_lt p Pp H)|].
    apply in_app_or in H. destruct H as [H|H]; [simpl in H; intuition discriminate|].
    exact (plain_no_lt u Pu H). }
  assert (Nt : ~ In 60%N (v ++ js "**" ++ q)).
  { intros H. apply in_app_or in H. destruct H as [H|H]; [exact (plain_no_lt v Pv H)|].
    apply in_app_or in H. destruct H as [H|H]; [simpl in H; intuition discriminate|].
    exact (plain_no_lt q Pq H). }
  assert (Av : forall y, y <> 98%N ->
             avoids 60 y ((p ++ js "**" ++ u) ++ js "<br>" ++ v ++ js "**" ++ q) = true).
  { intros y Hy. rewrite avoids_skip by exact Nh.
    change (js "<br>" ++ v ++ js "**" ++ q)
      with (60%N :: 98%N :: js "r>" ++ v ++ js "**" ++ q).
    cbn [avoids]. apply N.eqb_neq in Hy. rewrite (N.eqb_sym 98 y), Hy.
    rewrite N.eqb_refl. cbn [andb negb].
    change (98%N :: js "r>" ++ v ++ js "**" ++ q)
      with (js "br>" ++ v ++ js "**" ++ q).
    rewrite avoids_skip by (simpl; intuition discriminate).
    apply avoids_none, Nt. }
  rewrite (word_absent 60%N 117%N (tl (js "<br><ul>")));
    [|apply Av; discriminate|exists (js "<br>"), (js "l>"); reflexivity].
  rewrite (word_absent 60%N 47%N (tl (js "</ul><br>")));
    [|apply Av; discriminate|exists [], (js "ul><br>"); reflexivity].
  rewrite <- !app_assoc. reflexivity.
Qed.

Lemma formatGeminiResponse_bold_not_over_lines_witness :
  plain (js "a ") /\ plain (js "b") /\ plain (js "c") /\ plain (js " d") /\
  formatGeminiResponse (js "a **b" ++ LF ++ js "c** d") = js "a **b<br>c** d".
Proof.
  split; [reflexivity|]. split; [reflexivity|]. split; [reflexivity|].
  split; [reflexivity|].
  exact (formatGeminiResponse_bold_not_over_lines (js "a ") (js "b") (js "c") (js " d")
           eq_refl eq_refl eq_refl eq_refl).
Defined.

(** ** Bold parts in text of many lines *)

Lemma tame_split : forall a t b,
  tame t = true -> t = a ++ 42%N :: b ->
  exists d b', b = d :: b' /\ d <> 42%N /\ d <> 32%N.
Proof.
  induction a as [|x a IH]; intros t b T E; subst t.
  - cbn [app tame] in T. rewrite N.eqb_refl in T.
    destruct b as [|d b']; [discriminate|].
    apply andb_prop in T. destruct T as [T _].
    apply andb_prop in T. destruct T as [T1 T2].
    apply negb_true_iff in T1, T2. apply N.eqb_neq in T1, T2.
    exists d, b'. auto.
  - cbn [app tame] in T. apply andb_prop in T. destruct T as [_ T].
    exact (IH _ b T eq_refl).
Qed.

Lemma tame_cons_ne c t : c <> 42%N -> tame (c :: t) = tame t.
Proof. intros H. cbn [tame]. apply N.eqb_neq in H. rewrite H. reflexivity. Qed.

Lemma escape_unit_head d :
  exists e r, escape_unit d = e :: r /\ (d <> 42%N -> e <> 42%N) /\
              (d <> 32%N -> e <> 32%N) /\ ~ In 42%N r.
Proof.
  unfold escape_unit.
  destruct (N.eqb_spec d 60);
    [exists 38%N, (js "lt;"); repeat split; try discriminate;
     simpl; intuition discriminate|].
  destruct (N.eqb_spec d 62);
    [exists 38%N, (js "gt;"); repeat split; try discriminate;
     simpl; intuition discriminate|].
  exists d, []. repeat split; auto.
Qed.

Lemma tame_no_star r t : ~ In 42%N r -> tame (r ++ t) = tame t.
Proof.
  induction r as [|c r IH]; [reflexivity|]. intros H.
  change ((c :: r) ++ t) with (c :: r ++ t). rewrite tame_cons_ne.
  - apply IH. intros Hi. apply H. right. exact Hi.
  - intros ->. apply H. left. reflexivity.
Qed.

Lemma tame_escape t : tame t = true -> tame (flat_map escape_unit t) = true.
Proof.
  induction t as [|c t IH]; [reflexivity|]. intros T.
  pose proof T as T'. cbn [tame] in T'. apply andb_prop in T'.
  destruct T' as [Tc Tt]. specialize (IH Tt). cbn [flat_map].
  destruct (N.eqb_spec c 42) as [->|Hc].
  - change (escape_unit 42%N) with [42%N]. cbn [app tame].
    rewrite N.eqb_refl, IH, andb_true_r.
    destruct t as [|d t]; [discriminate|].
    apply andb_prop in Tc. destruct Tc as [T1 T2].
    apply negb_true_iff in T1, T2. apply N.eqb_neq in T1, T2.
    cbn [flat_map]. destruct (escape_unit_head d) as (e & r & -> & H1 & H2 & _).
    cbn [app]. specialize (H1 T1). specialize (H2 T2).
    apply N.eqb_neq in H1, H2. rewrite H1, H2. reflexivity.
  - destruct (escape_unit_head c) as (e & r & -> & H1 & _ & Hr).
    cbn [app]. rewrite (tame_cons_ne e _ (H1 Hc)), (tame_no_star r _ Hr). exact IH.
Qed.

Lemma one_line_app a b : one_line (a ++ b) = one_line a && one_line b.
Proof. apply forallb_app. Qed.

Lemma one_line_escape t : one_line t = true -> one_line (flat_map escape_unit t) = true.
Proof.
  induction t as [|c t IH]; [reflexivity|]. intros H.
  cbn [one_line forallb] in H. apply andb_prop in H. destruct H as [Hc Ht].
  cbn [flat_map]. rewrite one_line_app, (IH Ht), andb_true_r.
  unfold escape_unit. destruct (c =? 60)%N; [reflexivity|].
  destruct (c =? 62)%N; [reflexivity|]. cbn [one_line forallb]. rewrite Hc. reflexivity.
Qed.

Lemma one_line_in t c : one_line t = true -> In c t -> is_line_terminator c = false.
Proof.
  intros H Hc. unfold one_line in H. rewrite forallb_forall in H.
  apply negb_true_iff. exact (H c Hc).
Qed.

Lemma rich_escape g : rich g -> rich (escape_segment g).
Proof.
  destruct g as [t|t]; cbn [rich escape_segment].
  - apply tame_escape.
  - intros [T L]. split; [apply tame_escape, T|apply one_line_escape, L].
Qed.

Lemma escape_segments segs :
  flat_map escape_unit (flat_map segment_source segs)
  = flat_map segment_source (map escape_segment segs).
Proof.
  induction segs as [|g segs IH]; [reflexivity|].
  cbn [flat_map map]. rewrite flat_map_app, IH. f_equal.
  destruct g as [t|t]; [reflexivity|]. cbn [segment_source escape_segment].
  rewrite !flat_map_app. reflexivity.
Qed.

(** *** The bold step *)

(** A pair around tame text of one line is matched whole, whatever comes
    behind it. *)
Lemma exec_bold_tame p t x :
  tame t = true -> one_line t = true ->
  exec flags_g re_bold p (js "**" ++ t ++ js "**" ++ x) = Some (t, x).
Proof.
  intros T L. unfold exec, re_bold. change (js "**") with [42; 42]%N.
  cbn [run rest prev cap app]. rewrite N.eqb_refl.
  rewrite star_lazy_pass.
  - erewrite star_lazy_here
      by (cbn [rest]; rewrite !N.eqb_refl; cbn [rest];
          rewrite firstn_consumed; reflexivity).
    reflexivity.
  - apply forallb_forall. intros c Hc. unfold dot_ok.
    rewrite (one_line_in t c L Hc). reflexivity.
  - intros a c b E. cbn [rest].
    destruct (N.eqb_spec c 42) as [->|]; [|reflexivity].
    destruct (tame_split a t b T E) as (d & b' & -> & Hd & _).
    cbn [app]. apply N.eqb_neq in Hd. rewrite Hd. reflexivity.
Qed.

(** No pair opens in tame text. *)
Lemma bold_pass_tame t p x :
  tame t = true ->
  replace_scan flags_g re_bold bold_tpl 0 p (t ++ x)
  = t ++ replace_scan flags_g re_bold bold_tpl 0 (last_unit p t) x.
Proof.
  intros T. apply replace_scan_pass. intros a c b E.
  destruct (N.eq_dec c 42) as [->|Hc]; [|apply exec_bold_head, Hc].
  destruct (tame_split a t b T E) as (d & b' & -> & Hd & _).
  no_match exec_bold_inv as [E' _]. inversion E'. congruence.
Qed.

Lemma bold_rich : forall segs p,
  Forall rich segs ->
  replace_scan flags_g re_bold bold_tpl 0 p (flat_map segment_source segs)
  = flat_map segment_html segs.
Proof.
  induction segs as [|g segs IH]; intros p F.
  - apply replace_scan_end, exec_bold_nil.
  - inversion F as [|? ? Pg Fs]; subst. cbn [flat_map].
    destruct g as [t|t]; cbn [segment_source segment_html rich] in *.
    + rewrite (bold_pass_tame t p _ Pg). f_equal. apply IH, Fs.
    + destruct Pg as [T L]. rewrite <- !app_assoc.
      destruct (replace_scan_behind flags_g re_bold bold_tpl p _ t
                  (flat_map segment_source segs)
                  (exec_bold_tame p t _ T L)) as [p' ->].
      * rewrite !length_app. simpl. lia.
      * rewrite (IH p' Fs). unfold subst, bold_tpl. cbn [flat_map].
        rewrite app_nil_r, <- !app_assoc. reflexivity.
Qed.

(** *** The steps behind the bold step, where they find nothing *)

Lemma tame_avoids y b : forall t,
  tame t = true -> y = 32%N \/ y = 42%N ->
  avoids 42 y (t ++ b) = avoids 42 y b.
Proof.
  intros t T Hy. induction t as [|c t IH]; [reflexivity|].
  pose proof T as T'. cbn [tame] in T'. apply andb_prop in T'.
  destruct T' as [Tc Tt]. specialize (IH Tt).
  change ((c :: t) ++ b) with (c :: t ++ b).
  destruct (N.eqb_spec c 42) as [->|Hc]; [|rewrite avoids_cons_ne; assumption].
  destruct t as [|d t]; [discriminate|].
  apply andb_prop in Tc. destruct Tc as [T1 T2].
  apply negb_true_iff in T1, T2.
  change (avoids 42 y (42%N :: (d :: t) ++ b))
    with (negb ((42 =? 42)%N && (d =? y)%N) && avoids 42 y ((d :: t) ++ b)).
  rewrite IH. destruct Hy; subst y; rewrite ?T1, ?T2; reflexivity.
Qed.

Lemma escape_no_lt t : ~ In 60%N (flat_map escape_unit t).
Proof. apply no_angle_not_in, escape_no_angle. Qed.

(** Behind the bold step no asterisk has a space behind it. *)
Lemma bold_html_avoids_item segs :
  Forall rich segs -> avoids 42 32 (flat_map segment_html segs) = true.
Proof.
  induction 1 as [|g segs Pg _ IH]; [reflexivity|]. cbn [flat_map].
  destruct g as [t|t]; cbn [segment_html rich] in *.
  - rewrite tame_avoids; auto.
  - destruct Pg as [T _]. rewrite <- !app_assoc.
    change (avoids 42 32 (js "<strong>" ++ t ++ js "</strong>" ++ flat_map segment_html segs))
      with (avoids 42 32 (t ++ js "</strong>" ++ flat_map segment_html segs)).
    rewrite tame_avoids; auto.
Qed.

Lemma avoids_cons_pair x y d t :
  d <> y -> avoids x y (x :: d :: t) = avoids x y (d :: t).
Proof.
  intros H. apply N.eqb_neq in H.
  change (avoids x y (x :: d :: t))
    with (negb ((x =? x)%N && (d =? y)%N) && avoids x y (d :: t)).
  rewrite H, andb_false_r. reflexivity.
Qed.

Lemma avoids_open y z :
  y <> 115%N -> avoids 60 y (js "<strong>" ++ z) = avoids 60 y z.
Proof.
  intros H.
  change (js "<strong>" ++ z)
    with (60 :: 115 :: 116 :: 114 :: 111 :: 110 :: 103 :: 62 :: z)%N.
  rewrite avoids_cons_pair by congruence.
  repeat (rewrite avoids_cons_ne by discriminate). reflexivity.
Qed.

Lemma avoids_close y z :
  y <> 47%N -> avoids 60 y (js "</strong>" ++ z) = avoids 60 y z.
Proof.
  intros H.
  change (js "</strong>" ++ z)
    with (60 :: 47 :: 115 :: 116 :: 114 :: 111 :: 110 :: 103 :: 62 :: z)%N.
  rewrite avoids_cons_pair by congruence.
  repeat (rewrite avoids_cons_ne by discriminate). reflexivity.
Qed.

(** Behind the bold step of escaped text [<] opens a [<strong>] or a
    [</strong>] only. *)
Lemma bold_html_avoids_lt y segs :
  y <> 115%N -> y <> 47%N ->
  avoids 60 y (flat_map segment_html (map escape_segment segs)) = true.
Proof.
  intros H1 H2.
  induction segs as [|g segs IH]; [reflexivity|]. cbn [flat_map map].
  destruct g as [t|t]; cbn [segment_html escape_segment].
  - rewrite avoids_skip; [exact IH|apply escape_no_lt].
  - rewrite <- !app_assoc. rewrite (avoids_open y _ H1).
    rewrite avoids_skip by apply escape_no_lt.
    rewrite (avoids_close y _ H2). exact IH.
Qed.

Lemma item_absent tpl s : avoids 42 32 s = true -> replace flags_gm re_item tpl s = s.
Proof.
  intros A. apply item_id. intros (a & b & _ & E). rewrite E in A.
  change (js "* " ++ b) with (42%N :: 32%N :: b) in A.
  rewrite avoids_pair in A. discriminate.
Qed.

Lemma items_absent tpl s : avoids 60 108 s = true -> replace flags_gs re_items tpl s = s.
Proof.
  intros A. apply replace_scan_id. intros a b E.
  no_match exec_items_inv as (-> & m & ->).
  rewrite E, <- !app_assoc in A.
  change (js "<li>" ++ m ++ js "</li>" ++ l0)
    with (60%N :: 108%N :: js "i>" ++ m ++ js "</li>" ++ l0) in A.
  rewrite avoids_pair in A. discriminate.
Qed.

Lemma render_one_line t :
  ~ In 10%N t -> flat_map render_unit t = flat_map escape_unit t.
Proof.
  induction t as [|c t IH]; [reflexivity|]. intros H. cbn [flat_map].
  rewrite IH by (intros Hi; apply H; right; exact Hi). f_equal.
  unfold render_unit. destruct (N.eqb_spec c 10) as [->|]; [|reflexivity].
  exfalso. apply H. left. reflexivity.
Qed.

Lemma one_line_no_lf t : one_line t = true -> ~ In 10%N t.
Proof. intros L H. apply (one_line_in t _ L) in H. discriminate. Qed.

(** The line feeds behind the bold step. *)
Lemma break_rich segs :
  Forall rich segs ->
  flat_map break_unit (flat_map segment_html (map escape_segment segs))
  = flat_map segment_output segs.
Proof.
  induction 1 as [|g segs Pg _ IH]; [reflexivity|]. cbn [flat_map map].
  rewrite flat_map_app, IH. f_equal.
  destruct g as [t|t]; cbn [segment_html escape_segment segment_output rich] in *.
  - apply break_escape.
  - destruct Pg as [_ L]. unfold strong_element.
    rewrite !flat_map_app, break_escape, (render_one_line t (one_line_no_lf t L)).
    reflexivity.
Qed.

Lemma render_avoids_behind y b : forall s,
  y = 117%N \/ y = 47%N ->
  avoids 60 y (flat_map render_unit s ++ b) = avoids 60 y b.
Proof.
  intros s Hy.
  induction s as [|c s IH]; [reflexivity|]. cbn [flat_map]. rewrite <- app_assoc.
  unfold render_unit, escape_unit.
  destruct (N.eqb_spec c 10); [destruct Hy; subst y; exact IH|].
  destruct (N.eqb_spec c 60); [exact IH|].
  destruct (N.eqb_spec c 62); [exact IH|].
  cbn [app]. rewrite avoids_cons_ne; assumption.
Qed.

Lemma output_avoids_ul segs : avoids 60 117 (flat_map segment_output segs) = true.
Proof.
  induction segs as [|g segs IH]; [reflexivity|]. cbn [flat_map].
  destruct g as [t|t]; cbn [segment_output].
  - rewrite render_avoids_behind; auto.
  - unfold strong_element. rewrite <- !app_assoc.
    rewrite avoids_open by discriminate.
    rewrite avoids_skip by apply escape_no_lt.
    rewrite avoids_close by discriminate. exact IH.
Qed.

Ltac copy_units :=
  repeat (rewrite replace_scan_copy by (apply exec_word_starts; reflexivity)).

(** The last step goes through rendered text. *)
Lemma clean_after_render tpl x : forall t p,
  exists p',
    replace_scan flags_g (word (js "</ul><br>")) tpl 0 p (flat_map render_unit t ++ x)
    = flat_map render_unit t ++ replace_scan flags_g (word (js "</ul><br>")) tpl 0 p' x.
Proof.
  induction t as [|c t IH]; intros p; [exists p; reflexivity|].
  cbn [flat_map]. rewrite <- app_assoc. unfold render_unit at 1 3, escape_unit.
  destruct (N.eqb_spec c 10);
    [|destruct (N.eqb_spec c 60); [|destruct (N.eqb_spec c 62)]].
  - change (js "<br>" ++ flat_map render_unit t ++ x)
      with (60 :: 98 :: 114 :: 62 :: flat_map render_unit t ++ x)%N.
    copy_units. destruct (IH (Some 62%N)) as [p' ->]. exists p'. reflexivity.
  - change (js "&lt;" ++ flat_map render_unit t ++ x)
      with (38 :: 108 :: 116 :: 59 :: flat_map render_unit t ++ x)%N.
    copy_units. destruct (IH (Some 59%N)) as [p' ->]. exists p'. reflexivity.
  - change (js "&gt;" ++ flat_map render_unit t ++ x)
      with (38 :: 103 :: 116 :: 59 :: flat_map render_unit t ++ x)%N.
    copy_units. destruct (IH (Some 59%N)) as [p' ->]. exists p'. reflexivity.
  - cbn [app]. rewrite replace_scan_copy by (apply exec_word_head; assumption).
    destruct (IH (Some c)) as [p' ->]. exists p'. reflexivity.
Qed.

(** The last step finds nothing where no list is. *)
Lemma clean_after_output tpl : forall segs p,
  replace_scan flags_g (word (js "</ul><br>")) tpl 0 p (flat_map segment_output segs)
  = flat_map segment_output segs.
Proof.
  induction segs as [|g segs IH]; intros p.
  - apply replace_scan_end, exec_word_starts. reflexivity.
  - cbn [flat_map]. destruct g as [t|t]; cbn [segment_output].
    + destruct (clean_after_render tpl (flat_map segment_output segs) t p) as [p' ->].
      rewrite IH. reflexivity.
    + unfold strong_element. rewrite <- !app_assoc.
      change (js "<strong>" ++ flat_map escape_unit t ++ js "</strong>"
              ++ flat_map segment_output segs)
        with (60 :: 115 :: 116 :: 114 :: 111 :: 110 :: 103 :: 62 ::
              flat_map escape_unit t ++ js "</strong>"
              ++ flat_map segment_output segs)%N.
      copy_units.
      rewrite (scan_word_plain (tl (js "</ul><br>")) tpl (flat_map escape_unit t)
                 _ _ (escape_no_lt t)).
      change (js "</strong>" ++ flat_map segment_output segs)
        with (60 :: 47 :: 115 :: 116 :: 114 :: 111 :: 110 :: 103 :: 62 ::
              flat_map segment_output segs)%N.
      copy_units.
      change (word (60%N :: tl (js "</ul><br>"))) with (word (js "</ul><br>")).
      rewrite IH. reflexivity.
Qed.

(** Text of many lines with bold parts: every part between [**] and [**]
    becomes a [<strong>] element, the text is escaped and its line feeds
    become [<br>]. *)
Lemma formatGeminiResponse_rich segs :
  Forall rich segs ->
  formatGeminiResponse (flat_map segment_source segs) = flat_map segment_output segs.
Proof.
  intros F. rewrite formatGeminiResponse_steps, escape_segments.
  assert (Fe : Forall rich (map escape_segment segs)).
  { apply Forall_map. revert F. apply Forall_impl. exact rich_escape. }
  unfold markup. fold bold_tpl. unfold replace at 6.
  rewrite (bold_rich _ None Fe).
  rewrite (item_absent _ _ (bold_html_avoids_item _ Fe)).
  rewrite (items_absent _ _ (bold_html_avoids_lt 108%N segs
                               ltac:(discriminate) ltac:(discriminate))).
  unfold replace at 3. rewrite (replace_unit flags_g 10%N (js "<br>")).
  change (flat_map (fun x : N => if (x =? 10)%N then js "<br>" else [x]))
    with (flat_map break_unit).
  rewrite (break_rich segs F).
  rewrite (word_absent 60%N 117%N (tl (js "<br><ul>")));
    [|apply output_avoids_ul|exists (js "<br>"), (js "l>"); reflexivity].
  apply clean_after_output.
Qed.

(** *** A pair that is not closed, in text of many lines *)

Lemma no_star_tame t : ~ In 42%N t -> tame t = true.
Proof.
  induction t as [|c t IH]; [reflexivity|]. intros H.
  rewrite tame_cons_ne.
  - apply IH. intros Hi. apply H. right. exact Hi.
  - intros ->. apply H. left. reflexivity.
Qed.

Lemma item_pass_no_star tpl t p x :
  ~ In 42%N t ->
  replace_scan flags_gm re_item tpl 0 p (t ++ x)
  = t ++ replace_scan flags_gm re_item tpl 0 (last_unit p t) x.
Proof.
  intros H. apply replace_scan_pass. intros a c b E. apply exec_item_head.
  intros ->. apply H. rewrite E. apply in_or_app. right. left. reflexivity.
Qed.

Lemma bold_open_pair p0 p q :
  ~ In 42%N p -> ~ In 42%N q ->
  replace_scan flags_g re_bold bold_tpl 0 p0 (p ++ js "**" ++ q) = p ++ js "**" ++ q.
Proof.
  intros Hp Hq. rewrite (bold_pass_tame p p0 _ (no_star_tame p Hp)). f_equal.
  change (js "**" ++ q) with (42 :: 42 :: q)%N.
  rewrite replace_scan_copy.
  - rewrite replace_scan_copy.
    + do 2 f_equal. rewrite <- (app_nil_r q) at 1.
      rewrite (bold_pass_tame q _ _ (no_star_tame q Hq)).
      rewrite replace_scan_end by apply exec_bold_nil. apply app_nil_r.
    + no_match exec_bold_inv as [E _]. inversion E as [E'].
      apply Hq. rewrite E'. left. reflexivity.
  - no_match exec_bold_inv as [E _]. inversion E as [E'].
    apply Hq. rewrite E'. apply in_or_app. right. left. reflexivity.
Qed.

Lemma item_open_pair p0 p q :
  ~ In 42%N p -> ~ In 42%N q ->
  replace_scan flags_gm re_item item_tpl 0 p0 (p ++ js "**" ++ q) = p ++ js "**" ++ q.
Proof.
  intros Hp Hq. rewrite (item_pass_no_star _ p p0 _ Hp). f_equal.
  rewrite item_two_stars. f_equal.
  rewrite <- (app_nil_r q) at 1. rewrite (item_pass_no_star _ q _ _ Hq).
  rewrite replace_scan_end by apply exec_item_nil. apply app_nil_r.
Qed.

(** A [**] in text without another asterisk stays as it is. *)
Lemma formatGeminiResponse_open_pair p q :
  ~ In 42%N p -> ~ In 42%N q ->
  formatGeminiResponse (p ++ js "**" ++ q)
  = flat_map render_unit p ++ js "**" ++ flat_map render_unit q.
Proof.
  intros Hp Hq. rewrite formatGeminiResponse_steps.
  assert (E : flat_map escape_unit (p ++ js "**" ++ q)
              = flat_map escape_unit p ++ js "**" ++ flat_map escape_unit q).
  { rewrite !flat_map_app. reflexivity. }
  unfold markup. fold bold_tpl. fold item_tpl. unfold replace at 6 5. rewrite E at 1.
  rewrite (bold_open_pair None _ _ (escape_no_star p Hp) (escape_no_star q Hq)).
  rewrite (item_open_pair None _ _ (escape_no_star p Hp) (escape_no_star q Hq)).
  rewrite <- E. rewrite (items_id _ _ (escape_no_angle _)).
  unfold replace at 3. rewrite (replace_unit flags_g 10%N (js "<br>")).
  change (flat_map (fun x : N => if (x =? 10)%N then js "<br>" else [x]))
    with (flat_map break_unit).
  rewrite break_escape.
  rewrite (word_absent 60%N 117%N (tl (js "<br><ul>")));
    [|apply render_avoids; auto
     |exists (js "<br>"), (js "l>"); reflexivity].
  rewrite (word_absent 60%N 47%N (tl (js "</ul><br>")));
    [|apply render_avoids; auto|exists [], (js "ul><br>"); reflexivity].
  rewrite !flat_map_app. reflexivity.
Qed.

(** *** The bold step on any string *)

Lemma star_lazy_reach f k g y : forall t p,
  forallb (dot_ok f) t = true ->
  k {| prev := last_unit p t; rest := y; cap := g |} <> None ->
  star_lazy f k p (t ++ y) g <> None.
Proof.
  induction t as [|c t IH]; intros p D H.
  - destruct (k {| prev := last_unit p []; rest := y; cap := g |}) as [res|] eqn:Hk;
      [|congruence].
    cbn [app]. rewrite (star_lazy_here f k p y g res Hk). discriminate.
  - simpl in D. apply andb_prop in D. destruct D as [Dc Dt].
    change ((c :: t) ++ y) with (c :: t ++ y). cbn [star_lazy].
    destruct (k {| prev := p; rest := c :: t ++ y; cap := g |}); [discriminate|].
    rewrite Dc. apply IH; assumption.
Qed.

(** Where a [**] has a [**] behind it on the same line, a match starts. *)
Lemma exec_bold_some p t x :
  one_line t = true -> exec flags_g re_bold p (pair_source t x) <> None.
Proof.
  intros L. unfold exec, re_bold, pair_source. change (js "**") with [42; 42]%N.
  cbn [run rest prev cap app]. rewrite N.eqb_refl.
  match goal with
  | |- match ?s with _ => _ end <> None =>
      destruct s eqn:H; [discriminate|]
  end.
  exfalso. revert H. apply star_lazy_reach.
  - apply forallb_forall. intros c Hc. unfold dot_ok.
    rewrite (one_line_in t c L Hc). reflexivity.
  - cbn [rest]. rewrite !N.eqb_refl. discriminate.
Qed.

Lemma bold_step_scan : forall n s p,
  length s <= n -> bold_step s (replace_scan flags_g re_bold bold_tpl 0 p s).
Proof.
  induction n as [|n IH]; intros s p Ln.
  - destruct s; [|simpl in Ln; lia].
    rewrite replace_scan_end by apply exec_bold_nil. constructor.
  - destruct s as [|c s].
    + rewrite replace_scan_end by apply exec_bold_nil. constructor.
    + destruct (exec flags_g re_bold p (c :: s)) as [[g s']|] eqn:H.
      * pose proof (exec_bold_nearest p _ g s' H) as Hn.
        pose proof (exec_bold_inv p _ g s' H) as [E L].
        assert (Ls : length s' < length (c :: s)).
        { rewrite E, !length_app. simpl. lia. }
        destruct (replace_scan_behind flags_g re_bold bold_tpl p _ g s' H Ls)
          as [p' ->].
        replace (subst bold_tpl g) with (strong_element g)
          by (unfold subst, bold_tpl, strong_element; cbn [flat_map];
              rewrite app_nil_r; reflexivity).
        change ([42; 42]%N ++ g ++ [42; 42]%N ++ s') with (pair_source g s') in E.
        rewrite E. apply bold_step_pair; [exact L|exact Hn|].
        apply IH. simpl in Ls, Ln. lia.
      * rewrite (replace_scan_copy _ _ _ _ _ _ H). apply bold_step_unit.
        -- intros t x L E. apply (exec_bold_some p t x L). rewrite <- E. exact H.
        -- apply IH. simpl in Ln. lia.
Qed.

(** The bold step does what [bold_step] says, on every string. *)
Lemma replace_bold_step s : bold_step s (replace flags_g re_bold bold_tpl s).
Proof. apply (bold_step_scan (length s)). lia. Qed.

(** *** The steps behind the bold step keep a [<strong>] element *)

Lemma app_longer {A} (m s' a b : list A) :
  m ++ s' = a ++ b -> length b <= length s' ->
  exists w2, a = m ++ w2 /\ s' = w2 ++ b.
Proof.
  intros E L. apply app_eq_app in E. destruct E as [l [[E1 E2]|[E1 E2]]].
  - assert (l = []).
    { destruct l; [reflexivity|]. rewrite E2, length_app in L. simpl in L. lia. }
    subst l. rewrite app_nil_r in E1. exists []. rewrite app_nil_r. auto.
  - exists l. auto.
Qed.

Lemma app_shorter {A} (m s' a b : list A) :
  m ++ s' = a ++ b -> length s' < length b ->
  exists m2, m2 <> [] /\ m = a ++ m2 /\ b = m2 ++ s'.
Proof.
  intros E L. apply app_eq_app in E. destruct E as [l [[E1 E2]|[E1 E2]]].
  - exists l. repeat split; auto. intros ->. simpl in E2. subst b. lia.
  - rewrite E2, length_app in L. lia.
Qed.

Section Keeps.
Variables (f : flags) (r : regex) (tpl : list piece) (E : jstring).

(** No match starts in [E]. *)
Hypothesis no_start : forall p e1 c e2 y,
  E = e1 ++ c :: e2 -> exec f r (last_unit p e1) (c :: e2 ++ y) = None.

(** A match that reaches into [E] goes over all of it, and what replaces
    the match holds [E]. *)
Hypothesis covers : forall p w y g s',
  exec f r p (w ++ E ++ y) = Some (g, s') -> length s' < length (E ++ y) ->
  exists y1 g1 g2, y = y1 ++ s' /\ subst tpl g = g1 ++ E ++ g2.

Lemma keeps_scan : forall n w p y,
  length w <= n ->
  exists x' y', replace_scan f r tpl 0 p (w ++ E ++ y) = x' ++ E ++ y'.
Proof.
  assert (Base : forall p y, exists x' y',
                   replace_scan f r tpl 0 p ([] ++ E ++ y) = x' ++ E ++ y').
  { intros p y. exists [], (replace_scan f r tpl 0 (last_unit p E) y).
    cbn [app]. apply replace_scan_pass. intros a c b Ea. apply no_start. exact Ea. }
  induction n as [|n IH]; intros w p y Ln.
  - destruct w; [apply Base|simpl in Ln; lia].
  - destruct w as [|c w]; [apply Base|]. simpl in Ln.
    destruct (exec f r p ((c :: w) ++ E ++ y)) as [[g s']|] eqn:H.
    + destruct (Nat.lt_ge_cases (length s') (length (E ++ y))) as [Hlt|Hge].
      * destruct (covers p (c :: w) y g s' H Hlt) as (y1 & g1 & g2 & Ey & Es).
        destruct (replace_scan_behind f r tpl p _ g s' H) as [p' ->].
        { rewrite length_app. lia. }
        rewrite Es. eexists g1, _. rewrite <- !app_assoc. reflexivity.
      * destruct (exec_suffix _ _ _ _ _ _ H) as [m Em].
        destruct (app_longer m s' (c :: w) (E ++ y) (eq_sym Em) Hge)
          as (w2 & Ew & Es).
        destruct m as [|c' m].
        -- cbn [app] in Ew. subst w2.
           change ((c :: w) ++ E ++ y) with (c :: w ++ E ++ y) in *.
           cbn [replace_scan]. rewrite H.
           replace (length (c :: w ++ E ++ y) - length s') with 0
             by (rewrite Es; cbn [app]; lia).
           destruct (IH w (Some c) y ltac:(lia)) as (x' & y' & ->).
           exists (subst tpl g ++ c :: x'), y'. rewrite <- app_assoc. reflexivity.
        -- destruct (replace_scan_behind f r tpl p _ g s' H) as [p' ->].
           { rewrite Em, length_app. simpl. lia. }
           rewrite Es.
           assert (Lw : length w2 <= n).
           { apply (f_equal (@length N)) in Ew. rewrite length_app in Ew.
             simpl in Ew. lia. }
           destruct (IH w2 p' y Lw) as (x' & y' & ->).
           exists (subst tpl g ++ x'), y'. rewrite <- app_assoc. reflexivity.
    + change ((c :: w) ++ E ++ y) with (c :: w ++ E ++ y) in *.
      rewrite (replace_scan_copy _ _ _ _ _ _ H).
      destruct (IH w (Some c) y ltac:(lia)) as (x' & y' & ->).
      exists (c :: x'), y'. reflexivity.
Qed.

Lemma keeps x y :
  exists x' y', replace f r tpl (x ++ E ++ y) = x' ++ E ++ y'.
Proof. apply (keeps_scan (length x)). lia. Qed.
End Keeps.

Lemma strong_cons t :
  strong_element t
  = (60 :: 115 :: 116 :: 114 :: 111 :: 110 :: 103 :: 62 :: t ++ js "</strong>")%N.
Proof. reflexivity. Qed.

Lemma strong_one_line t : one_line t = true -> one_line (strong_element t) = true.
Proof. intros L. unfold strong_element. rewrite !one_line_app, L. reflexivity. Qed.

Lemma no_angle_no_gt s : no_angle s -> ~ In 62%N s.
Proof.
  unfold no_angle. rewrite forallb_forall. intros H Hi.
  apply H in Hi. discriminate.
Qed.

Lemma split_at_first {A} (x : A) : forall t z e1 e2,
  ~ In x t -> t ++ x :: z = e1 ++ x :: e2 ->
  (e1 = t /\ e2 = z) \/ (exists e, e1 = t ++ x :: e /\ z = e ++ x :: e2).
Proof.
  induction t as [|c t IH]; intros z e1 e2 Hx H.
  - destruct e1 as [|d e1]; cbn [app] in H.
    + left. inversion H. auto.
    + right. inversion H. subst. exists e1. auto.
  - destruct e1 as [|d e1]; cbn [app] in H.
    + exfalso. inversion H. subst. apply Hx. left. reflexivity.
    + inversion H. subst d.
      destruct (IH z e1 e2) as [[-> ->]|(e & -> & ->)]; auto.
      * intros Hi. apply Hx. right. exact Hi.
      * right. exists e. auto.
Qed.

(** Where [<] is in a [<strong>] element. *)
Lemma strong_lt t e1 e2 :
  ~ In 60%N t -> strong_element t = e1 ++ 60%N :: e2 ->
  (e1 = [] /\ e2 = js "strong>" ++ t ++ js "</strong>") \/
  (e1 = js "<strong>" ++ t /\ e2 = js "/strong>").
Proof.
  intros Ht H. rewrite strong_cons in H.
  destruct e1 as [|x1 e1]; [left; inversion H; auto|]. right.
  injection H as Hx H. subst x1.
  do 7 (destruct e1 as [|? e1]; [discriminate H|injection H as Hx H; subst]).
  change (js "</strong>") with (60%N :: js "/strong>") in H.
  destruct (split_at_first 60%N t _ e1 e2 Ht H) as [[-> ->]|(e & _ & Hz)].
  - auto.
  - exfalso. assert (Hi : In 60%N (js "/strong>")).
    { rewrite Hz. apply in_or_app. right. left. reflexivity. }
    simpl in Hi. intuition discriminate.
Qed.

(** Where [>] is in a [<strong>] element. *)
Lemma strong_gt t e1 e2 :
  ~ In 62%N t -> strong_element t = e1 ++ 62%N :: e2 ->
  (e1 = js "<strong" /\ e2 = t ++ js "</strong>") \/
  (e1 = js "<strong>" ++ t ++ js "</strong" /\ e2 = []).
Proof.
  intros Ht H. rewrite strong_cons in H.
  do 7 (destruct e1 as [|? e1]; [discriminate H|injection H as Hx H; subst]).
  destruct e1 as [|x e1]; [left; inversion H; auto|]. right.
  injection H as Hx H. subst x.
  change (t ++ js "</strong>") with (t ++ js "</strong" ++ [62%N]) in H.
  rewrite app_assoc in H.
  assert (Ht' : ~ In 62%N (t ++ js "</strong")).
  { intros Hi. apply in_app_or in Hi. destruct Hi as [Hi|Hi]; [exact (Ht Hi)|].
    simpl in Hi. intuition discriminate. }
  destruct (split_at_first 62%N _ _ e1 e2 Ht' H) as [[-> ->]|(e & _ & Hz)].
  - split; reflexivity.
  - destruct e; discriminate.
Qed.

Lemma suffix_two {A} (w m2 x : list A) i z :
  w ++ m2 = x ++ [i; z] -> m2 <> [] ->
  m2 = [z] \/ exists a, m2 = a ++ [i; z].
Proof.
  intros H Hm. destruct (exists_last Hm) as (m1 & l1 & ->).
  change (x ++ [i; z]) with (x ++ [i] ++ [z]) in H. rewrite !app_assoc in H.
  apply app_inj_tail in H. destruct H as [H ->].
  destruct m1 as [|c m1] using rev_ind; [left; reflexivity|]. right.
  rewrite app_assoc in H. apply app_inj_tail in H. destruct H as [_ ->].
  exists m1. rewrite <- app_assoc. reflexivity.
Qed.

Section KeepsStrong.
Variable t : jstring.
Hypothesis text_one_line : one_line t = true.
Hypothesis text_no_angle : no_angle t.

Lemma item_no_start p e1 c e2 y :
  strong_element t = e1 ++ c :: e2 ->
  exec flags_gm re_item (last_unit p e1) (c :: e2 ++ y) = None.
Proof.
  intros HE. no_match exec_item_inv as (Hb & Es & _).
  inversion Es; subst c.
  destruct e1 as [|d e1 _] using rev_ind.
  - rewrite strong_cons in HE. discriminate HE.
  - rewrite last_unit_snoc in Hb. cbn in Hb.
    rewrite (one_line_in _ d (strong_one_line t text_one_line)) in Hb;
      [discriminate|].
    rewrite HE. apply in_or_app. left. apply in_or_app. right. left. reflexivity.
Qed.

Lemma item_covers p w y g s' :
  exec flags_gm re_item p (w ++ strong_element t ++ y) = Some (g, s') ->
  length s' < length (strong_element t ++ y) ->
  exists y1 g1 g2, y = y1 ++ s' /\ subst item_tpl g = g1 ++ strong_element t ++ g2.
Proof.
  pose proof (strong_one_line t text_one_line) as L1.
  pose proof (strong_cons t) as Hc.
  remember (strong_element t) as E eqn:HE. clear HE.
  intros H Hlt. apply exec_item_inv in H. destruct H as (_ & Es & _ & He).
  rewrite (app_assoc [42; 32]%N g s') in Es.
  destruct (app_shorter _ s' w _ (eq_sym Es) Hlt) as (m2 & _ & Em & Eb).
  assert (Cover : exists l, m2 = E ++ l /\ y = l ++ s').
  { apply app_eq_app in Eb. destruct Eb as [l [[E1 E2]|[E1 E2]]].
    - destruct l as [|d l].
      + exists []. rewrite app_nil_r in E1. rewrite app_nil_r. auto.
      + exfalso. subst s'. cbn in He.
        rewrite (one_line_in _ d L1) in He; [discriminate|].
        rewrite E1. apply in_or_app. right. left. reflexivity.
    - exists l. auto. }
  destruct Cover as (l & -> & ->).
  destruct w as [|c1 [|c2 w]]; cbn [app] in Em.
  - rewrite Hc in Em. discriminate Em.
  - rewrite Hc in Em. discriminate Em.
  - injection Em as _ _ Eg. subst g.
    exists l, (js "<li>" ++ w), (l ++ js "</li>"). split; [reflexivity|].
    unfold subst, item_tpl. cbn [flat_map]. rewrite app_nil_r, <- !app_assoc.
    reflexivity.
Qed.

Lemma items_no_start p e1 c e2 y :
  strong_element t = e1 ++ c :: e2 ->
  exec flags_gs re_items (last_unit p e1) (c :: e2 ++ y) = None.
Proof.
  intros HE. no_match exec_items_inv as (Es & m & Eg).
  rewrite Eg, <- !app_assoc in Es.
  change (js "<li>" ++ m ++ js "</li>" ++ l0)
    with (60%N :: 108%N :: js "i>" ++ m ++ js "</li>" ++ l0) in Es.
  injection Es as -> Es.
  destruct (strong_lt t e1 e2 (no_angle_not_in t text_no_angle) HE)
    as [[_ ->]|[_ ->]]; discriminate Es.
Qed.

Lemma items_covers p w y g s' :
  exec flags_gs re_items p (w ++ strong_element t ++ y) = Some (g, s') ->
  length s' < length (strong_element t ++ y) ->
  exists y1 g1 g2, y = y1 ++ s' /\ subst items_tpl g = g1 ++ strong_element t ++ g2.
Proof.
  pose proof (strong_gt t) as Hgt.
  pose proof (strong_cons t) as Hc.
  remember (strong_element t) as E eqn:HE. clear HE.
  intros H Hlt. apply exec_items_inv in H. destruct H as (Es & m & Eg).
  destruct (app_shorter _ s' w _ (eq_sym Es) Hlt) as (m2 & Hm2 & Em & Eb).
  apply app_eq_app in Eb. destruct Eb as [l [[E1 E2]|[E1 E2]]].
  - exfalso. rewrite Eg in Em.
    change (js "<li>" ++ m ++ js "</li>")
      with (js "<li>" ++ m ++ js "</l" ++ [105; 62]%N) in Em.
    rewrite !app_assoc in Em. symmetry in Em.
    destruct (suffix_two _ _ _ _ _ Em Hm2) as [->|[a ->]].
    + rewrite Hc in E1. discriminate E1.
    + change (a ++ [105; 62]%N) with (a ++ [105%N] ++ 62%N :: []) in E1.
      rewrite app_assoc, <- app_assoc in E1. cbn [app] in E1.
      destruct (Hgt _ _ (no_angle_no_gt t text_no_angle) E1)
        as [[Ea _]|[Ea _]].
      * change (js "<strong") with (js "<stron" ++ [103%N]) in Ea.
        apply app_inj_tail in Ea. destruct Ea as [_ Ea]. discriminate Ea.
      * change (js "<strong>" ++ t ++ js "</strong")
          with (js "<strong>" ++ t ++ js "</stron" ++ [103%N]) in Ea.
        rewrite !app_assoc in Ea.
        apply app_inj_tail in Ea. destruct Ea as [_ Ea]. discriminate Ea.
  - subst m2 y. exists l, (js "<ul>" ++ w), (l ++ js "</ul>").
    split; [reflexivity|]. rewrite Em.
    unfold subst, items_tpl. cbn [flat_map]. rewrite app_nil_r, <- !app_assoc.
    reflexivity.
Qed.

Lemma clean_no_start w p e1 c e2 y :
  w = js "<br><ul>" \/ w = js "</ul><br>" ->
  strong_element t = e1 ++ c :: e2 ->
  exec flags_g (word w) (last_unit p e1) (c :: e2 ++ y) = None.
Proof.
  intros Hw HE. destruct (N.eq_dec c 60) as [->|Hc].
  - destruct (strong_lt t e1 e2 (no_angle_not_in t text_no_angle) HE)
      as [[_ ->]|[_ ->]]; destruct Hw; subst w;
      [apply (exec_word_starts flags_g 60%N (tl (js "<br><ul>")))
      |apply (exec_word_starts flags_g 60%N (tl (js "</ul><br>")))
      |apply (exec_word_starts flags_g 60%N (tl (js "<br><ul>")))
      |apply (exec_word_starts flags_g 60%N (tl (js "</ul><br>")))];
      reflexivity.
  - destruct Hw; subst w.
    + apply (exec_word_head 60%N (tl (js "<br><ul>"))), Hc.
    + apply (exec_word_head 60%N (tl (js "</ul><br>"))), Hc.
Qed.

(** No match of a cleaning step reaches into the element. *)
Lemma clean_covers w tpl p x y g s' :
  w = js "<br><ul>" \/ w = js "</ul><br>" ->
  exec flags_g (word w) p (x ++ strong_element t ++ y) = Some (g, s') ->
  length s' < length (strong_element t ++ y) ->
  exists y1 g1 g2, y = y1 ++ s' /\ subst tpl g = g1 ++ strong_element t ++ g2.
Proof.
  intros Hw H Hlt. exfalso. apply exec_word_inv in H. destruct H as [H _].
  rewrite strong_cons in H, Hlt.
  destruct Hw; subst w.
  - change (js "<br><ul>") with [60; 98; 114; 62; 60; 117; 108; 62]%N in H.
    repeat (destruct x as [|? x];
            [cbn [app] in H; discriminate H|cbn [app] in H; injection H as _ H]).
    subst s'. rewrite length_app in Hlt. simpl in Hlt.
    rewrite !length_app in Hlt. simpl in Hlt. lia.
  - change (js "</ul><br>") with [60; 47; 117; 108; 62; 60; 98; 114; 62]%N in H.
    repeat (destruct x as [|? x];
            [cbn [app] in H; discriminate H|cbn [app] in H; injection H as _ H]).
    subst s'. rewrite length_app in Hlt. simpl in Hlt.
    rewrite !length_app in Hlt. simpl in Hlt. lia.
Qed.

Lemma break_keeps x y :
  replace flags_g (word [10%N]) [Lit (js "<br>")] (x ++ strong_element t ++ y)
  = flat_map break_unit x ++ strong_element t ++ flat_map break_unit y.
Proof.
  unfold replace. rewrite (replace_unit flags_g 10%N (js "<br>")).
  change (flat_map (fun x : N => if (x =? 10)%N then js "<br>" else [x]))
    with (flat_map break_unit).
  rewrite !flat_map_app.
  rewrite (break_id (strong_element t)); [reflexivity|].
  apply one_line_no_lf, strong_one_line, text_one_line.
Qed.

(** The steps behind the bold step keep a [<strong>] element around text
    of one line without [<] and [>], whatever stands around it. *)
Lemma after_bold_keeps x y :
  exists x' y',
    after_bold (x ++ strong_element t ++ y) = x' ++ strong_element t ++ y'.
Proof.
  unfold after_bold. fold item_tpl. fold items_tpl.
  destruct (keeps flags_gm re_item item_tpl (strong_element t)
              item_no_start item_covers x y) as (x1 & y1 & ->).
  destruct (keeps flags_gs re_items items_tpl (strong_element t)
              items_no_start items_covers x1 y1) as (x2 & y2 & ->).
  rewrite break_keeps.
  destruct (keeps flags_g (word (js "<br><ul>")) [Lit (js "<ul>")] (strong_element t)
              (fun p e1 c e2 z => clean_no_start _ p e1 c e2 z (or_introl eq_refl))
              (fun p w z g s' => clean_covers _ _ p w z g s' (or_introl eq_refl))
              (flat_map break_unit x2) (flat_map break_unit y2)) as (x3 & y3 & ->).
  apply (keeps flags_g (word (js "</ul><br>")) [Lit (js "</ul>")] (strong_element t)
           (fun p e1 c e2 z => clean_no_start _ p e1 c e2 z (or_intror eq_refl))
           (fun p w z g s' => clean_covers _ _ p w z g s' (or_intror eq_refl))).
Qed.
End KeepsStrong.

(** *** The steps behind the bold step keep a [**] *)

Lemma stars_item_no_start p e1 c e2 y :
  js "**" = e1 ++ c :: e2 ->
  exec flags_gm re_item (last_unit p e1) (c :: e2 ++ y) = None.
Proof.
  intros HE. destruct e1 as [|d [|d2 e1]].
  - injection HE as <- <-. no_match exec_item_inv as (_ & Es & _). discriminate Es.
  - injection HE as <- HE. no_match exec_item_inv as (Hb & _). discriminate Hb.
  - exfalso. injection HE as _ _ HE. destruct e1; discriminate HE.
Qed.

Lemma stars_item_covers p w y g s' :
  exec flags_gm re_item p (w ++ js "**" ++ y) = Some (g, s') ->
  length s' < length (js "**" ++ y) ->
  exists y1 g1 g2, y = y1 ++ s' /\ subst item_tpl g = g1 ++ js "**" ++ g2.
Proof.
  intros H Hlt. apply exec_item_inv in H. destruct H as (_ & Es & _ & He).
  rewrite (app_assoc [42; 32]%N g s') in Es.
  destruct (app_shorter _ s' w _ (eq_sym Es) Hlt) as (m2 & _ & Em & Eb).
  assert (Cover : exists l, m2 = js "**" ++ l /\ y = l ++ s').
  { apply app_eq_app in Eb. destruct Eb as [l [[E1 E2]|[E1 E2]]].
    - destruct l as [|d l].
      + exists []. rewrite app_nil_r in E1. rewrite app_nil_r. auto.
      + exfalso. subst s'. cbn in He.
        assert (Hd : In d (js "**")).
        { rewrite E1. apply in_or_app. right. left. reflexivity. }
        destruct Hd as [<-|[<-|[]]]; discriminate He.
    - exists l. auto. }
  destruct Cover as (l & -> & ->).
  destruct w as [|c1 [|c2 w]]; cbn [app] in Em.
  - discriminate Em.
  - discriminate Em.
  - injection Em as _ _ Eg. subst g.
    exists l, (js "<li>" ++ w), (l ++ js "</li>"). split; [reflexivity|].
    unfold subst, item_tpl. cbn [flat_map]. rewrite app_nil_r, <- !app_assoc.
    reflexivity.
Qed.

Lemma stars_in e1 c e2 : js "**" = e1 ++ c :: e2 -> c = 42%N.
Proof.
  intros HE. assert (Hc : In c (js "**")).
  { rewrite HE. apply in_or_app. right. left. reflexivity. }
  destruct Hc as [<-|[<-|[]]]; reflexivity.
Qed.

Lemma stars_items_no_start p e1 c e2 y :
  js "**" = e1 ++ c :: e2 ->
  exec flags_gs re_items (last_unit p e1) (c :: e2 ++ y) = None.
Proof.
  intros HE. rewrite (stars_in e1 c e2 HE). apply exec_items_head. discriminate.
Qed.

Lemma stars_items_covers p w y g s' :
  exec flags_gs re_items p (w ++ js "**" ++ y) = Some (g, s') ->
  length s' < length (js "**" ++ y) ->
  exists y1 g1 g2, y = y1 ++ s' /\ subst items_tpl g = g1 ++ js "**" ++ g2.
Proof.
  intros H Hlt. apply exec_items_inv in H. destruct H as (Es & m & Eg).
  destruct (app_shorter _ s' w _ (eq_sym Es) Hlt) as (m2 & Hm2 & Em & Eb).
  apply app_eq_app in Eb. destruct Eb as [l [[E1 E2]|[E1 E2]]].
  - exfalso. rewrite Eg in Em.
    change (js "<li>" ++ m ++ js "</li>")
      with (js "<li>" ++ m ++ js "</l" ++ [105; 62]%N) in Em.
    rewrite !app_assoc in Em. symmetry in Em.
    assert (Hi : In 62%N (js "**")).
    { rewrite E1. apply in_or_app. left.
      destruct (suffix_two _ _ _ _ _ Em Hm2) as [->|[a ->]].
      - left. reflexivity.
      - apply in_or_app. right. right. left. reflexivity. }
    destruct Hi as [Hi|[Hi|[]]]; discriminate Hi.
  - subst m2 y. exists l, (js "<ul>" ++ w), (l ++ js "</ul>").
    split; [reflexivity|]. rewrite Em.
    unfold subst, items_tpl. cbn [flat_map]. rewrite app_nil_r, <- !app_assoc.
    reflexivity.
Qed.

Lemma stars_clean_no_start w p e1 c e2 y :
  w = js "<br><ul>" \/ w = js "</ul><br>" ->
  js "**" = e1 ++ c :: e2 ->
  exec flags_g (word w) (last_unit p e1) (c :: e2 ++ y) = None.
Proof.
  intros Hw HE. rewrite (stars_in e1 c e2 HE). destruct Hw; subst w.
  - apply (exec_word_head 60%N (tl (js "<br><ul>"))). discriminate.
  - apply (exec_word_head 60%N (tl (js "</ul><br>"))). discriminate.
Qed.

Lemma stars_clean_covers w tpl p x y g s' :
  w = js "<br><ul>" \/ w = js "</ul><br>" ->
  exec flags_g (word w) p (x ++ js "**" ++ y) = Some (g, s') ->
  length s' < length (js "**" ++ y) ->
  exists y1 g1 g2, y = y1 ++ s' /\ subst tpl g = g1 ++ js "**" ++ g2.
Proof.
  intros Hw H Hlt. exfalso. apply exec_word_inv in H. destruct H as [H _].
  change (js "**" ++ y) with (42 :: 42 :: y)%N in H, Hlt.
  destruct Hw; subst w.
  - change (js "<br><ul>") with [60; 98; 114; 62; 60; 117; 108; 62]%N in H.
    repeat (destruct x as [|? x];
            [cbn [app] in H; discriminate H|cbn [app] in H; injection H as _ H]).
    subst s'. rewrite length_app in Hlt. simpl in Hlt. lia.
  - change (js "</ul><br>") with [60; 47; 117; 108; 62; 60; 98; 114; 62]%N in H.
    repeat (destruct x as [|? x];
            [cbn [app] in H; discriminate H|cbn [app] in H; injection H as _ H]).
    subst s'. rewrite length_app in Hlt. simpl in Hlt. lia.
Qed.

(** The steps behind the bold step keep a [**], whatever stands around
    it. *)
Lemma after_bold_keeps_stars x y :
  exists x' y', after_bold (x ++ js "**" ++ y) = x' ++ js "**" ++ y'.
Proof.
  unfold after_bold. fold item_tpl. fold items_tpl.
  destruct (keeps flags_gm re_item item_tpl (js "**")
              stars_item_no_start stars_item_covers x y) as (x1 & y1 & ->).
  destruct (keeps flags_gs re_items items_tpl (js "**")
              stars_items_no_start stars_items_covers x1 y1) as (x2 & y2 & ->).
  unfold replace at 3. rewrite (replace_unit flags_g 10%N (js "<br>")).
  change (flat_map (fun x : N => if (x =? 10)%N then js "<br>" else [x]))
    with (flat_map break_unit).
  rewrite !flat_map_app. change (flat_map break_unit (js "**")) with (js "**").
  destruct (keeps flags_g (word (js "<br><ul>")) [Lit (js "<ul>")] (js "**")
              (fun p e1 c e2 z => stars_clean_no_start _ p e1 c e2 z (or_introl eq_refl))
              (fun p w z g s' => stars_clean_covers _ _ p w z g s' (or_introl eq_refl))
              (flat_map break_unit x2) (flat_map break_unit y2)) as (x3 & y3 & ->).
  apply (keeps flags_g (word (js "</ul><br>")) [Lit (js "</ul>")] (js "**")
           (fun p e1 c e2 z => stars_clean_no_start _ p e1 c e2 z (or_intror eq_refl))
           (fun p w z g s' => stars_clean_covers _ _ p w z g s' (or_intror eq_refl))).
Qed.

(** *** Bold pairs: the property of the specification *)

Lemma pair_source_inj t s t' s' :
  closes_first t -> closes_first t' ->
  pair_source t s = pair_source t' s' -> t = t' /\ s = s'.
Proof.
  assert (Half : forall t s t' s' l,
            closes_first t -> t = t' ++ l ->
            (42 :: 42 :: s')%N = l ++ (42 :: 42 :: s)%N -> l = []).
  { intros u s0 u' s0' l C E1 E2. destruct l as [|c1 [|c2 l]]; [reflexivity| |].
    - exfalso. injection E2 as <- _. apply (C u' []). rewrite E1, <- app_assoc.
      reflexivity.
    - exfalso. injection E2 as <- <- _. apply (C u' (l ++ [42%N])).
      rewrite E1, <- !app_assoc. reflexivity. }
  intros C C' E. unfold pair_source in E. change (js "**") with [42; 42]%N in E.
  cbn [app] in E. injection E as E.
  apply app_eq_app in E. destruct E as [l [[E1 E2]|[E1 E2]]].
  - pose proof (Half t s t' s' l C E1 E2) as ->.
    rewrite app_nil_r in E1. cbn [app] in E2. injection E2 as ->. auto.
  - pose proof (Half t' s' t s l C' E1 E2) as ->.
    rewrite app_nil_r in E1. cbn [app] in E2. injection E2 as ->. auto.
Qed.

Lemma bold_step_inv s o :
  bold_step s o ->
  (s = [] /\ o = []) \/
  (exists t s' out,
      one_line t = true /\ closes_first t /\ bold_step s' out /\
      s = pair_source t s' /\ o = strong_element t ++ out) \/
  (exists c s' out,
      (forall t x, one_line t = true -> c :: s' <> pair_source t x) /\
      bold_step s' out /\ s = c :: s' /\ o = c :: out).
Proof.
  destruct 1 as [|t s out L C H|c s out Hno H].
  - left. auto.
  - right. left. exists t, s, out. auto.
  - right. right. exists c, s, out. auto.
Qed.

(** [bold_step] leaves no choice. *)
Lemma bold_step_functional s o1 :
  bold_step s o1 -> forall o2, bold_step s o2 -> o1 = o2.
Proof.
  induction 1 as [|t s out L C H IH|c s out Hno H IH]; intros o2 H2;
    destruct (bold_step_inv _ _ H2)
      as [[E ->]|[(t' & s' & out' & L' & C' & H' & E & ->)
                 |(c' & s' & out' & Hno' & H' & E & ->)]].
  - reflexivity.
  - discriminate E.
  - discriminate E.
  - discriminate E.
  - destruct (pair_source_inj t s t' s' C C' E) as [-> ->].
    f_equal. apply IH. exact H'.
  - exfalso. exact (Hno' t s L (eq_sym E)).
  - discriminate E.
  - exfalso. exact (Hno t' s' L' E).
  - injection E as -> ->. f_equal. apply IH. exact H'.
Qed.

(** C7, amended: the formatter makes of every [**text**] pair whose text
    lies on one line a [<strong>] element around the (escaped) text, and
    pairs the [**] from the left, each with the first [**] behind it on
    its line.
    - ["**bold**"] becomes [<strong>bold</strong>], without an asterisk.
    - In text of any number of lines, where every other asterisk is
      neither next to an asterisk nor before a space, every pair becomes
      its element, the text between the pairs is escaped, and line feeds
      become [<br>].
    - On every input the bold step does what [bold_step] says of the
      escaped input, and [bold_step] leaves no choice; the formatter's
      output is the later steps applied to that; every [<strong>]
      element the bold step wrote around text of one line is in the
      formatter's output as it is, and so is every [**] the bold step
      left.
    - A match of the pattern is an opening [**], text without a line
      terminator and the first [**] behind the opening one.
    - A [**] in text without another asterisk stays as it is, whatever
      the lines of the text. *)
Theorem formatGeminiResponse_bold :
  (formatGeminiResponse (js "**bold**") = js "<strong>bold</strong>" /\
   ~ In 42%N (formatGeminiResponse (js "**bold**"))) /\
  (forall segs,
     Forall rich segs ->
     formatGeminiResponse (flat_map segment_source segs)
     = flat_map segment_output segs) /\
  (forall s,
     let html := replace flags_g re_bold bold_tpl (flat_map escape_unit s) in
     bold_step (flat_map escape_unit s) html /\
     formatGeminiResponse s = after_bold html /\
     (forall x t y,
        html = x ++ strong_element t ++ y -> one_line t = true -> no_angle t ->
        exists x' y', formatGeminiResponse s = x' ++ strong_element t ++ y') /\
     (forall x y,
        html = x ++ js "**" ++ y ->
        exists x' y', formatGeminiResponse s = x' ++ js "**" ++ y')) /\
  (forall s o1 o2, bold_step s o1 -> bold_step s o2 -> o1 = o2) /\
  (forall p s g s',
     exec flags_g re_bold p s = Some (g, s') ->
     s = js "**" ++ g ++ js "**" ++ s' /\ one_line g = true /\ closes_first g) /\
  (forall p q,
     ~ In 42%N p -> ~ In 42%N q ->
     formatGeminiResponse (p ++ js "**" ++ q)
     = flat_map render_unit p ++ js "**" ++ flat_map render_unit q).
Proof.
  split; [|split; [|split; [|split; [|split]]]].
  - split; [reflexivity|]. vm_compute. intuition discriminate.
  - apply formatGeminiResponse_rich.
  - intros s html.
    assert (E : formatGeminiResponse s = after_bold html).
    { rewrite formatGeminiResponse_steps. reflexivity. }
    split; [apply replace_bold_step|]. split; [exact E|]. split.
    + intros x t y Eh L A. rewrite E, Eh. apply after_bold_keeps; assumption.
    + intros x y Eh. rewrite E, Eh. apply after_bold_keeps_stars.
  - intros s o1 o2 H1 H2. exact (bold_step_functional s o1 H1 o2 H2).
  - intros p s g s' H. pose proof (exec_bold_inv p s g s' H) as [E L].
    split; [exact E|]. split; [exact L|]. exact (exec_bold_nearest p s g s' H).
  - apply formatGeminiResponse_open_pair.
Qed.

Lemma formatGeminiResponse_bold_witness :
  let segs := [Plain (js "a<b:" ++ LF); Bold (js "x*y"); Plain (LF ++ js "2*3 ");
               Bold (js "z"); Plain (js " end")] in
  Forall rich segs /\
  formatGeminiResponse
    (js "a<b:" ++ LF ++ js "**x*y**" ++ LF ++ js "2*3 **z** end")
  = js "a&lt;b:<br><strong>x*y</strong><br>2*3 <strong>z</strong> end" /\
  replace flags_g re_bold bold_tpl (flat_map escape_unit (js "* **a** b"))
  = js "* " ++ strong_element (js "a") ++ js " b" /\
  one_line (js "a") = true /\ no_angle (js "a") /\
  (exists x' y',
      formatGeminiResponse (js "* **a** b") = x' ++ js "<strong>a</strong>" ++ y') /\
  replace flags_g re_bold bold_tpl (flat_map escape_unit (js "* ** x"))
  = js "* " ++ js "**" ++ js " x" /\
  (exists x' y', formatGeminiResponse (js "* ** x") = x' ++ js "**" ++ y') /\
  exec flags_g re_bold None (js "**a**b**") = Some (js "a", js "b**") /\
  closes_first (js "a") /\
  ~ In 42%N (js "2 ") /\ ~ In 42%N (js " 3" ++ LF ++ js "4") /\
  formatGeminiResponse (js "2 ** 3" ++ LF ++ js "4") = js "2 ** 3<br>4".
Proof.
  intros segs.
  assert (F : Forall rich segs) by (repeat constructor).
  assert (Np : ~ In 42%N (js "2 ")) by (apply not_in_by_test; reflexivity).
  assert (Nq : ~ In 42%N (js " 3" ++ LF ++ js "4"))
    by (apply not_in_by_test; reflexivity).
  destruct formatGeminiResponse_bold as (_ & Rich & Step & _ & Match & Open).
  split; [exact F|]. split; [exact (Rich segs F)|].
  split; [reflexivity|]. split; [reflexivity|]. split; [reflexivity|].
  split.
  { exact (proj1 (proj2 (proj2 (Step (js "* **a** b"))))
             (js "* ") (js "a") (js " b") eq_refl eq_refl eq_refl). }
  split; [reflexivity|]. split.
  { exact (proj2 (proj2 (proj2 (Step (js "* ** x"))))
             (js "* ") (js " x") eq_refl). }
  split; [reflexivity|]. split.
  { exact (proj2 (proj2 (Match None (js "**a**b**") (js "a") (js "b**") eq_refl))). }
  split; [exact Np|]. split; [exact Nq|].
  exact (Open (js "2 ") (js " 3" ++ LF ++ js "4") Np Nq).
Defined.

(** C7 as it is stated fails: ["**a\nb**"] is a pair of [**] around the
    text ["a\nb"], which runs over a line feed, and the pair is not made
    bold: the output has no [<strong>] and both [**] stay. *)
Lemma formatGeminiResponse_pair_over_lines :
  let text := js "a" ++ LF ++ js "b" in
  let out := formatGeminiResponse (js "**" ++ text ++ js "**") in
  out = js "**a<br>b**" /\
  occurrences (js "<strong>") out = 0 /\
  occurrences (js "**") out = 2.
Proof. vm_compute. repeat split. Qed.

(** ** More about the handler *)

(** What the rest of the handler does to the page: it assigns to its
    placeholder, and the value does not depend on the page. *)
Lemma submit_resume_assigns rt r :
  exists by_ c, forall el pg,
    chatBox (submit_resume rt el r pg) = assign el by_ c (chatBox pg) /\
    input_value (submit_resume rt el r pg) = input_value pg.
Proof.
  destruct (submit_try_cases rt r)
    as [(status & data & text & _ & _ & _ & _ & H)|[H|(m & H)]].
  - exists InnerHTML, (formatGeminiResponse text). intros el pg.
    unfold submit_resume. rewrite H. split; reflexivity.
  - exists TextContent, no_response_text. intros el pg.
    unfold submit_resume. rewrite H. split; reflexivity.
  - exists TextContent, (failure_prefix ++ m). intros el pg.
    unfold submit_resume. rewrite H. split; reflexivity.
Qed.

(** X4: when a reply arrives, whatever it is and whatever happened to the
    page since the request, the handler changes nothing but the content of
    its placeholder: the chat box keeps its length, every other child and
    the classes of the placeholder stay as they are, and the input field is
    not touched. *)
Theorem submit_resume_frame rt el r pg :
  length (chatBox (submit_resume rt el r pg)) = length (chatBox pg) /\
  (forall i, i <> el ->
     nth_error (chatBox (submit_resume rt el r pg)) i = nth_error (chatBox pg) i) /\
  (forall x, nth_error (chatBox pg) el = Some x ->
     exists y, nth_error (chatBox (submit_resume rt el r pg)) el = Some y /\
               classList y = classList x) /\
  input_value (submit_resume rt el r pg) = input_value pg.
Proof.
  destruct (submit_resume_assigns rt r) as (by_ & c & H).
  destruct (H el pg) as [Hc Hi]. rewrite Hc.
  split; [apply assign_length|]. split; [intros i Hne; apply assign_nth_other, Hne|].
  split; [|exact Hi].
  intros x Hx. eexists. split; [apply assign_nth_same, Hx|reflexivity].
Qed.

Lemma submit_resume_frame_witness :
  let pg := {| input_value := js "next";
               chatBox := [message_element "user" InnerHTML (js "hi");
                           message_element "bot" InnerHTML thinking_text;
                           message_element "user" InnerHTML (js "more")];
               trace := [] |} in
  1 <> 2 /\
  nth_error (chatBox (submit_resume v8 1 (Rejected (js "Failed to fetch")) pg)) 2
  = Some (message_element "user" InnerHTML (js "more")).
Proof.
  intros pg. split; [discriminate|].
  exact (proj1 (proj2 (submit_resume_frame v8 1 (Rejected (js "Failed to fetch")) pg))
               2 ltac:(discriminate)).
Defined.

(** X5: two replies that belong to different placeholders can arrive in
    either order: the chat box is the same in the end. *)
Theorem submit_resume_any_order rt e1 r1 e2 r2 pg :
  e1 <> e2 ->
  chatBox (submit_resume rt e1 r1 (submit_resume rt e2 r2 pg))
  = chatBox (submit_resume rt e2 r2 (submit_resume rt e1 r1 pg)).
Proof.
  intros H.
  destruct (submit_resume_assigns rt r1) as (b1 & c1 & H1).
  destruct (submit_resume_assigns rt r2) as (b2 & c2 & H2).
  rewrite (proj1 (H1 e1 _)), (proj1 (H2 e2 _)), (proj1 (H2 e2 _)), (proj1 (H1 e1 _)).
  apply assign_comm, H.
Qed.

Lemma submit_resume_any_order_witness :
  let pg := {| input_value := [];
               chatBox := [message_element "user" InnerHTML (js "one");
                           message_element "bot" InnerHTML thinking_text;
                           message_element "user" InnerHTML (js "two");
                           message_element "bot" InnerHTML thinking_text];
               trace := [] |} in
  let r1 := Response 200 (Parsed (JObj [(js "result", JStr (js "first"))])) in
  let r2 := Rejected (js "Failed to fetch") in
  1 <> 3 /\
  chatBox (submit_resume v8 1 r1 (submit_resume v8 3 r2 pg))
  = chatBox (submit_resume v8 3 r2 (submit_resume v8 1 r1 pg)).
Proof.
  intros pg r1 r2. split; [discriminate|].
  exact (submit_resume_any_order v8 1 r1 3 r2 pg ltac:(discriminate)).
Defined.








(** X9: the handler returns at once exactly on the inputs that consist of
    white space and line terminators only; on every other input it goes on
    to the request. *)
Theorem submit_begin_returns pg :
  snd (submit_begin pg) = None
  <-> forallb is_trimmed_unit (input_value pg) = true.
Proof.
  rewrite <- trim_nil. split.
  - intros H. destruct (trim (input_value pg)) as [|c t] eqn:E; [reflexivity|].
    rewrite (submit_begin_sent pg c t E) in H. discriminate.
  - intros E. unfold submit_begin. cbn [emit input_value]. rewrite E. reflexivity.
Qed.

(** X10: a submission never changes or removes what the chat box holds
    already: the chat box behind it starts with the old one, and it has
    grown by no element or by two. *)
Theorem submit_appends_only rt r pg :
  firstn (length (chatBox pg)) (chatBox (submit rt r pg)) = chatBox pg /\
  (length (chatBox (submit rt r pg)) = length (chatBox pg) \/
   length (chatBox (submit rt r pg)) = 2 + length (chatBox pg)).
Proof.
  destruct (trim (input_value pg)) as [|c t] eqn:E.
  - assert (B : submit rt r pg = emit PreventDefault pg).
    { unfold submit, submit_begin. cbn [emit input_value]. rewrite E. reflexivity. }
    rewrite B. cbn [emit chatBox]. split; [apply firstn_all|left; reflexivity].
  - destruct (submit_effects_sent rt r pg c t E) as (fe & ff & Ec & _).
    rewrite Ec. split.
    + rewrite firstn_app, Nat.sub_diag, firstn_all. apply app_nil_r.
    + right. rewrite length_app. simpl. lia.
Qed.





Lemma trim_start_head s :
  match trim_start s with [] => True | c :: _ => is_trimmed_unit c = false end.
Proof.
  induction s as [|c s IH]; [exact I|]. simpl.
  destruct (is_trimmed_unit c) eqn:E; [exact IH|exact E].
Qed.

Lemma forallb_rev_true (f : N -> bool) l : forallb f l = true -> forallb f (rev l) = true.
Proof.
  rewrite !forallb_forall. intros H x Hx. apply H, in_rev. exact Hx.
Qed.

(** X15: the message the handler shows and sends is the input without the
    white space and line terminators at its two ends: what lies between is
    kept as it is, and the message neither starts nor ends with such a
    code unit. *)
Theorem trim_keeps_the_middle s :
  (exists a b, s = a ++ trim s ++ b /\
               forallb is_trimmed_unit a = true /\
               forallb is_trimmed_unit b = true) /\
  match trim s with [] => True | c :: _ => is_trimmed_unit c = false end /\
  match rev (trim s) with [] => True | c :: _ => is_trimmed_unit c = false end.
Proof.
  unfold trim.
  destruct (trim_start_suffix s) as (a & Ea & Ha).
  destruct (trim_start_suffix (rev (trim_start s))) as (b & Eb & Hb).
  assert (E1 : trim_start s = rev (trim_start (rev (trim_start s))) ++ rev b).
  { rewrite <- rev_app_distr, <- Eb, rev_involutive. reflexivity. }
  split; [|split].
  - exists a, (rev b). split; [|split; [exact Ha|apply forallb_rev_true, Hb]].
    rewrite <- E1. exact Ea.
  - pose proof (trim_start_head s) as Hh. rewrite E1 in Hh.
    destruct (rev (trim_start (rev (trim_start s)))); [exact I|exact Hh].
  - rewrite rev_involutive. apply trim_start_head.
Qed.

(** X16: while a submission waits for its reply, the chat box ends with
    the message of the user and, behind it, the placeholder with its fixed
    text; the element the handler holds on to is that placeholder, the
    input field is empty and one request is on its way. *)
Theorem submit_begin_waits pg :
  trim (input_value pg) <> [] ->
  let '(pg', held) := submit_begin pg in
  held = Some (S (length (chatBox pg))) /\
  chatBox pg'
  = chatBox pg ++ [message_element "user" InnerHTML (trim (input_value pg));
                   message_element "bot" InnerHTML thinking_text] /\
  nth_error (chatBox pg') (S (length (chatBox pg)))
  = Some (message_element "bot" InnerHTML (js "Gemini sedang berpikir...")) /\
  input_value pg' = [] /\
  fetches (skipn (length (trace pg)) (trace pg'))
  = [post_request (trim (input_value pg))].
Proof.
  intros Hin. destruct (trim (input_value pg)) as [|c t] eqn:E; [congruence|].
  rewrite (submit_begin_sent pg c t E). rewrite E. cbn [chatBox input_value trace].
  split; [reflexivity|]. split; [rewrite <- app_assoc; reflexivity|].
  split; [|split; [reflexivity|]].
  - assert (L : length (chatBox pg ++ [message_element "user" InnerHTML (c :: t)])
                = S (length (chatBox pg))) by (rewrite length_app; simpl; lia).
    rewrite nth_error_app2 by (rewrite L; apply Nat.le_refl).
    rewrite L, Nat.sub_diag. reflexivity.
  - rewrite skipn_app_exact, chat_request_post. reflexivity.
Qed.

Lemma submit_begin_waits_witness :
  let pg := fresh_page (js " hi ") in
  trim (input_value pg) <> [] /\
  fst (submit_begin pg)
  = {| input_value := [];
       chatBox := [message_element "user" InnerHTML (js "hi");
                   message_element "bot" InnerHTML thinking_text];
       trace := sent_effects 0 (js "hi") |} /\
  snd (submit_begin pg) = Some 1.
Proof.
  intros pg.
  assert (Hin : trim (input_value pg) <> []) by discriminate.
  split; [exact Hin|]. split; [reflexivity|].
  pose proof (submit_begin_waits pg Hin) as H.
  destruct (submit_begin pg) as [pg' held]. exact (proj1 H).
Defined.
